(** * Akumuli: the sequencer, its k-way merge and the mocks of its tests

    A shallow embedding of [libakumuli]'s [sequencer.cpp] and of the
    mocks of [test_protocolparser.cpp] and [perf_tcp_server.cpp],
    together with the properties stated for them.

    Conventions.
    - Unsigned machine integers are [Z] values; where the source narrows or
      may wrap ([get_checkpoint_], [get_timestamp_]) the reduction is
      written out.
    - A [std::vector] is a [list]; an iterator into it is a position
      counted from [begin()].
    - The progress mutex is a boolean; a [std::unique_lock] over it is the
      boolean [owns_lock] returned next to the new state.
    - A [throw runtime_error] is the result [None].
    - The stripe spin locks ([lock_run], [lock_all_runs]) are all clear
      whenever a single thread enters an operation and are cleared again
      before it leaves, so they carry no state between operations and are
      not part of [Sequencer] below; they are modelled on their own, on
      the vector of flags, in the section [RunLocks]. *)

From Stdlib Require Import ZArith Lia Ascii String.
From stdpp Require Import base option list sorting numbers strings.

Open Scope Z_scope.

(** ** Values and their order *)

(** Modelled from the spec: the integer types of [sequencer.h] and
    [akumuli_def.h], which are missing. Timestamps and parameter ids are
    unsigned 64-bit integers; an offset is an unsigned integer. *)
Definition TimeStamp := Z.
Definition ParamId := Z.
Definition EntryOffset := Z.

(** [TimeSeriesValue]: [key_] is [std::tuple<TimeStamp, ParamId>],
    [value] the page offset handed to the cursor. *)
Record TimeSeriesValue := mkValue {
  key_ : TimeStamp * ParamId;
  value : EntryOffset
}.

Global Instance TimeSeriesValue_eq_dec : EqDecision TimeSeriesValue.
Proof. solve_decision. Defined.

Definition get_ts (v : TimeSeriesValue) : TimeStamp := (key_ v).1.
Definition get_id (v : TimeSeriesValue) : ParamId := (key_ v).2.

(** [operator <] of [std::tuple<TimeStamp, ParamId>]: lexicographic. *)
Definition key_less (a b : TimeStamp * ParamId) : bool :=
  (a.1 <? b.1) || (negb (b.1 <? a.1) && (a.2 <? b.2)).

(** [operator < (TimeSeriesValue, TimeSeriesValue)]: keys only. *)
Definition value_less (lhs rhs : TimeSeriesValue) : bool :=
  key_less (key_ lhs) (key_ rhs).

Definition SortedRun := list TimeSeriesValue.

(** [r[i].key <= r[j].key], as [!(r[j] < r[i])]. *)
Definition key_le (a b : TimeSeriesValue) : Prop := value_less b a = false.

Global Instance key_le_dec a b : Decision (key_le a b).
Proof. unfold key_le. apply _. Defined.

Definition run_sorted (r : SortedRun) : Prop := Sorted key_le r.

Global Instance run_sorted_dec r : Decision (run_sorted r).
Proof. unfold run_sorted. apply _. Defined.

(** ** [std::lower_bound]

    The loop of the standard algorithm over the range [first, first+count)
    of [l]; [less x] is [comp(x, value)].  [fuel] bounds the number of
    iterations; [count] at least halves each time. *)
Fixpoint lower_bound_loop {A} (less : A → bool) (l : list A)
    (fuel first count : nat) : nat :=
  match fuel with
  | O => first
  | S fuel' =>
    if (0 <? count)%nat then
      let step := (count / 2)%nat in
      let it := (first + step)%nat in
      match l !! it with
      | Some x =>
        if less x
        then lower_bound_loop less l fuel' (S it) (count - (step + 1))%nat
        else lower_bound_loop less l fuel' first step
      | None => first
      end
    else first
  end.

Definition lower_bound {A} (less : A → bool) (l : list A) : nat :=
  lower_bound_loop less l (length l) 0 (length l).

(** What [lower_bound] is meant to compute: the position of the first
    element that is not [less]. *)
Fixpoint first_not_less {A} (less : A → bool) (l : list A) : nat :=
  match l with
  | [] => O
  | x :: l' => if less x then S (first_not_less less l') else O
  end.

(** The precondition of [lower_bound]: the range is partitioned, no
    [less] element follows one that is not. *)
Definition partitioned {A} (less : A → bool) (l : list A) : Prop :=
  ∀ i j x y, (i ≤ j)%nat → l !! i = Some x → l !! j = Some y →
             less y = true → less x = true.

(** ** The sequencer *)

(** The status codes of [akumuli_def.h] that the sequencer uses. *)
Inductive Status :=
  | AKU_SUCCESS
  | AKU_ELATE_WRITE
  | AKU_EBUSY
  | AKU_ENO_DATA.

Global Instance Status_eq_dec : EqDecision Status.
Proof. solve_decision. Defined.

Record Sequencer := mkSequencer {
  window_size_ : Z;
  top_timestamp_ : TimeStamp;
  checkpoint_ : Z;
  runs_ : list SortedRun;
  ready_ : list SortedRun;
  seq_key_ : SortedRun;          (* the member [key_] of [Sequencer] *)
  progress_flag_ : bool          (* [true]: the mutex is locked *)
}.

Definition set_top (ts : TimeStamp) (s : Sequencer) : Sequencer :=
  mkSequencer (window_size_ s) ts (checkpoint_ s) (runs_ s) (ready_ s)
              (seq_key_ s) (progress_flag_ s).

Definition set_runs (rs : list SortedRun) (s : Sequencer) : Sequencer :=
  mkSequencer (window_size_ s) (top_timestamp_ s) (checkpoint_ s) rs
              (ready_ s) (seq_key_ s) (progress_flag_ s).

Definition set_key (k : SortedRun) (s : Sequencer) : Sequencer :=
  mkSequencer (window_size_ s) (top_timestamp_ s) (checkpoint_ s) (runs_ s)
              (ready_ s) k (progress_flag_ s).

Definition set_ready (rd : list SortedRun) (s : Sequencer) : Sequencer :=
  mkSequencer (window_size_ s) (top_timestamp_ s) (checkpoint_ s) (runs_ s)
              rd (seq_key_ s) (progress_flag_ s).

Definition set_progress (b : bool) (s : Sequencer) : Sequencer :=
  mkSequencer (window_size_ s) (top_timestamp_ s) (checkpoint_ s) (runs_ s)
              (ready_ s) (seq_key_ s) b.

(** [Sequencer::Sequencer]: throws unless the window is positive;
    [key_] starts as one default-constructed value. *)
Definition new_sequencer (window_size : Z) : option Sequencer :=
  if window_size <=? 0 then None
  else Some (mkSequencer window_size 0 0 [] [] [mkValue (0, 0) 0] false).

(** Checkpoint id: the quotient narrowed to [uint32_t]. *)
Definition get_checkpoint_ (s : Sequencer) (ts : TimeStamp) : Z :=
  (ts / window_size_ s) mod 2 ^ 32.

(** Checkpoint id back to a timestamp: a 64-bit product. *)
Definition get_timestamp_ (s : Sequencer) (cp : Z) : TimeStamp :=
  (cp * window_size_ s) mod 2 ^ 64.

(** [x.back()]; an empty run has none. *)
Definition back (x : SortedRun) : option TimeSeriesValue := list.last x.

(** [top_element_less]. Calling [back()] on an empty vector is undefined
    in the source; here the comparison is then [false]. Active runs and
    the search key are never empty (see [runs_ordered] below). *)
Definition top_element_less (x y : SortedRun) : bool :=
  match back x, back y with
  | Some a, Some b => value_less a b
  | _, _ => false
  end.

Definition top_element_more (x y : SortedRun) : bool :=
  top_element_less y x.

Section Sequencer.

(** The largest parameter id, a constant of [akumuli_def.h]. *)
Variable AKU_LIMITS_MAX_ID : ParamId.

(** One iteration of the loop of [make_checkpoint_] over [runs_]:
    [acc] is ([new_runs], [ready_]). *)
Definition checkpoint_step (old_top : TimeStamp)
    (acc : list SortedRun * list SortedRun) (sorted_run : SortedRun)
    : list SortedRun * list SortedRun :=
  let it :=
    lower_bound
      (λ x, value_less x (mkValue (old_top, AKU_LIMITS_MAX_ID) 0)) sorted_run in
  if (it =? 0)%nat then (acc.1 ++ [sorted_run], acc.2)
  else if (it =? length sorted_run)%nat then (acc.1, acc.2 ++ [sorted_run])
  else (acc.1 ++ [drop it sorted_run], acc.2 ++ [take it sorted_run]).

(** [make_checkpoint_]: the new state and whether [lock] now owns the
    progress mutex. *)
Definition make_checkpoint_ (new_checkpoint : Z) (s : Sequencer)
    : option (Sequencer * bool) :=
  if progress_flag_ s then Some (s, false)
  else
    let old_top := get_timestamp_ s (checkpoint_ s) in
    match ready_ s with
    | _ :: _ => None
    | [] =>
      let '(new_runs, ready) :=
        foldl (checkpoint_step old_top) ([], ready_ s) (runs_ s) in
      Some (mkSequencer (window_size_ s) (top_timestamp_ s) new_checkpoint
                        new_runs ready (seq_key_ s) true, true)
    end.

(** [check_timestamp_]: error code, [lock.owns_lock()], new state. *)
Definition check_timestamp_ (ts : TimeStamp) (s : Sequencer)
    : option (Status * bool * Sequencer) :=
  if ts <? top_timestamp_ s then
    let delta := top_timestamp_ s - ts in
    Some (if window_size_ s <? delta then AKU_ELATE_WRITE else AKU_SUCCESS,
          false, s)
  else
    let point := get_checkpoint_ s ts in
    if checkpoint_ s <? point then
      match make_checkpoint_ point s with
      | None => None
      | Some (s', owns) =>
        Some (if owns then AKU_SUCCESS else AKU_EBUSY, owns, set_top ts s')
      end
    else Some (AKU_SUCCESS, false, set_top ts s).

(** The insertion at the end of [add]. *)
Definition insert_value (v : TimeSeriesValue) (key : SortedRun)
    (runs : list SortedRun) : list SortedRun :=
  let insert_it := lower_bound (λ r, top_element_more r key) runs in
  if (insert_it =? length runs)%nat then runs ++ [[v]]
  else alter (λ r, r ++ [v]) insert_it runs.

Definition add (v : TimeSeriesValue) (s : Sequencer)
    : option (Status * bool * Sequencer) :=
  match check_timestamp_ (get_ts v) s with
  | None => None
  | Some (status, owns, s1) =>
    if decide (status = AKU_SUCCESS) then
      let key := removelast (seq_key_ s1) ++ [v] in
      Some (AKU_SUCCESS, owns,
            set_runs (insert_value v key (runs_ s1)) (set_key key s1))
    else Some (status, owns, s1)
  end.

(** [close]: whether the returned lock owns the mutex, and the new state. *)
Definition close (s : Sequencer) : option (bool * Sequencer) :=
  if progress_flag_ s then Some (false, s)
  else
    match ready_ s with
    | _ :: _ => None
    | [] =>
      Some (true,
            mkSequencer (window_size_ s) (top_timestamp_ s) (checkpoint_ s)
                        [] (ready_ s ++ runs_ s) (seq_key_ s) true)
    end.

End Sequencer.

(** ** The k-way merge *)

(** The two cursor directions of [akumuli_def.h]. *)
Inductive Direction :=
  | AKU_CURSOR_DIR_FORWARD
  | AKU_CURSOR_DIR_BACKWARD.

(** What reaches an [InternalCursor]: [put] with the value's offset,
    [set_error], [complete]. The caller and the page handle are passed
    through unchanged and are left out. *)
Inductive CursorEvent :=
  | Put (offset : EntryOffset)
  | SetError (code : Status)
  | Complete.

(** [HeapItem] is [tuple<value_t, int>]: a value and the index of its run. *)
Definition HeapItem : Type := TimeSeriesValue * nat.

(** [operator <] of [std::tuple<value_t, int>]. *)
Definition item_less (a b : HeapItem) : bool :=
  value_less a.1 b.1 || (negb (value_less b.1 a.1) && (a.2 <? b.2)%nat).

(** [MergePred<HeapItem, dir>]: [greater] forward, [less] backward. *)
Definition MergePred (dir : Direction) (lhs rhs : HeapItem) : bool :=
  match dir with
  | AKU_CURSOR_DIR_FORWARD => item_less rhs lhs
  | AKU_CURSOR_DIR_BACKWARD => item_less lhs rhs
  end.

(** [RunIter<TRun, dir>]: the elements between [begin(run)] and
    [end(run)], in iteration order. *)
Definition RunIter (dir : Direction) (run : SortedRun) : list TimeSeriesValue :=
  match dir with
  | AKU_CURSOR_DIR_FORWARD => run
  | AKU_CURSOR_DIR_BACKWARD => reverse run
  end.

(** The priority queue ([boost::heap::skew_heap] with [compare<Comp>]) by
    its contract: [top] is an element no other element of the heap is
    ranked above, where [cmp a b] says that [b] ranks above [a]; [pop]
    removes it. The heap's content is kept as a list. *)
Definition Heap := list HeapItem.

Definition heap_push (x : HeapItem) (h : Heap) : Heap := x :: h.

(** The top of [x :: h] and the rest. *)
Fixpoint heap_extract_from (cmp : HeapItem → HeapItem → bool)
    (x : HeapItem) (h : Heap) : HeapItem * Heap :=
  match h with
  | [] => (x, [])
  | y :: h' =>
    let '(m, r) := heap_extract_from cmp y h' in
    if cmp x m then (m, x :: r) else (x, m :: r)
  end.

Definition heap_extract (cmp : HeapItem → HeapItem → bool) (h : Heap)
    : option (HeapItem * Heap) :=
  match h with
  | [] => None
  | x :: h' => Some (heap_extract_from cmp x h')
  end.

Definition heap_top cmp (h : Heap) : option HeapItem := fst <$> heap_extract cmp h.
Definition heap_pop cmp (h : Heap) : Heap := default [] (snd <$> heap_extract cmp h).

(** The second loop of [kway_merge]: the head of each non-empty run goes
    to the heap and its iterator moves on. [iter[i]] is kept as the part
    of run [i] not yet read. *)
Fixpoint kway_seed (index : nat) (iter : list (list TimeSeriesValue))
    (heap : Heap) : list (list TimeSeriesValue) * Heap :=
  match iter with
  | [] => ([], heap)
  | [] :: iter' =>
    let '(its, h) := kway_seed (S index) iter' heap in ([] :: its, h)
  | (v :: rest) :: iter' =>
    let '(its, h) := kway_seed (S index) iter' (heap_push (v, index) heap) in
    (rest :: its, h)
  end.

(** The [while (!heap.empty())] loop. The result lists the heap items in
    the order they are taken off the heap; [None] only when [fuel]
    iterations were not enough. *)
Fixpoint kway_loop (dir : Direction) (fuel : nat)
    (iter : list (list TimeSeriesValue)) (heap : Heap) : option (list HeapItem) :=
  match heap_top (MergePred dir) heap with
  | None => Some []
  | Some item =>
    match fuel with
    | O => None
    | S fuel' =>
      let index := item.2 in
      let heap' := heap_pop (MergePred dir) heap in
      match iter !! index with
      | Some (point :: rest) =>
        cons item <$>
          kway_loop dir fuel' (<[index := rest]> iter) (heap_push (point, index) heap')
      | _ => cons item <$> kway_loop dir fuel' iter heap'
      end
    end
  end.

(** The heap items in the order [kway_merge] emits them. One iteration
    per element of the runs. *)
Definition kway_merge_items (dir : Direction) (runs : list SortedRun)
    : option (list HeapItem) :=
  let '(iter, heap) := kway_seed 0 (RunIter dir <$> runs) [] in
  kway_loop dir (length (concat runs)) iter heap.

(** [kway_merge]: each item taken off the heap is [put] to the cursor. *)
Definition kway_merge (dir : Direction) (runs : list SortedRun)
    : option (list CursorEvent) :=
  fmap (M:=list) (λ item : HeapItem, Put (value item.1)) <$> kway_merge_items dir runs.

(** [Sequencer::merge]. [None] only if [kway_merge] ran out of
    iterations, which [kway_merge_items_total] excludes. *)
Definition merge (owns_lock : bool) (s : Sequencer)
    : option (list CursorEvent * Sequencer) :=
  if negb owns_lock then Some ([SetError AKU_EBUSY], s)
  else if (length (ready_ s) =? 0)%nat then Some ([SetError AKU_ENO_DATA], s)
  else
    match kway_merge AKU_CURSOR_DIR_FORWARD (ready_ s) with
    | None => None
    | Some out => Some (out ++ [Complete], set_ready [] s)
    end.

(** The lock token handed to [merge] goes out of scope: the progress
    mutex is released if the token owned it. *)
Definition release (owns_lock : bool) (s : Sequencer) : Sequencer :=
  if owns_lock then set_progress false s else s.

(** ** Search *)

(** Modelled from the spec: [SearchQuery] of [sequencer.h], which is
    missing, with the fields and the [MATCH] result that [search] and
    [SearchPredicate] use. *)
Inductive MatchResult := MATCH | NO_MATCH.

Global Instance MatchResult_eq_dec : EqDecision MatchResult.
Proof. solve_decision. Defined.

Record SearchQuery := mkQuery {
  lowerbound : TimeStamp;
  upperbound : TimeStamp;
  param_pred : ParamId → MatchResult;
  direction : Direction
}.

(** [SearchPredicate::operator()]. *)
Definition SearchPredicate (query : SearchQuery) (v : TimeSeriesValue) : bool :=
  if (lowerbound query <? get_ts v) && (get_ts v <? upperbound query) then
    if decide (param_pred query (get_id v) = MATCH) then true else false
  else false.

(** [Sequencer::filter]: [copy_if] into a fresh run, appended to [results]. *)
Definition filter_run (run : SortedRun) (q : SearchQuery)
    (results : list SortedRun) : list SortedRun :=
  results ++ [List.filter (SearchPredicate q) run].

(** How a call of [search] ends. *)
Inductive SearchResult :=
  | Blocked                               (* waits for the progress mutex *)
  | AssertionFailed                       (* [assert(ready_.empty())] *)
  | OutOfFuel                             (* [kway_merge] gave [None] *)
  | Emitted (events : list CursorEvent).

Definition search (query : SearchQuery) (s : Sequencer) : SearchResult :=
  if progress_flag_ s then Blocked
  else
    match ready_ s with
    | _ :: _ => AssertionFailed
    | [] =>
      let filtered := foldl (λ acc run, filter_run run query acc) [] (runs_ s) in
      match kway_merge (direction query) filtered with
      | Some events => Emitted events
      | None => OutOfFuel
      end
    end.

(** ** A client of the sequencer

    A single thread that follows the protocol of [add], [close] and
    [merge]: a lock token that owns the progress mutex is given up only
    after it has been passed to [merge]. Since the client is the only
    holder, the token it can pass owns the mutex exactly when
    [progress_flag_] is set. *)
Inductive Op :=
  | OpAdd (v : TimeSeriesValue)
  | OpMerge.

(** What the client has seen so far: the values whose [add] returned
    [AKU_SUCCESS], and everything that reached the cursor. *)
Record Trace := mkTrace {
  admitted : list TimeSeriesValue;
  emitted : list CursorEvent
}.

Definition put_offsets (events : list CursorEvent) : list EntryOffset :=
  omap (λ e, match e with Put o => Some o | _ => None end) events.

Section Client.

Variable AKU_LIMITS_MAX_ID : ParamId.

Definition client_step (st : Sequencer * Trace) (op : Op)
    : option (Sequencer * Trace) :=
  let '(s, t) := st in
  match op with
  | OpAdd v =>
    match add AKU_LIMITS_MAX_ID v s with
    | None => None
    | Some (status, _, s') =>
      Some (s', mkTrace
                  (admitted t ++ (if decide (status = AKU_SUCCESS) then [v] else []))
                  (emitted t))
    end
  | OpMerge =>
    let owns := progress_flag_ s in
    match merge owns s with
    | None => None
    | Some (events, s') =>
      Some (release owns s', mkTrace (admitted t) (emitted t ++ events))
    end
  end.

Fixpoint client_run (ops : list Op) (st : Sequencer * Trace)
    : option (Sequencer * Trace) :=
  match ops with
  | [] => Some st
  | op :: ops' =>
    match client_step st op with
    | None => None
    | Some st' => client_run ops' st'
    end
  end.

(** The states a client can bring a fresh sequencer to before [close]. *)
Definition reachable (s : Sequencer) : Prop :=
  ∃ window_size s0 ops t,
    new_sequencer window_size = Some s0 ∧
    client_run ops (s0, mkTrace [] []) = Some (s, t).

End Client.

(** ** The consumer of the protocol parser

    Of the protocol parser only the test, [test_protocolparser.cpp], is
    among the sources; the parser itself is not, and it is not modelled
    here. The test gives the interface of its consumer, which
    [ConsumerMock] below implements. *)

Definition Byte := ascii.

(** The calls a [ProtocolConsumer] receives. The [double] of
    [write_double] is kept as the text of its token, which determines
    it. *)
Inductive ConsumerCall :=
  | write_double (param ts : Z) (data : list Byte)
  | add_bulk_string (buffer : list Byte) (n : nat).

(** ** The specification's wording, for comparison with the code *)

(** "The first element with key >= [target]": its position, or the end
    of the run when there is none. *)
Definition spec_split_position (target : TimeSeriesValue) (run : SortedRun) : nat :=
  default (length run) (fst <$> list_find (λ x, key_le target x) run).

(** What a checkpoint moves to Ready from one run: nothing when the
    position is the beginning, the whole run when it is the end, the prefix
    otherwise. *)
Definition spec_ready_part (target : TimeSeriesValue) (run : SortedRun)
    : option SortedRun :=
  let p := spec_split_position target run in
  if decide (p = 0%nat) then None
  else if decide (p = length run) then Some run
  else Some (take p run).

(** What a checkpoint keeps active of one run. *)
Definition spec_active_part (target : TimeSeriesValue) (run : SortedRun)
    : option SortedRun :=
  let p := spec_split_position target run in
  if decide (p = 0%nat) then Some run
  else if decide (p = length run) then None
  else Some (drop p run).

(** "The run whose last element's key is the smallest one still >= the
    incoming key." *)
Definition smallest_top_above (v : TimeSeriesValue) (runs : list SortedRun)
    (i : nat) : Prop :=
  ∃ r t, runs !! i = Some r ∧ back r = Some t ∧ key_le v t ∧
    ∀ r' t', r' ∈ runs → back r' = Some t' → key_le v t' → key_le t t'.

(** Insertion as the specification words it: into that run, or into a
    new run when there is none. *)
Definition insert_as_worded (v : TimeSeriesValue) (runs runs' : list SortedRun)
    : Prop :=
  (∃ i, smallest_top_above v runs i ∧ runs' = alter (λ r, r ++ [v]) i runs) ∨
  ((¬ ∃ i, smallest_top_above v runs i) ∧ runs' = runs ++ [[v]]).

(** The run the code picks: the first one whose last key is <= the
    incoming key; no run has a larger last key that is still <= it. *)
Definition largest_top_below (v : TimeSeriesValue) (runs : list SortedRun)
    (i : nat) : Prop :=
  ∃ r t, runs !! i = Some r ∧ back r = Some t ∧ key_le t v ∧
    (∀ j r' t', (j < i)%nat → runs !! j = Some r' → back r' = Some t' →
                value_less v t' = true) ∧
    (∀ r' t', r' ∈ runs → back r' = Some t' → key_le t' v → key_le t' t).

(** The key [make_checkpoint_] searches for: the top of the window that
    [checkpoint_] names, with the largest parameter id. *)
Definition checkpoint_target (max_id : ParamId) (s : Sequencer) : TimeSeriesValue :=
  mkValue (get_timestamp_ s (checkpoint_ s), max_id) 0.

(** The state a checkpoint transition leaves, in the specification's
    words, when [add] of a value with timestamp [ts] triggers it: each
    run split at the first key >= the target, [checkpoint_] and
    [top_timestamp_] moved on. *)
Definition after_checkpoint (max_id : ParamId) (ts : TimeStamp)
    (s : Sequencer) : Sequencer :=
  mkSequencer (window_size_ s) ts (get_checkpoint_ s ts)
    (omap (spec_active_part (checkpoint_target max_id s)) (runs_ s))
    (omap (spec_ready_part (checkpoint_target max_id s)) (runs_ s))
    (seq_key_ s) true.

(** The search key of [add]: [key_] after [pop_back] and [push_back]. *)
Definition add_key (v : TimeSeriesValue) (s : Sequencer) : SortedRun :=
  removelast (seq_key_ s) ++ [v].

(** The position [add] finds among the runs. *)
Definition insert_position (key : SortedRun) (runs : list SortedRun) : nat :=
  lower_bound (λ r, top_element_more r key) runs.

(** Insertion as the code does it: into that run, or into a new run when
    every run ends above the incoming key. *)
Definition insert_as_coded (v : TimeSeriesValue) (runs runs' : list SortedRun)
    : Prop :=
  (∃ i, largest_top_below v runs i ∧ runs' = alter (λ r, r ++ [v]) i runs) ∨
  ((¬ ∃ i, largest_top_below v runs i) ∧ runs' = runs ++ [[v]]).

(** The window id of a value. *)
Definition window_id (s : Sequencer) (v : TimeSeriesValue) : Z :=
  get_ts v / window_size_ s.

(** "Every value in Ready has a window id strictly less than
    [checkpoint_]." *)
Definition ready_before_checkpoint (s : Sequencer) : Prop :=
  ∀ r v, r ∈ ready_ s → v ∈ r → window_id s v < checkpoint_ s.

(** The order in which a direction emits: ascending keys forward,
    descending backward. *)
Definition emit_order (dir : Direction) (a b : TimeSeriesValue) : Prop :=
  match dir with
  | AKU_CURSOR_DIR_FORWARD => key_le a b
  | AKU_CURSOR_DIR_BACKWARD => key_le b a
  end.

(** The same on heap items, ties on the key broken by the run index:
    the smaller index first forward, the larger first backward. *)
Definition item_order (dir : Direction) (a b : HeapItem) : Prop :=
  MergePred dir a b = false.

(** The query "[param_pred ≡ MATCH] over [0, ∞)": every parameter
    matches, the bounds are 0 and the largest [uint64_t]. *)
Definition match_all (dir : Direction) : SearchQuery :=
  mkQuery 0 (2 ^ 64 - 1) (λ _, MATCH) dir.

(** "[search] with that query returns exactly the set of values
    currently in active runs, in key order." *)
Definition search_all_emits_all (s : Sequencer) : Prop :=
  ∃ vs : list TimeSeriesValue,
    search (match_all AKU_CURSOR_DIR_FORWARD) s = Emitted ((λ v, Put (value v)) <$> vs) ∧
    vs ≡ₚ concat (runs_ s) ∧
    StronglySorted key_le vs.

(** The values a sequencer holds. *)
Definition contents (s : Sequencer) : list TimeSeriesValue :=
  concat (ready_ s) ++ concat (runs_ s).

(** Every admitted value has been emitted or is still held. *)
Definition conserved (s : Sequencer) (t : Trace) : Prop :=
  value <$> admitted t ≡ₚ put_offsets (emitted t) ++ (value <$> contents s).

(** ** Invariants of the merge loop *)

(** The elements not yet read, each with the index of its run. *)
Fixpoint tagged_from (index : nat) (iter : list (list TimeSeriesValue))
    : list HeapItem :=
  match iter with
  | [] => []
  | rest :: iter' => ((λ v, (v, index)) <$> rest) ++ tagged_from (S index) iter'
  end.

(** The first element of each run that has one, with the index of the
    run. *)
Fixpoint heads_from (index : nat) (iter : list (list TimeSeriesValue))
    : list HeapItem :=
  match iter with
  | [] => []
  | [] :: iter' => heads_from (S index) iter'
  | (v :: _) :: iter' => (v, index) :: heads_from (S index) iter'
  end.

(** The items of run [i] in a list of heap items. *)
Definition of_run (i : nat) (items : list HeapItem) : list HeapItem :=
  filter (λ it : HeapItem, it.2 = i) items.

(** The state of [kway_merge] after one more iteration of its loop that
    took [m] off the heap and left [r] in it. *)
Definition kway_next (iter : list (list TimeSeriesValue)) (m : HeapItem) (r : Heap)
    : list (list TimeSeriesValue) * Heap :=
  match iter !! m.2 with
  | Some (point :: rest) => (<[m.2 := rest]> iter, heap_push (point, m.2) r)
  | _ => (iter, r)
  end.

(** Between two iterations: what is left of each run is in emission
    order; the heap holds at most one item of each run, one that comes
    before what is left of its run, and it holds one for every run that is
    not yet read to its end. *)
Record merge_inv (dir : Direction) (iter : list (list TimeSeriesValue))
    (heap : Heap) : Prop := mkMergeInv {
  inv_iter_sorted :
    ∀ i rest, iter !! i = Some rest → StronglySorted (emit_order dir) rest;
  inv_heap_head :
    ∀ v i rest, (v, i) ∈ heap → iter !! i = Some rest →
                Forall (emit_order dir v) rest;
  inv_heap_rep :
    ∀ i w rest, iter !! i = Some (w :: rest) → ∃ v, (v, i) ∈ heap;
  inv_heap_nodup : NoDup heap.*2
}.

(** ** Invariants of the sequencer *)

Definition runs_sorted (s : Sequencer) : Prop :=
  Forall run_sorted (runs_ s) ∧ Forall run_sorted (ready_ s).

(** The active runs are kept by decreasing last key, and none is empty. *)
Definition runs_ordered (runs : list SortedRun) : Prop :=
  StronglySorted (λ x y, top_element_less x y = false) runs ∧
  Forall (λ r, r ≠ []) runs.

Record seq_inv (s : Sequencer) : Prop := mkInv {
  inv_window : 0 < window_size_ s;
  inv_checkpoint : 0 <= checkpoint_ s;
  inv_sorted : runs_sorted s;
  inv_ordered : runs_ordered (runs_ s);
  inv_ready : progress_flag_ s = false → ready_ s = [];
  inv_before : ready_before_checkpoint s
}.

(** ** Further notions for the sequencer *)

(** The state [add] leaves when it inserts [v] into the runs of [s1],
    the state after the window check. *)
Definition inserted (v : TimeSeriesValue) (s1 : Sequencer) : Sequencer :=
  set_runs (insert_value v (add_key v s1) (runs_ s1)) (set_key (add_key v s1) s1).

(** No value the sequencer holds is newer than [top_timestamp_]. *)
Definition below_top (s : Sequencer) : Prop :=
  ∀ v, v ∈ contents s → get_ts v <= top_timestamp_ s.

(** The last keys of the active runs decrease strictly from one run to
    the next. *)
Definition tops_decrease (runs : list SortedRun) : Prop :=
  StronglySorted (λ x y, top_element_more x y = true) runs.

(** ** Further notions for the merge *)

(** What the loop of [kway_merge] keeps whatever the runs hold: the heap
    has an item of every run that is not yet read to its end, and one
    item of a run at most. *)
Record heap_covers (iter : list (list TimeSeriesValue)) (heap : Heap) : Prop :=
  mkCovers {
    covers_rep : ∀ i w rest, iter !! i = Some (w :: rest) → ∃ v, (v, i) ∈ heap;
    covers_nodup : NoDup heap.*2
  }.

(** A value with the index of its run. *)
Definition tag (i : nat) (v : TimeSeriesValue) : HeapItem := (v, i).

(** What a cursor is sent for a list of heap items. *)
Definition puts (items : list HeapItem) : list CursorEvent :=
  (λ it : HeapItem, Put (value it.1)) <$> items.

(** ** The stripe locks of the runs *)

(** How a call of [lock_run] or [lock_all_runs] stands after a number of
    rounds of the spin loop. *)
Inductive LockResult :=
  | Locked (flags : list bool) (slept : list Z)
      (* returned; [slept] lists the [sleep_for] calls in milliseconds *)
  | Waiting (flags : list bool) (busy_wait_counter backoff_len : Z) (slept : list Z)
      (* still in the loop, with these locals *)
  | OutOfRange.
      (* [run_lock_flags_] indexed past its end: undefined *)

Section RunLocks.

(** The constants of [sequencer.h], which is missing. *)
Variable RUN_LOCK_FLAGS_SIZE RUN_LOCK_FLAGS_MASK : Z.
Variable RUN_LOCK_BUSY_COUNT RUN_LOCK_MAX_BACKOFF : Z.

(** [run_lock_flags_] after the constructor: [RUN_LOCK_FLAGS_SIZE] flags,
    all clear. A flag is [true] when set. *)
Definition new_run_lock_flags : list bool :=
  replicate (Z.to_nat RUN_LOCK_FLAGS_SIZE) false.

(** [RUN_LOCK_FLAGS_MASK & ix]. *)
Definition stripe (ix : Z) : Z := Z.land RUN_LOCK_FLAGS_MASK ix.

(** [run_lock_flags_[slot].test_and_set()]: the old value, and the flags
    with the slot set. *)
Definition test_and_set (slot : Z) (flags : list bool) : option (bool * list bool) :=
  if slot <? 0 then None
  else
    match flags !! Z.to_nat slot with
    | None => None
    | Some is_busy => Some (is_busy, <[Z.to_nat slot := true]> flags)
    end.

(** The loop of [lock_run] as one thread runs it while no other thread
    touches the flags; [fuel] bounds the rounds looked at. *)
Fixpoint lock_run_loop (fuel : nat) (ix : Z) (flags : list bool)
    (busy_wait_counter backoff_len : Z) (slept : list Z) : LockResult :=
  match fuel with
  | O => Waiting flags busy_wait_counter backoff_len slept
  | S fuel' =>
    match test_and_set (stripe ix) flags with
    | None => OutOfRange
    | Some (is_busy, flags') =>
      if negb is_busy then Locked flags' slept
      else if negb (busy_wait_counter =? 0) then
        lock_run_loop fuel' ix flags' (busy_wait_counter - 1) backoff_len slept
      else
        lock_run_loop fuel' ix flags' busy_wait_counter
          (if backoff_len <? RUN_LOCK_MAX_BACKOFF then backoff_len + 1
           else backoff_len)
          (slept ++ [backoff_len])
    end
  end.

Definition lock_run (fuel : nat) (ix : Z) (flags : list bool) : LockResult :=
  lock_run_loop fuel ix flags RUN_LOCK_BUSY_COUNT 0 [].

(** [unlock_run]; [None] when the index is past the end. *)
Definition unlock_run (ix : Z) (flags : list bool) : option (list bool) :=
  if stripe ix <? 0 then None
  else
    match flags !! Z.to_nat (stripe ix) with
    | None => None
    | Some _ => Some (<[Z.to_nat (stripe ix) := false]> flags)
    end.

(** [count] more iterations of the loop of [lock_all_runs], from [i];
    every call of [lock_run] is looked at for [fuel] rounds. *)
Fixpoint lock_runs_from (fuel : nat) (count : nat) (i : Z) (flags : list bool)
    (slept : list Z) : LockResult :=
  match count with
  | O => Locked flags slept
  | S count' =>
    match lock_run fuel i flags with
    | Locked flags' slept' =>
      lock_runs_from fuel count' (i + 1) flags' (slept ++ slept')
    | Waiting flags' counter backoff slept' =>
      Waiting flags' counter backoff (slept ++ slept')
    | OutOfRange => OutOfRange
    end
  end.

Definition lock_all_runs (fuel : nat) (flags : list bool) : LockResult :=
  lock_runs_from fuel (Z.to_nat RUN_LOCK_FLAGS_SIZE) 0 flags [].

Fixpoint unlock_runs_from (count : nat) (i : Z) (flags : list bool)
    : option (list bool) :=
  match count with
  | O => Some flags
  | S count' =>
    match unlock_run i flags with
    | Some flags' => unlock_runs_from count' (i + 1) flags'
    | None => None
    end
  end.

Definition unlock_all_runs (flags : list bool) : option (list bool) :=
  unlock_runs_from (Z.to_nat RUN_LOCK_FLAGS_SIZE) 0 flags.

(** The locals of [lock_run] after [rounds] failed attempts. *)
Definition counter_after (rounds : Z) : Z := Z.max 0 (RUN_LOCK_BUSY_COUNT - rounds).

Definition sleeps_after (rounds : Z) : list Z :=
  (λ j, Z.min j RUN_LOCK_MAX_BACKOFF) <$> seqZ 0 (rounds - RUN_LOCK_BUSY_COUNT).

Definition backoff_after (rounds : Z) : Z :=
  Z.min (Z.max 0 (rounds - RUN_LOCK_BUSY_COUNT)) RUN_LOCK_MAX_BACKOFF.

End RunLocks.

(** ** The mocks of the tests *)

(** [ConsumerMock] of [test_protocolparser.cpp]: four vectors that grow
    at their ends. *)
Record ConsumerMock := mkConsumerMock {
  param_ : list Z;
  ts_ : list Z;
  data_ : list (list Byte);
  bulk_ : list (list Byte)
}.

Definition new_consumer : ConsumerMock := mkConsumerMock [] [] [] [].

(** One call of [ConsumerMock::write_double] or
    [ConsumerMock::add_bulk_string]; the latter keeps
    [std::string(buffer, buffer + n)]. *)
Definition consume (m : ConsumerMock) (call : ConsumerCall) : ConsumerMock :=
  match call with
  | write_double param ts data =>
    mkConsumerMock (param_ m ++ [param]) (ts_ m ++ [ts]) (data_ m ++ [data]) (bulk_ m)
  | add_bulk_string buffer n =>
    mkConsumerMock (param_ m) (ts_ m) (data_ m) (bulk_ m ++ [take n buffer])
  end.

(** The records and the bulk strings among some calls, in call order. *)
Definition doubles (calls : list ConsumerCall) : list (Z * Z * list Byte) :=
  omap (λ call, match call with
                | write_double param ts data => Some (param, ts, data)
                | add_bulk_string _ _ => None
                end) calls.

Definition bulks (calls : list ConsumerCall) : list (list Byte) :=
  omap (λ call, match call with
                | write_double _ _ _ => None
                | add_bulk_string buffer n => Some (take n buffer)
                end) calls.

(** [DbMock] of [perf_tcp_server.cpp]. *)
Module DbMock.

(** The member [nrec], a [size_t]; the timer and the logger hold nothing
    that the control flow reads. *)
Record t := mk { nrec : Z }.

Definition N : Z := 1000000.

(** [DbMock::write_double], whose arguments are not read: the status,
    whether the throughput is logged and the timer restarted, and the
    new state. *)
Definition write_double (m : t) : Status * bool * t :=
  (AKU_SUCCESS, bool_decide (nrec m mod N = 0), mk ((nrec m + 1) mod 2 ^ 64)).

(** What [n] calls in a row return and log. *)
Fixpoint calls (n : nat) (m : t) : list (Status * bool) :=
  match n with
  | O => []
  | S n' => let '(status, logged, m') := write_double m in
            (status, logged) :: calls n' m'
  end.

End DbMock.

(** ** Inputs of the scenarios *)

(** A value with parameter id 1 whose offset is its timestamp. *)
Definition at_ts (ts : TimeStamp) : TimeSeriesValue := mkValue (ts, 1) ts.

(** Scenario 3: one run with timestamps 5, 8, 12, 18 under a window of
    10, reached by adding them in this order (the checkpoint that 12
    triggers finds nothing to move). *)
Definition one_run : Sequencer :=
  mkSequencer 10 18 1 [[at_ts 5; at_ts 8; at_ts 12; at_ts 18]] [] [at_ts 18] false.

(** The same sequencer once [ts = 21] has been added: a checkpoint is
    staged, the progress lock is held by the client. *)
Definition staged : Sequencer :=
  mkSequencer 10 21 2 [[at_ts 12; at_ts 18; at_ts 21]] [[at_ts 5; at_ts 8]]
              [at_ts 21] true.

(** Scenario 2: a window of 10 and a top timestamp of 100. *)
Definition top_100 : Sequencer :=
  mkSequencer 10 100 10 [[at_ts 100]] [] [at_ts 100] false.

(** A fresh sequencer with a window of 10, and the same after
    [ts = 5] has been added. *)
Definition fresh : Sequencer :=
  mkSequencer 10 0 0 [] [] [mkValue (0, 0) 0] false.

Definition five : Sequencer :=
  mkSequencer 10 5 0 [[at_ts 5]] [] [at_ts 5] false.

Definition five_eight : Sequencer :=
  mkSequencer 10 8 0 [[at_ts 5; at_ts 8]] [] [at_ts 8] false.

Definition five_closed : Sequencer :=
  mkSequencer 10 5 0 [] [[at_ts 5]] [at_ts 5] true.

(** A fresh sequencer after a value with timestamp 0 has been added. *)
Definition zero : Sequencer :=
  mkSequencer 10 0 0 [[at_ts 0]] [] [at_ts 0] false.

(** Scenario 1: three values, the third in the next window. *)
Definition basic_ingest : list Op :=
  [OpAdd (mkValue (1, 1) 1); OpAdd (mkValue (2, 2) 2); OpAdd (mkValue (15, 1) 3);
   OpMerge].

(** Scenario 6: two runs. *)
Definition run_A : SortedRun := [mkValue (1, 1) 1; mkValue (3, 3) 3].
Definition run_B : SortedRun := [mkValue (2, 2) 2; mkValue (4, 4) 4].

(** A query for the timestamps strictly between 5 and 18, newest first. *)
Definition between_5_18 : SearchQuery :=
  mkQuery 5 18 (λ _, MATCH) AKU_CURSOR_DIR_BACKWARD.

(** Three runs of which only the second holds values, and these not in
    key order. *)
Definition lone_run : list SortedRun := [[]; [at_ts 8; at_ts 5]; []].

(** * Properties *)

(** ** The key order *)

Lemma key_less_spec a b :
  key_less a b = true ↔ a.1 < b.1 ∨ (a.1 = b.1 ∧ a.2 < b.2).
Proof.
  unfold key_less.
  rewrite orb_true_iff, andb_true_iff, negb_true_iff, !Z.ltb_lt, Z.ltb_ge. lia.
Qed.

Lemma value_less_spec a b :
  value_less a b = true ↔
  get_ts a < get_ts b ∨ (get_ts a = get_ts b ∧ get_id a < get_id b).
Proof. apply key_less_spec. Qed.

Lemma key_le_spec a b :
  key_le a b ↔
  get_ts a < get_ts b ∨ (get_ts a = get_ts b ∧ get_id a <= get_id b).
Proof.
  unfold key_le. rewrite <- not_true_iff_false, value_less_spec. lia.
Qed.

Global Instance key_le_refl : Reflexive key_le.
Proof. intros a. apply key_le_spec. lia. Qed.

Global Instance key_le_trans : Transitive key_le.
Proof. intros a b c. rewrite !key_le_spec. lia. Qed.

Global Instance key_le_total : Total key_le.
Proof. intros a b. rewrite !key_le_spec. lia. Qed.

Lemma value_less_le a b : value_less a b = true → key_le a b.
Proof. rewrite value_less_spec, key_le_spec. lia. Qed.

Lemma value_less_le_trans a b c :
  value_less a b = true → key_le b c → value_less a c = true.
Proof. rewrite !value_less_spec, key_le_spec. lia. Qed.

Lemma key_le_less_trans a b c :
  key_le a b → value_less b c = true → value_less a c = true.
Proof. rewrite !value_less_spec, key_le_spec. lia. Qed.

Lemma not_value_less a b : value_less a b = false ↔ key_le b a.
Proof. done. Qed.

Lemma run_sorted_strongly r : run_sorted r ↔ StronglySorted key_le r.
Proof.
  split; [apply Sorted_StronglySorted, _ | apply StronglySorted_Sorted].
Qed.

Lemma run_sorted_app r1 r2 :
  run_sorted (r1 ++ r2) → run_sorted r1 ∧ run_sorted r2.
Proof.
  rewrite !run_sorted_strongly, StronglySorted_app. tauto.
Qed.

Lemma run_sorted_take n r : run_sorted r → run_sorted (take n r).
Proof. rewrite <- (take_drop n r) at 1. intros Hs. apply run_sorted_app in Hs. tauto. Qed.

Lemma run_sorted_drop n r : run_sorted r → run_sorted (drop n r).
Proof. rewrite <- (take_drop n r) at 1. intros Hs. apply run_sorted_app in Hs. tauto. Qed.

(** Appending a key that is not below the last one keeps a run sorted. *)
Lemma run_sorted_snoc r v :
  run_sorted r → (∀ t, back r = Some t → key_le t v) → run_sorted (r ++ [v]).
Proof.
  intros Hs Ht. apply Sorted_snoc; [done|].
  destruct (back r) as [t|] eqn:Hb; unfold back in Hb.
  - apply last_Some in Hb as [r' ->]. constructor. by apply Ht.
  - apply last_None in Hb as ->. constructor.
Qed.

Lemma run_sorted_filter (P : TimeSeriesValue → bool) r :
  run_sorted r → run_sorted (List.filter P r).
Proof.
  rewrite !run_sorted_strongly. induction 1 as [|x l Hs IH Hx]; simpl; [constructor|].
  destruct (P x); [|done]. constructor; [done|].
  rewrite Forall_forall in *. intros y Hy%list_elem_of_In%filter_In.
  apply Hx, list_elem_of_In, Hy.
Qed.

(** ** [lower_bound] *)

Section lower_bound.
Context {A : Type} (less : A → bool) (l : list A).

(** Whatever the order of [l], the position returned is the end of the
    range or one whose element is not [less]. *)
Lemma lower_bound_loop_stop fuel first count :
  (count ≤ fuel)%nat → (first + count ≤ length l)%nat →
  (∀ x, l !! (first + count)%nat = Some x → less x = false) →
  (first ≤ lower_bound_loop less l fuel first count ≤ first + count)%nat ∧
  (∀ x, l !! lower_bound_loop less l fuel first count = Some x → less x = false).
Proof.
  revert first count.
  induction fuel as [|fuel IH]; intros first count Hf Hlen Hend; cbn [lower_bound_loop].
  { assert (count = 0%nat) as -> by lia. rewrite Nat.add_0_r in Hend. split; [lia|done]. }
  destruct (0 <? count)%nat eqn:Hc.
  2:{ apply Nat.ltb_ge in Hc. assert (count = 0%nat) as -> by lia.
      rewrite Nat.add_0_r in Hend. split; [lia|done]. }
  apply Nat.ltb_lt in Hc.
  assert (count / 2 < count)%nat as Hstep by (apply Nat.div_lt; lia).
  generalize dependent (count / 2)%nat. intros step Hstep.
  destruct (l !! (first + step)%nat) as [x|] eqn:Hx.
  2:{ apply lookup_ge_None in Hx. lia. }
  destruct (less x) eqn:Hlx.
  - destruct (IH (S (first + step)) (count - (step + 1))%nat) as [Hr Hnl];
      [lia | lia | | split; [lia | done]].
    replace (S (first + step) + (count - (step + 1)))%nat
      with (first + count)%nat by lia. done.
  - destruct (IH first step) as [Hr Hnl]; [lia | lia | | split; [lia | done]].
    intros y Hy. congruence.
Qed.

Lemma lower_bound_stop :
  (lower_bound less l ≤ length l)%nat ∧
  ∀ x, l !! lower_bound less l = Some x → less x = false.
Proof.
  destruct (lower_bound_loop_stop (length l) 0 (length l)) as [Hr Hnl]; [lia | lia | |].
  - intros x Hx. apply lookup_lt_Some in Hx. simpl in Hx. lia.
  - split; [unfold lower_bound; lia | done].
Qed.

(** [first_not_less] by its properties. *)
Lemma first_not_less_unique n :
  (n ≤ length l)%nat →
  (∀ i x, (i < n)%nat → l !! i = Some x → less x = true) →
  (∀ x, l !! n = Some x → less x = false) →
  first_not_less less l = n.
Proof.
  revert n. induction l as [|y l' IH]; intros n Hn Hlt Hge; simpl in *.
  { lia. }
  destruct n as [|n].
  - by rewrite (Hge y eq_refl).
  - rewrite (Hlt 0%nat y) by (done || lia). f_equal. apply IH; [lia | |done].
    intros i x Hi Hx. apply (Hlt (S i)); [lia | done].
Qed.

Lemma first_not_less_bound : (first_not_less less l ≤ length l)%nat.
Proof. induction l as [|y l' IH]; simpl; [lia|]. destruct (less y); simpl; lia. Qed.

Lemma first_not_less_before i x :
  (i < first_not_less less l)%nat → l !! i = Some x → less x = true.
Proof.
  revert i. induction l as [|y l' IH]; intros i; simpl; [lia|].
  destruct (less y) eqn:Hy; [|lia].
  destruct i as [|i]; simpl; [naive_solver|]. intros. apply (IH i); [lia|done].
Qed.

Lemma first_not_less_at x :
  l !! first_not_less less l = Some x → less x = false.
Proof.
  induction l as [|y l' IH]; simpl; [done|].
  destruct (less y) eqn:Hy; simpl; [done | naive_solver].
Qed.

Lemma lower_bound_loop_partitioned fuel first count :
  partitioned less l →
  (count ≤ fuel)%nat → (first + count ≤ length l)%nat →
  (∀ i x, (i < first)%nat → l !! i = Some x → less x = true) →
  (∀ x, l !! (first + count)%nat = Some x → less x = false) →
  lower_bound_loop less l fuel first count = first_not_less less l.
Proof.
  intros Hp. revert first count.
  induction fuel as [|fuel IH]; intros first count Hf Hlen Hlt Hend;
    cbn [lower_bound_loop].
  { assert (count = 0%nat) as -> by lia. rewrite Nat.add_0_r in *.
    symmetry. by apply first_not_less_unique; [lia | |]. }
  destruct (0 <? count)%nat eqn:Hc.
  2:{ apply Nat.ltb_ge in Hc. assert (count = 0%nat) as -> by lia.
      rewrite Nat.add_0_r in *. symmetry. by apply first_not_less_unique; [lia | |]. }
  apply Nat.ltb_lt in Hc.
  assert (count / 2 < count)%nat as Hstep by (apply Nat.div_lt; lia).
  generalize dependent (count / 2)%nat. intros step Hstep.
  destruct (l !! (first + step)%nat) as [x|] eqn:Hx.
  2:{ apply lookup_ge_None in Hx. lia. }
  destruct (less x) eqn:Hlx.
  - apply IH; [lia | lia | |].
    + intros i y Hi Hy. apply (Hp i (first + step)%nat y x); [lia|done..].
    + replace (S (first + step) + (count - (step + 1)))%nat
        with (first + count)%nat by lia. done.
  - apply IH; [lia | lia | done |]. intros y Hy. congruence.
Qed.

(** On a partitioned range the binary search finds the first element
    that is not [less]. *)
Lemma lower_bound_partitioned :
  partitioned less l → lower_bound less l = first_not_less less l.
Proof.
  intros Hp. apply lower_bound_loop_partitioned; [done | lia | lia | lia |].
  intros x Hx%lookup_lt_Some. simpl in Hx. lia.
Qed.
End lower_bound.

(** ** Splitting a run at a checkpoint *)

Lemma strongly_sorted_lookup {A} (R : relation A) `{!Reflexive R} l i j x y :
  StronglySorted R l → (i ≤ j)%nat → l !! i = Some x → l !! j = Some y → R x y.
Proof.
  intros Hs. revert i j. induction Hs as [|z l Hs IH Hz]; intros i j Hij Hi Hj; [done|].
  destruct i as [|i], j as [|j]; simpl in *; simplify_eq; try lia.
  - reflexivity.
  - eapply Forall_lookup_1; eauto.
  - apply (IH i j); [lia | done..].
Qed.

Lemma sorted_run_partitioned target run :
  run_sorted run → partitioned (λ x, value_less x target) run.
Proof.
  intros Hs%run_sorted_strongly i j x y Hij Hi Hj Hy.
  eapply key_le_less_trans; [|done].
  eapply strongly_sorted_lookup; eauto. apply _.
Qed.

(** The position the specification describes is the first one that is
    not below [target]. *)
Lemma spec_split_position_first target run :
  spec_split_position target run = first_not_less (λ x, value_less x target) run.
Proof.
  unfold spec_split_position. induction run as [|x run IH]; csimpl; [done|].
  unfold key_le at 1. case_decide as Hx.
  - by rewrite Hx.
  - apply not_false_is_true in Hx. rewrite Hx.
    rewrite <- IH. by destruct (list_find _ run) as [[]|].
Qed.

(** On a sorted run [lower_bound] returns that position. *)
Lemma lower_bound_split_position target run :
  run_sorted run →
  lower_bound (λ x, value_less x target) run = spec_split_position target run.
Proof.
  intros Hs. rewrite spec_split_position_first.
  by apply lower_bound_partitioned, sorted_run_partitioned.
Qed.

Lemma spec_split_position_bound target run :
  (spec_split_position target run ≤ length run)%nat.
Proof. rewrite spec_split_position_first. apply first_not_less_bound. Qed.

Lemma spec_ready_part_below target run r x :
  spec_ready_part target run = Some r → x ∈ r → value_less x target = true.
Proof.
  unfold spec_ready_part. rewrite spec_split_position_first.
  set (p := first_not_less _ run). intros Hr Hx.
  assert (x ∈ take p run) as (i & Hi & Hlt)%elem_of_take.
  { repeat case_decide; simplify_eq; [|done].
    by rewrite take_ge by lia. }
  by apply (first_not_less_before (λ x, value_less x target) run i).
Qed.

Lemma spec_parts_concat target run :
  default [] (spec_ready_part target run) ++ default [] (spec_active_part target run)
  = run.
Proof.
  unfold spec_ready_part, spec_active_part.
  repeat case_decide; simpl; rewrite ?app_nil_r; auto using take_drop.
Qed.

Lemma spec_ready_part_sorted target run r :
  run_sorted run → spec_ready_part target run = Some r → run_sorted r.
Proof.
  unfold spec_ready_part. intros Hs Hr.
  repeat case_decide; simplify_eq; auto using run_sorted_take.
Qed.

Lemma spec_active_part_sorted target run r :
  run_sorted run → spec_active_part target run = Some r → run_sorted r.
Proof.
  unfold spec_active_part. intros Hs Hr.
  repeat case_decide; simplify_eq; auto using run_sorted_drop.
Qed.

(** The part that stays active ends where the run ended, and is not
    empty unless the run was. *)
Lemma spec_active_part_back target run r :
  spec_active_part target run = Some r → back r = back run ∧ (run ≠ [] → r ≠ []).
Proof.
  unfold spec_active_part. pose proof (spec_split_position_bound target run) as Hb.
  set (p := spec_split_position target run) in *. intros Hr.
  repeat case_decide; simplify_eq; [done|].
  assert (drop p run ≠ []) as Hne.
  { intros Hd%(f_equal length). rewrite length_drop in Hd. simpl in Hd. lia. }
  split; [|done]. unfold back.
  rewrite <- (take_drop p run) at 2. rewrite last_app.
  destruct (list.last (drop p run)) eqn:Hl; [done|]. by apply last_None in Hl.
Qed.

(** ** The operations of the sequencer *)

Section SequencerProperties.

Variable AKU_LIMITS_MAX_ID : ParamId.

Lemma checkpoint_step_spec old_top acc run :
  run_sorted run →
  checkpoint_step AKU_LIMITS_MAX_ID old_top acc run =
  (acc.1 ++ option_list (spec_active_part (mkValue (old_top, AKU_LIMITS_MAX_ID) 0) run),
   acc.2 ++ option_list (spec_ready_part (mkValue (old_top, AKU_LIMITS_MAX_ID) 0) run)).
Proof.
  intros Hs. unfold checkpoint_step, spec_active_part, spec_ready_part.
  rewrite (lower_bound_split_position _ run Hs).
  generalize (spec_split_position (mkValue (old_top, AKU_LIMITS_MAX_ID) 0) run).
  intros p.
  destruct (Nat.eqb_spec p 0), (Nat.eqb_spec p (length run));
    repeat case_decide; simpl; rewrite ?app_nil_r; done.
Qed.

Lemma foldl_checkpoint_step old_top runs acc :
  Forall run_sorted runs →
  foldl (checkpoint_step AKU_LIMITS_MAX_ID old_top) acc runs =
  (acc.1 ++ omap (spec_active_part (mkValue (old_top, AKU_LIMITS_MAX_ID) 0)) runs,
   acc.2 ++ omap (spec_ready_part (mkValue (old_top, AKU_LIMITS_MAX_ID) 0)) runs).
Proof.
  intros Hs. revert acc.
  induction Hs as [|run runs Hrun Hruns IH]; intros [a b]; simpl.
  { by rewrite !app_nil_r. }
  rewrite checkpoint_step_spec by done. rewrite IH. simpl.
  destruct (spec_active_part _ run), (spec_ready_part _ run);
    simpl; by rewrite <- ?app_assoc, ?app_nil_r.
Qed.

(** A checkpoint that gets the progress lock splits every run as the
    specification says. *)
Lemma make_checkpoint_spec new_checkpoint s :
  progress_flag_ s = false → ready_ s = [] → Forall run_sorted (runs_ s) →
  make_checkpoint_ AKU_LIMITS_MAX_ID new_checkpoint s =
  Some (mkSequencer (window_size_ s) (top_timestamp_ s) new_checkpoint
          (omap (spec_active_part (checkpoint_target AKU_LIMITS_MAX_ID s)) (runs_ s))
          (omap (spec_ready_part (checkpoint_target AKU_LIMITS_MAX_ID s)) (runs_ s))
          (seq_key_ s) true, true).
Proof.
  intros Hp Hr Hs. unfold make_checkpoint_. rewrite Hp, Hr.
  by rewrite foldl_checkpoint_step by done.
Qed.

Lemma make_checkpoint_busy new_checkpoint s :
  progress_flag_ s = true →
  make_checkpoint_ AKU_LIMITS_MAX_ID new_checkpoint s = Some (s, false).
Proof. intros Hp. unfold make_checkpoint_. by rewrite Hp. Qed.

(** *** The insertion of [add] *)

Lemma insert_position_bound key runs :
  (insert_position key runs ≤ length runs)%nat.
Proof. apply lower_bound_stop. Qed.

(** The run chosen does not end above the new value. *)
Lemma insert_position_top v key runs r t :
  back key = Some v →
  runs !! insert_position key runs = Some r → back r = Some t → key_le t v.
Proof.
  intros Hk Hr Ht.
  apply (proj2 (lower_bound_stop (λ r, top_element_more r key) runs)) in Hr.
  unfold top_element_more, top_element_less in Hr. by rewrite Hk, Ht in Hr.
Qed.

Lemma alter_middle {A} (f : A → A) (l : list A) i x :
  l !! i = Some x → alter f i l = take i l ++ f x :: drop (S i) l.
Proof.
  revert i. induction l as [|y l IH]; intros [|i] Hi; simplify_eq/=; [done|].
  f_equal. by apply IH.
Qed.

Lemma insert_value_cases v key runs :
  (insert_position key runs = length runs ∧
   insert_value v key runs = runs ++ [[v]]) ∨
  (∃ r, runs !! insert_position key runs = Some r ∧
        insert_value v key runs =
        take (insert_position key runs) runs ++ (r ++ [v]) ::
        drop (S (insert_position key runs)) runs).
Proof.
  unfold insert_value. fold (insert_position key runs).
  pose proof (insert_position_bound key runs) as Hb.
  destruct (Nat.eqb_spec (insert_position key runs) (length runs)) as [He|Hne].
  { by left. }
  right. destruct (lookup_lt_is_Some_2 runs (insert_position key runs)) as [r Hr]; [lia|].
  exists r. split; [done|]. by apply (alter_middle (λ r, r ++ [v])).
Qed.

Lemma insert_value_concat v key runs :
  concat (insert_value v key runs) ≡ₚ v :: concat runs.
Proof.
  destruct (insert_value_cases v key runs) as [[_ ->]|(r & Hr & ->)].
  { rewrite concat_app. simpl. by rewrite <- Permutation_cons_append. }
  revert Hr. generalize (insert_position key runs). intros i Hr.
  rewrite <- (take_drop_middle runs i r Hr) at 3.
  rewrite !concat_app. simpl.
  rewrite <- (app_assoc r [v]), !(app_assoc (concat (take _ runs)) r). simpl.
  symmetry. apply Permutation_middle.
Qed.

Lemma insert_value_sorted v key runs :
  back key = Some v →
  Forall run_sorted runs → Forall run_sorted (insert_value v key runs).
Proof.
  intros Hk Hs. unfold insert_value. fold (insert_position key runs).
  destruct (insert_position key runs =? length runs)%nat.
  { apply Forall_app. split; [done|]. repeat constructor. }
  apply Forall_alter; [done|]. intros r Hr Hsr.
  apply run_sorted_snoc; [done|]. intros t Ht. by eapply insert_position_top.
Qed.

Lemma insert_value_nonempty v key runs :
  Forall (λ r, r ≠ []) runs → Forall (λ r, r ≠ []) (insert_value v key runs).
Proof.
  intros Hs. unfold insert_value.
  destruct (_ =? _)%nat.
  { apply Forall_app. split; [done|]. by repeat constructor. }
  apply Forall_alter; [done|]. intros r Hr Hne. by destruct r.
Qed.

(** *** The paths through [add] *)

Lemma add_key_back v (s : Sequencer) : back (add_key v s) = Some v.
Proof. apply last_snoc. Qed.

Lemma add_late v s :
  get_ts v < top_timestamp_ s →
  window_size_ s < top_timestamp_ s - get_ts v →
  add AKU_LIMITS_MAX_ID v s = Some (AKU_ELATE_WRITE, false, s).
Proof.
  intros Hlt Hw. unfold add, check_timestamp_.
  rewrite (proj2 (Z.ltb_lt _ _) Hlt), (proj2 (Z.ltb_lt _ _) Hw). done.
Qed.

Lemma add_in_window v s :
  get_ts v < top_timestamp_ s →
  top_timestamp_ s - get_ts v <= window_size_ s →
  add AKU_LIMITS_MAX_ID v s =
  Some (AKU_SUCCESS, false,
        set_runs (insert_value v (add_key v s) (runs_ s)) (set_key (add_key v s) s)).
Proof.
  intros Hlt Hw. unfold add, check_timestamp_.
  rewrite (proj2 (Z.ltb_lt _ _) Hlt), (proj2 (Z.ltb_ge _ _) Hw). done.
Qed.

Lemma add_same_window v s :
  top_timestamp_ s <= get_ts v →
  get_checkpoint_ s (get_ts v) <= checkpoint_ s →
  add AKU_LIMITS_MAX_ID v s =
  Some (AKU_SUCCESS, false,
        set_runs (insert_value v (add_key v s) (runs_ s))
                 (set_key (add_key v s) (set_top (get_ts v) s))).
Proof.
  intros Hge Hcp. unfold add, check_timestamp_.
  rewrite (proj2 (Z.ltb_ge _ _) Hge), (proj2 (Z.ltb_ge _ _) Hcp). done.
Qed.

Lemma add_busy v s :
  top_timestamp_ s <= get_ts v →
  checkpoint_ s < get_checkpoint_ s (get_ts v) →
  progress_flag_ s = true →
  add AKU_LIMITS_MAX_ID v s = Some (AKU_EBUSY, false, set_top (get_ts v) s).
Proof.
  intros Hge Hcp Hp. unfold add, check_timestamp_.
  rewrite (proj2 (Z.ltb_ge _ _) Hge), (proj2 (Z.ltb_lt _ _) Hcp).
  by rewrite make_checkpoint_busy.
Qed.

Lemma add_checkpoint v s :
  top_timestamp_ s <= get_ts v →
  checkpoint_ s < get_checkpoint_ s (get_ts v) →
  progress_flag_ s = false → ready_ s = [] → Forall run_sorted (runs_ s) →
  add AKU_LIMITS_MAX_ID v s =
  Some (AKU_SUCCESS, true,
        set_runs (insert_value v (add_key v s) (runs_ (after_checkpoint AKU_LIMITS_MAX_ID (get_ts v) s)))
                 (set_key (add_key v s) (after_checkpoint AKU_LIMITS_MAX_ID (get_ts v) s))).
Proof.
  intros Hge Hcp Hp Hr Hs. unfold add, check_timestamp_.
  rewrite (proj2 (Z.ltb_ge _ _) Hge), (proj2 (Z.ltb_lt _ _) Hcp).
  by rewrite make_checkpoint_spec.
Qed.

(** [add] throws only when a checkpoint is due, the progress mutex is
    free and Ready is not empty. *)
Lemma add_throws v s :
  add AKU_LIMITS_MAX_ID v s = None →
  progress_flag_ s = false ∧ ready_ s ≠ [].
Proof.
  unfold add, check_timestamp_, make_checkpoint_.
  destruct (get_ts v <? top_timestamp_ s).
  { by destruct (window_size_ s <? _). }
  destruct (checkpoint_ s <? _); [|done].
  destruct (progress_flag_ s); [done|].
  destruct (ready_ s); [|done].
  by destruct (foldl _ _ _).
Qed.

Lemma omap_ready_sorted target runs :
  Forall run_sorted runs → Forall run_sorted (omap (spec_ready_part target) runs).
Proof.
  rewrite !Forall_forall. intros Hs r (run & Hin & Hr)%list_elem_of_omap.
  eapply spec_ready_part_sorted; eauto.
Qed.

Lemma omap_active_sorted target runs :
  Forall run_sorted runs → Forall run_sorted (omap (spec_active_part target) runs).
Proof.
  rewrite !Forall_forall. intros Hs r (run & Hin & Hr)%list_elem_of_omap.
  eapply spec_active_part_sorted; eauto.
Qed.

Lemma make_checkpoint_sorted new_checkpoint s s' owns :
  runs_sorted s →
  make_checkpoint_ AKU_LIMITS_MAX_ID new_checkpoint s = Some (s', owns) →
  runs_sorted s'.
Proof.
  intros [Hr Hd] Hm. destruct (progress_flag_ s) eqn:Hp.
  { rewrite make_checkpoint_busy in Hm by done. by simplify_eq. }
  destruct (ready_ s) eqn:Hready.
  2:{ unfold make_checkpoint_ in Hm. by rewrite Hp, Hready in Hm. }
  rewrite make_checkpoint_spec in Hm by done. simplify_eq.
  split; simpl; auto using omap_ready_sorted, omap_active_sorted.
Qed.

Lemma add_sorted v s r :
  runs_sorted s → add AKU_LIMITS_MAX_ID v s = Some r → runs_sorted r.2.
Proof.
  intros Hs. unfold add, check_timestamp_.
  assert (∀ s1, runs_sorted s1 →
    runs_sorted (set_runs (insert_value v (removelast (seq_key_ s1) ++ [v]) (runs_ s1))
                          (set_key (removelast (seq_key_ s1) ++ [v]) s1))) as Hins.
  { intros s1 [H1 H2]. split; simpl; [|done].
    apply insert_value_sorted; [apply last_snoc | done]. }
  destruct (get_ts v <? top_timestamp_ s).
  { destruct (window_size_ s <? _); simpl; intros; simplify_eq; simpl; auto. }
  destruct (checkpoint_ s <? _).
  2:{ simpl. intros; simplify_eq; simpl. apply (Hins (set_top _ s)), Hs. }
  destruct (make_checkpoint_ _ _ s) as [[s' owns]|] eqn:Hm; [|done].
  apply make_checkpoint_sorted in Hm; [|done].
  destruct owns; simpl; intros; simplify_eq; simpl.
  - apply (Hins (set_top _ s')), Hm.
  - apply Hm.
Qed.

Lemma close_sorted s owns s' :
  runs_sorted s → close s = Some (owns, s') → runs_sorted s'.
Proof.
  intros [Hr Hd]. unfold close.
  destruct (progress_flag_ s); [intros; by simplify_eq|].
  destruct (ready_ s); [|done]. intros; simplify_eq. split; simpl; [constructor|done].
Qed.

Lemma merge_sorted owns s events s' :
  runs_sorted s → merge owns s = Some (events, s') → runs_sorted s'.
Proof.
  intros [Hr Hd]. unfold merge.
  destruct owns; simpl; [|intros; by simplify_eq].
  destruct (_ =? _)%nat; [intros; by simplify_eq|].
  destruct (kway_merge _ _); [|done]. intros; simplify_eq. split; simpl; [done|constructor].
Qed.

(** C8: every operation keeps every run, active or in Ready, sorted by
    its keys: [add], the checkpoint transition [make_checkpoint_],
    [close] and [merge] take a state whose runs all satisfy
    [r[i].key <= r[i+1].key] to a state whose runs do; and the run [add]
    picks with its lower-bound search ends with a key that is <= the key
    it appends. *)
Theorem operations_keep_runs_sorted s :
  runs_sorted s →
  (∀ v r, add AKU_LIMITS_MAX_ID v s = Some r → runs_sorted r.2) ∧
  (∀ new_checkpoint s' owns,
     make_checkpoint_ AKU_LIMITS_MAX_ID new_checkpoint s = Some (s', owns) →
     runs_sorted s') ∧
  (∀ owns s', close s = Some (owns, s') → runs_sorted s') ∧
  (∀ owns events s', merge owns s = Some (events, s') → runs_sorted s') ∧
  (∀ v run last,
     runs_ s !! insert_position (add_key v s) (runs_ s) = Some run →
     back run = Some last → key_le last v).
Proof.
  intros Hs. split_and!.
  - intros v r. by apply add_sorted.
  - intros cp s' owns. by apply make_checkpoint_sorted.
  - intros owns s'. by apply close_sorted.
  - intros owns events s'. by apply merge_sorted.
  - intros v run t. apply insert_position_top, add_key_back.
Qed.

(** C2: an [add] of a value older than [top_timestamp_]. When it lags
    by more than the window, [add] returns [AKU_ELATE_WRITE] and the
    sequencer is left exactly as it was. Otherwise [add] returns
    [AKU_SUCCESS], the value is inserted into the run set, and
    [top_timestamp_] (as well as [checkpoint_] and Ready) stays as it
    was. *)
Theorem add_below_top v s :
  get_ts v < top_timestamp_ s →
  (window_size_ s < top_timestamp_ s - get_ts v →
   add AKU_LIMITS_MAX_ID v s = Some (AKU_ELATE_WRITE, false, s)) ∧
  (top_timestamp_ s - get_ts v <= window_size_ s →
   ∃ s', add AKU_LIMITS_MAX_ID v s = Some (AKU_SUCCESS, false, s') ∧
         top_timestamp_ s' = top_timestamp_ s ∧
         checkpoint_ s' = checkpoint_ s ∧
         ready_ s' = ready_ s ∧
         runs_ s' = insert_value v (add_key v s) (runs_ s) ∧
         concat (runs_ s') ≡ₚ v :: concat (runs_ s)).
Proof.
  intros Hlt. split; intros Hw.
  - by apply add_late.
  - eexists. split; [by apply add_in_window|]. simpl.
    split_and!; try done. apply insert_value_concat.
Qed.

(** C10: when [add] of a value with [ts >= top_timestamp_] returns
    [AKU_EBUSY], a checkpoint was due while the progress mutex was held;
    the value is in no run, the returned lock owns nothing, the runs,
    Ready and [checkpoint_] are as before, and [top_timestamp_] is now
    the timestamp of the rejected value. *)
Theorem add_busy_moves_top v s owns s' :
  top_timestamp_ s <= get_ts v →
  add AKU_LIMITS_MAX_ID v s = Some (AKU_EBUSY, owns, s') →
  (checkpoint_ s < get_checkpoint_ s (get_ts v) ∧ progress_flag_ s = true) ∧
  owns = false ∧
  runs_ s' = runs_ s ∧ ready_ s' = ready_ s ∧ checkpoint_ s' = checkpoint_ s ∧
  top_timestamp_ s' = get_ts v ∧
  s' = set_top (get_ts v) s.
Proof.
  intros Hge. unfold add, check_timestamp_.
  rewrite (proj2 (Z.ltb_ge _ _) Hge).
  destruct (Z.ltb_spec (checkpoint_ s) (get_checkpoint_ s (get_ts v))) as [Hcp|Hcp];
    [|simpl; intros; simplify_eq].
  destruct (progress_flag_ s) eqn:Hp.
  - rewrite make_checkpoint_busy by done. simpl. intros; by simplify_eq.
  - unfold make_checkpoint_. rewrite Hp.
    destruct (ready_ s); [|done].
    destruct (foldl _ _ _). simpl. intros; simplify_eq.
Qed.

(** C1: a checkpoint transition. When [add] of a value with
    [ts >= top_timestamp_] finds a checkpoint id above [checkpoint_] and
    gets the progress lock, then with [old_top = checkpoint_ *
    window_size] every active run is cut at its first element with key
    >= ([old_top], [AKU_LIMITS_MAX_ID]): a run cut at its beginning stays
    active as it is, a run cut at its end moves to Ready as a whole, any
    other run leaves its prefix in Ready and its suffix active. The new
    value is then inserted into the runs that stayed active. ([old_top]
    is the 64-bit product, which is [checkpoint_ * window_size] whenever
    that fits 64 bits.) *)
Theorem checkpoint_splits_runs v s :
  Forall run_sorted (runs_ s) → progress_flag_ s = false → ready_ s = [] →
  top_timestamp_ s <= get_ts v →
  checkpoint_ s < get_checkpoint_ s (get_ts v) →
  ∃ s', add AKU_LIMITS_MAX_ID v s = Some (AKU_SUCCESS, true, s') ∧
        checkpoint_ s' = get_checkpoint_ s (get_ts v) ∧
        ready_ s' =
          omap (spec_ready_part (checkpoint_target AKU_LIMITS_MAX_ID s)) (runs_ s) ∧
        runs_ s' =
          insert_value v (add_key v s)
            (omap (spec_active_part (checkpoint_target AKU_LIMITS_MAX_ID s)) (runs_ s)) ∧
        (0 <= checkpoint_ s * window_size_ s < 2 ^ 64 →
         checkpoint_target AKU_LIMITS_MAX_ID s =
         mkValue (checkpoint_ s * window_size_ s, AKU_LIMITS_MAX_ID) 0).
Proof.
  intros Hs Hp Hr Hge Hcp. eexists. split; [by apply add_checkpoint|].
  split_and!; [done..|]. intros Hfit.
  unfold checkpoint_target, get_timestamp_. by rewrite Z.mod_small.
Qed.

(** *** The order of the active runs *)

Lemma top_element_less_irrefl x : top_element_less x x = false.
Proof.
  unfold top_element_less. destruct (back x) as [a|]; [|done].
  apply (key_le_refl a).
Qed.

Global Instance top_element_less_refl :
  Reflexive (λ x y, top_element_less x y = false).
Proof. intros x. apply top_element_less_irrefl. Qed.

Lemma top_element_less_back x x' y y' :
  back x' = back x → back y' = back y →
  top_element_less x' y' = top_element_less x y.
Proof. unfold top_element_less. by intros -> ->. Qed.

(** Ordered runs are partitioned for the search of [add]. *)
Lemma ordered_runs_partitioned key runs :
  runs_ordered runs → partitioned (λ r, top_element_more r key) runs.
Proof.
  intros [Hs Hne] i j x y Hij Hi Hj.
  assert (top_element_less x y = false) as Hxy.
  { eapply (strongly_sorted_lookup (λ x y, top_element_less x y = false)); eauto. }
  pose proof (Forall_lookup_1 _ _ _ _ Hne Hi) as Hx.
  unfold top_element_more, top_element_less in *.
  destruct (back key) as [v|]; [|done].
  destruct (back y) as [b|]; [|done].
  destruct (back x) as [a|] eqn:Ha; [|by apply last_None in Ha]. intros Hvb.
  eapply value_less_le_trans; eauto.
Qed.

Lemma insert_position_first key runs :
  runs_ordered runs →
  insert_position key runs = first_not_less (λ r, top_element_more r key) runs.
Proof. intros Ho. by apply lower_bound_partitioned, ordered_runs_partitioned. Qed.

(** Every run before the chosen position ends above the new value. *)
Lemma insert_position_before v key runs j r t :
  runs_ordered runs → back key = Some v →
  (j < insert_position key runs)%nat → runs !! j = Some r → back r = Some t →
  value_less v t = true.
Proof.
  intros Ho Hk Hj Hr Ht. rewrite insert_position_first in Hj by done.
  pose proof (first_not_less_before _ _ _ _ Hj Hr) as Hless.
  unfold top_element_more, top_element_less in Hless. by rewrite Hk, Ht in Hless.
Qed.

(** Every run from the chosen position on ends at or below it. *)
Lemma insert_position_after v key runs j r t :
  runs_ordered runs → back key = Some v →
  (insert_position key runs ≤ j)%nat → runs !! j = Some r → back r = Some t →
  key_le t v.
Proof.
  intros Ho Hk Hj Hr Ht.
  destruct (lookup_lt_is_Some_2 runs (insert_position key runs)) as [r0 Hr0].
  { apply lookup_lt_Some in Hr. lia. }
  destruct Ho as [Hs Hne].
  pose proof (Forall_lookup_1 _ _ _ _ Hne Hr0) as Hr0ne.
  destruct (back r0) as [t0|] eqn:Ht0; [|by apply last_None in Ht0].
  assert (top_element_less r0 r = false) as Hle.
  { eapply (strongly_sorted_lookup (λ x y, top_element_less x y = false)); eauto. }
  unfold top_element_less in Hle. rewrite Ht0, Ht in Hle.
  transitivity t0; [done|]. by eapply insert_position_top.
Qed.

(** The insertion keeps the runs ordered. *)
Lemma insert_value_ordered v key runs :
  back key = Some v → runs_ordered runs → runs_ordered (insert_value v key runs).
Proof.
  intros Hk Ho. split; [|by apply insert_value_nonempty, Ho].
  assert (∀ j r, (j < insert_position key runs)%nat → runs !! j = Some r →
                 top_element_less r (r ++ [v]) = false ∧ top_element_less r [v] = false)
    as Hbefore.
  { intros j r Hj Hr. unfold top_element_less, back. rewrite last_snoc. simpl.
    destruct (list.last r) as [t|] eqn:Ht; [|done].
    pose proof (insert_position_before v key runs j r t Ho Hk Hj Hr Ht) as Hlt.
    apply value_less_le in Hlt. done. }
  pose proof (insert_position_after v key runs) as Hafter.
  destruct (insert_value_cases v key runs) as [[Hend ->]|(r & Hr & ->)].
  - apply StronglySorted_app_2; [|apply Ho|repeat constructor].
    intros x1 x2 (j & Hj)%list_elem_of_lookup ->%list_elem_of_singleton.
    eapply (Hbefore j); [|done]. apply lookup_lt_Some in Hj. lia.
  - revert Hbefore Hafter Hr. generalize (insert_position key runs).
    intros i Hbefore Hafter Hr.
    pose proof (proj1 Ho) as Hs.
    rewrite <- (take_drop_middle runs i r Hr) in Hs.
    apply StronglySorted_app in Hs as (Hcross & Htake & Hdrop).
    apply StronglySorted_cons in Hdrop as [Hhd Hdrop].
    apply StronglySorted_app_2; [|done|].
    + intros x1 x2 Hx1 [->|Hx2]%elem_of_cons.
      * apply elem_of_take in Hx1 as (j & Hj & Hlt).
        erewrite top_element_less_back; [by eapply (Hbefore j)|done|].
        unfold back. by rewrite !last_snoc.
      * apply Hcross; [done|]. by right.
    + constructor; [done|]. apply Forall_forall. intros y Hy.
      unfold top_element_less, back. rewrite last_snoc.
      destruct (list.last y) as [b|] eqn:Hb; [|done].
      apply list_elem_of_lookup in Hy as [k Hk'].
      rewrite lookup_drop in Hk'.
      eapply (Hafter (S i + k)%nat); eauto. lia.
Qed.

(** A checkpoint keeps the active runs ordered. *)
Lemma omap_active_ordered target runs :
  runs_ordered runs → runs_ordered (omap (spec_active_part target) runs).
Proof.
  intros [Hs Hne]. split.
  - clear Hne. induction Hs as [|run runs Hs IH Hhd]; [constructor|]. simpl.
    destruct (spec_active_part target run) as [r|] eqn:Hr; [|done].
    constructor; [done|]. apply spec_active_part_back in Hr as [Hr _].
    rewrite Forall_forall in *. intros y (run' & Hin & Hy)%list_elem_of_omap.
    apply spec_active_part_back in Hy as [Hy _].
    erewrite top_element_less_back; eauto.
  - rewrite Forall_forall in *. intros r (run & Hin & Hr)%list_elem_of_omap.
    apply spec_active_part_back in Hr as [_ Hr]. auto.
Qed.

Lemma insert_value_as_coded v key runs :
  back key = Some v → runs_ordered runs →
  insert_as_coded v runs (insert_value v key runs).
Proof.
  intros Hk Ho. unfold insert_value. fold (insert_position key runs).
  pose proof (insert_position_bound key runs) as Hb.
  destruct (Nat.eqb_spec (insert_position key runs) (length runs)) as [Hend|Hne].
  - right. split; [|done]. intros (i & r & t & Hr & Ht & Hle & _).
    pose proof (insert_position_before v key runs i r t Ho Hk) as Hlt.
    apply lookup_lt_Some in Hr as Hi. unfold key_le in Hle.
    rewrite Hlt in Hle; [done|lia|done..].
  - left. exists (insert_position key runs). split; [|done].
    destruct (lookup_lt_is_Some_2 runs (insert_position key runs)) as [r Hr]; [lia|].
    pose proof (Forall_lookup_1 _ _ _ _ (proj2 Ho) Hr) as Hrne.
    destruct (back r) as [t|] eqn:Ht; [|by apply last_None in Ht].
    exists r, t. split_and!; [done..| | |].
    + by eapply insert_position_top.
    + intros j r' t'. by apply insert_position_before.
    + intros r' t' (j & Hj)%list_elem_of_lookup Ht' Hle.
      destruct (Nat.lt_ge_cases j (insert_position key runs)) as [Hlt|Hge].
      * pose proof (insert_position_before v key runs j r' t' Ho Hk Hlt Hj Ht') as Hless.
        unfold key_le in Hle. by rewrite Hless in Hle.
      * assert (top_element_less r r' = false) as Hrr.
        { eapply (strongly_sorted_lookup (λ x y, top_element_less x y = false));
            eauto. apply Ho. }
        unfold top_element_less in Hrr. by rewrite Ht, Ht' in Hrr.
Qed.

(** *** The invariant *)

Lemma below_target_window_id s x :
  0 < window_size_ s → 0 <= checkpoint_ s →
  value_less x (checkpoint_target AKU_LIMITS_MAX_ID s) = true →
  window_id s x <= checkpoint_ s.
Proof.
  intros Hw Hc Hx. apply value_less_spec in Hx. unfold window_id.
  assert (get_ts x <= checkpoint_ s * window_size_ s) as Hle.
  { unfold checkpoint_target, get_timestamp_, get_ts, get_id in *. simpl in *.
    pose proof (Z.mod_le (checkpoint_ s * window_size_ s) (2 ^ 64)). lia. }
  apply (Z.div_le_mono _ _ (window_size_ s)) in Hle; [|done].
  by rewrite Z.div_mul in Hle by lia.
Qed.

Lemma seq_inv_new window_size s :
  new_sequencer window_size = Some s → seq_inv s.
Proof.
  unfold new_sequencer. destruct (Z.leb_spec window_size 0); [done|].
  intros; simplify_eq. split; simpl; try done; try lia.
  - by split; constructor.
  - by intros r v Hr%elem_of_nil.
Qed.

Lemma seq_inv_set_top ts s : seq_inv s → seq_inv (set_top ts s).
Proof. intros []. by split. Qed.

Lemma seq_inv_insert v key s :
  back key = Some v → seq_inv s →
  seq_inv (set_runs (insert_value v key (runs_ s)) (set_key key s)).
Proof.
  intros Hk [Hw Hc [Hr Hd] Ho Hready Hb]. split; simpl; try done.
  - split; simpl; [by apply insert_value_sorted|done].
  - by apply insert_value_ordered.
Qed.

Lemma seq_inv_after_checkpoint ts s :
  seq_inv s → checkpoint_ s < get_checkpoint_ s ts →
  seq_inv (after_checkpoint AKU_LIMITS_MAX_ID ts s).
Proof.
  intros [Hw Hc [Hr Hd] Ho Hready Hb] Hcp. split; simpl; try done.
  - lia.
  - split; simpl; auto using omap_active_sorted, omap_ready_sorted.
  - by apply omap_active_ordered.
  - intros r v (run & Hin & Hrun)%list_elem_of_omap Hv. unfold window_id. simpl.
    pose proof (spec_ready_part_below _ _ _ _ Hrun Hv) as Hless.
    apply below_target_window_id in Hless; [|done..]. unfold window_id in Hless. lia.
Qed.

(** The outcomes of the window check from a state that satisfies the
    invariant: it does not throw, and the state it leaves satisfies the
    invariant as well. *)
Lemma check_timestamp_cases ts s :
  seq_inv s →
  ∃ status owns s1,
    check_timestamp_ AKU_LIMITS_MAX_ID ts s = Some (status, owns, s1) ∧ seq_inv s1 ∧
    ((status = AKU_ELATE_WRITE ∧ owns = false ∧ s1 = s) ∨
     (status = AKU_EBUSY ∧ owns = false ∧ s1 = set_top ts s) ∨
     (status = AKU_SUCCESS ∧ owns = false ∧ (s1 = s ∨ s1 = set_top ts s)) ∨
     (status = AKU_SUCCESS ∧ owns = true ∧ progress_flag_ s = false ∧
      ready_ s = [] ∧ s1 = after_checkpoint AKU_LIMITS_MAX_ID ts s)).
Proof.
  intros Hinv. unfold check_timestamp_.
  destruct (ts <? top_timestamp_ s).
  { destruct (window_size_ s <? _); do 3 eexists; (split; [done|]); split; try done.
    - by left.
    - right; right; left. eauto. }
  destruct (Z.ltb_spec (checkpoint_ s) (get_checkpoint_ s ts)) as [Hcp|Hcp].
  2:{ do 3 eexists. split; [done|]. split; [by apply seq_inv_set_top|].
      right; right; left. eauto. }
  destruct (progress_flag_ s) eqn:Hp.
  { rewrite make_checkpoint_busy by done. do 3 eexists. split; [done|].
    split; [by apply seq_inv_set_top|]. right; left. eauto. }
  pose proof (inv_ready s Hinv Hp) as Hready.
  rewrite make_checkpoint_spec; [|done|done|apply Hinv].
  do 3 eexists. split; [done|]. split.
  { by apply (seq_inv_after_checkpoint ts s). }
  right; right; right. eauto.
Qed.

Lemma add_unfold v s :
  add AKU_LIMITS_MAX_ID v s =
  match check_timestamp_ AKU_LIMITS_MAX_ID (get_ts v) s with
  | None => None
  | Some (status, owns, s1) =>
    if decide (status = AKU_SUCCESS) then
      Some (AKU_SUCCESS, owns,
            set_runs (insert_value v (add_key v s1) (runs_ s1)) (set_key (add_key v s1) s1))
    else Some (status, owns, s1)
  end.
Proof. done. Qed.

(** [add] from a state that satisfies the invariant returns, and keeps
    the invariant. *)
Lemma add_seq_inv v s :
  seq_inv s →
  ∃ status owns s', add AKU_LIMITS_MAX_ID v s = Some (status, owns, s') ∧ seq_inv s'.
Proof.
  intros Hinv. rewrite add_unfold.
  destruct (check_timestamp_cases (get_ts v) s Hinv) as (status & owns & s1 & -> & H1 & _).
  case_decide; do 3 eexists; (split; [done|]); [|done].
  apply seq_inv_insert; [apply add_key_back | done].
Qed.

(** C7, as the code has it: once the window check has succeeded, [add]
    appends the value to the first run whose last key is <= the incoming
    key. The runs are kept by decreasing last key, so this is the run
    with the largest last key that is still <= the incoming key. When
    every run ends above the incoming key, a new run holding only the
    value is appended to the run set. *)
Theorem add_inserts_below_top v s owns s1 :
  seq_inv s →
  check_timestamp_ AKU_LIMITS_MAX_ID (get_ts v) s = Some (AKU_SUCCESS, owns, s1) →
  ∃ s', add AKU_LIMITS_MAX_ID v s = Some (AKU_SUCCESS, owns, s') ∧
        runs_ s' = insert_value v (add_key v s1) (runs_ s1) ∧
        insert_as_coded v (runs_ s1) (runs_ s').
Proof.
  intros Hinv Hcheck.
  destruct (check_timestamp_cases (get_ts v) s Hinv) as (? & ? & ? & Hc & H1 & _).
  rewrite Hcheck in Hc. simplify_eq.
  rewrite add_unfold, Hcheck. simpl. eexists. split; [done|]. simpl. split; [done|].
  apply insert_value_as_coded; [apply add_key_back | apply H1].
Qed.

End SequencerProperties.

(** ** The k-way merge *)

Lemma item_less_spec (a b : HeapItem) :
  item_less a b = true ↔
  (get_ts a.1 < get_ts b.1 ∨ (get_ts a.1 = get_ts b.1 ∧ get_id a.1 < get_id b.1)) ∨
  ((get_ts a.1 = get_ts b.1 ∧ get_id a.1 = get_id b.1) ∧ (a.2 < b.2)%nat).
Proof.
  unfold item_less.
  rewrite orb_true_iff, andb_true_iff, negb_true_iff, Nat.ltb_lt.
  rewrite <- (not_true_iff_false (value_less _ _)), !value_less_spec. lia.
Qed.

Lemma item_order_spec dir (a b : HeapItem) :
  item_order dir a b ↔
  match dir with
  | AKU_CURSOR_DIR_FORWARD => ¬ (item_less b a = true)
  | AKU_CURSOR_DIR_BACKWARD => ¬ (item_less a b = true)
  end.
Proof. unfold item_order. destruct dir; simpl; by rewrite not_true_iff_false. Qed.

Global Instance item_order_refl dir : Reflexive (item_order dir).
Proof. intros a. apply item_order_spec. destruct dir; rewrite item_less_spec; lia. Qed.

Global Instance item_order_trans dir : Transitive (item_order dir).
Proof.
  intros a b c. rewrite !item_order_spec. destruct dir; rewrite !item_less_spec; lia.
Qed.

Lemma item_order_asym dir a b : MergePred dir a b = true → item_order dir b a.
Proof.
  intros Hab. apply item_order_spec.
  destruct dir; simpl in Hab; apply item_less_spec in Hab; rewrite item_less_spec; lia.
Qed.

(** Items in [item_order] have their keys in [emit_order]. *)
Lemma item_order_emit dir (a b : HeapItem) :
  item_order dir a b → emit_order dir a.1 b.1.
Proof.
  rewrite item_order_spec. unfold emit_order.
  destruct dir; rewrite item_less_spec, key_le_spec; lia.
Qed.

(** Two items of one run are ordered as their keys are. *)
Lemma item_order_same_index dir v w i :
  emit_order dir v w → item_order dir (v, i) (w, i).
Proof.
  rewrite item_order_spec. unfold emit_order.
  destruct dir; rewrite item_less_spec, key_le_spec; simpl; lia.
Qed.

Global Instance emit_order_refl dir : Reflexive (emit_order dir).
Proof. intros a. destruct dir; apply key_le_refl. Qed.

Global Instance emit_order_trans dir : Transitive (emit_order dir).
Proof. intros a b c. destruct dir; simpl; intros; by etrans. Qed.

(** A sorted run is read in [emit_order] in either direction. *)
Lemma RunIter_sorted dir run :
  run_sorted run → StronglySorted (emit_order dir) (RunIter dir run).
Proof.
  intros Hs. destruct dir; simpl.
  - by apply run_sorted_strongly.
  - apply Sorted_StronglySorted; [apply _|]. by apply Sorted_reverse in Hs.
Qed.

(** *** The heap *)

Lemma heap_extract_from_perm cmp x h m r :
  heap_extract_from cmp x h = (m, r) → x :: h ≡ₚ m :: r.
Proof.
  revert x m r. induction h as [|y h IH]; intros x m r; simpl.
  { intros; by simplify_eq. }
  destruct (heap_extract_from cmp y h) as [m' r'] eqn:He.
  specialize (IH _ _ _ He).
  destruct (cmp x m'); intros; simplify_eq.
  - rewrite IH. apply perm_swap.
  - by rewrite IH.
Qed.

(** The item taken off the heap comes first among those in it. *)
Lemma heap_extract_from_top dir x h m r :
  heap_extract_from (MergePred dir) x h = (m, r) → Forall (item_order dir m) r.
Proof.
  revert x m r. induction h as [|y h IH]; intros x m r; simpl.
  { intros; simplify_eq. constructor. }
  destruct (heap_extract_from (MergePred dir) y h) as [m' r'] eqn:He.
  specialize (IH _ _ _ He).
  destruct (MergePred dir x m') eqn:Hc; intros; simplify_eq.
  - constructor; [by apply item_order_asym | done].
  - constructor; [done|]. eapply Forall_impl; [done|].
    intros z Hz. by etrans.
Qed.

Lemma heap_extract_perm cmp h m r :
  heap_extract cmp h = Some (m, r) → h ≡ₚ m :: r.
Proof.
  destruct h as [|x h]; simpl; [done|]. intros; simplify_eq.
  by eapply heap_extract_from_perm.
Qed.

Lemma heap_extract_top dir h m r :
  heap_extract (MergePred dir) h = Some (m, r) → Forall (item_order dir m) r.
Proof.
  destruct h as [|x h]; simpl; [done|]. intros; simplify_eq.
  by eapply heap_extract_from_top.
Qed.

Lemma heap_top_pop cmp h :
  (h = [] ∧ heap_top cmp h = None) ∨
  (∃ m, heap_top cmp h = Some m ∧
        heap_extract cmp h = Some (m, heap_pop cmp h)).
Proof.
  unfold heap_top, heap_pop. destruct h as [|x h]; simpl; [by left|].
  right. destruct (heap_extract_from cmp x h) as [m r]. eauto.
Qed.

(** Two items that each come before the other are of one run. *)
Lemma item_order_antisym dir (a b : HeapItem) :
  item_order dir a b → item_order dir b a → a.2 = b.2 ∧ key_ a.1 = key_ b.1.
Proof.
  rewrite !item_order_spec.
  destruct a as [[[ta ia] oa] ja], b as [[[tb ib] ob] jb].
  destruct dir; rewrite !item_less_spec; unfold get_ts, get_id; simpl;
    intros Hab Hba; (split; [lia | f_equal; lia]).
Qed.

(** The contract fixes the top: in a heap with at most one item of each
    run, only one item comes before all others, so every priority queue
    that meets the contract returns the item [heap_extract] does. *)
Lemma heap_top_unique dir (h : Heap) (m m' : HeapItem) :
  NoDup h.*2 → m ∈ h → m' ∈ h →
  Forall (item_order dir m) h → Forall (item_order dir m') h → m = m'.
Proof.
  intros Hnd Hm Hm' Hall Hall'. rewrite Forall_forall in Hall, Hall'.
  destruct (item_order_antisym dir m m') as [Hidx _]; [by apply Hall | by apply Hall'|].
  apply list_elem_of_lookup in Hm as [i Hi], Hm' as [j Hj].
  assert (i = j) as ->; [|congruence].
  apply (NoDup_lookup h.*2 i j m.2); [done| |]; rewrite list_lookup_fmap.
  - unfold Heap, HeapItem in *. by rewrite Hi.
  - unfold Heap, HeapItem in *. rewrite Hj. simpl. by rewrite Hidx.
Qed.

(** *** The elements still to be read *)

Lemma tagged_from_elem k iter w j :
  (w, j) ∈ tagged_from k iter ↔
  ∃ i rest, j = (k + i)%nat ∧ iter !! i = Some rest ∧ w ∈ rest.
Proof.
  revert k. induction iter as [|r iter IH]; intros k; simpl.
  { split; [by intros ?%elem_of_nil | by intros (i & rest & _ & ? & _)]. }
  rewrite elem_of_app, list_elem_of_fmap, IH. split.
  - intros [(v & ? & Hv)|(i & rest & -> & Hi & Hw)]; simplify_eq.
    + exists 0%nat, r. split_and!; [lia|done..].
    + exists (S i), rest. split_and!; [lia|done..].
  - intros ([|i] & rest & -> & Hi & Hw); simplify_eq/=.
    + left. exists w. split; [f_equal; lia|done].
    + right. exists i, rest. split_and!; [lia|done..].
Qed.

Lemma tagged_from_fst k iter : (tagged_from k iter).*1 = concat iter.
Proof.
  revert k. induction iter as [|r iter IH]; intros k; simpl; [done|].
  rewrite fmap_app, IH. f_equal. rewrite <- list_fmap_compose.
  by rewrite list_fmap_id.
Qed.

Lemma tagged_from_length k iter :
  length (tagged_from k iter) = length (concat iter).
Proof. by rewrite <- (tagged_from_fst k), length_fmap. Qed.

Lemma tagged_from_insert k iter i p rest :
  iter !! i = Some (p :: rest) →
  tagged_from k iter ≡ₚ (p, (k + i)%nat) :: tagged_from k (<[i := rest]> iter).
Proof.
  revert k i. induction iter as [|r iter IH]; intros k [|i] Hi; simplify_eq/=.
  - by rewrite Nat.add_0_r.
  - rewrite (IH (S k) i) by done.
    replace (S k + i)%nat with (k + S i)%nat by lia.
    by rewrite <- Permutation_middle.
Qed.

Lemma tagged_from_empty k iter :
  (∀ i w rest, iter !! i ≠ Some (w :: rest)) → tagged_from k iter = [].
Proof.
  revert k. induction iter as [|r iter IH]; intros k Hall; simpl; [done|].
  destruct r as [|w r]; [|by destruct (Hall 0%nat w r)]. simpl.
  apply IH. intros i. apply (Hall (S i)).
Qed.

(** *** The heap holds one item of a run at most *)

Lemma of_run_absent i (items : list HeapItem) :
  i ∉ items.*2 → of_run i items = [].
Proof.
  unfold of_run. induction items as [|x items IH]; simpl; [done|].
  rewrite not_elem_of_cons. intros [Hx Hi].
  rewrite filter_cons_False by done. auto.
Qed.

Lemma of_run_perm i (l1 l2 : list HeapItem) :
  NoDup l1.*2 → l1 ≡ₚ l2 → of_run i l1 = of_run i l2.
Proof.
  assert (∀ l : list HeapItem, NoDup l.*2 →
            of_run i l = [] ∨ ∃ x, of_run i l = [x]) as Hshort.
  { induction l as [|x l IH]; simpl; [by left|]. rewrite NoDup_cons. intros [Hx Hl].
    unfold of_run. destruct (decide (x.2 = i)) as [<-|Hne].
    - right. exists x. rewrite filter_cons_True by done. f_equal.
      by apply of_run_absent.
    - rewrite filter_cons_False by done. auto. }
  intros Hnd Hp.
  assert (of_run i l1 ≡ₚ of_run i l2) as Hf by (unfold of_run; by rewrite Hp).
  assert (NoDup l2.*2) as Hnd2 by (by rewrite <- Hp).
  destruct (Hshort l1 Hnd) as [H1|[x H1]]; rewrite H1 in *.
  - by apply Permutation_nil_l.
  - by apply Permutation_singleton_l.
Qed.

(** *** One iteration of the loop *)

(** The item on top of the heap comes before every other item in the
    heap and before everything not yet read. *)
Lemma heap_top_first dir iter heap m r :
  merge_inv dir iter heap →
  heap_extract (MergePred dir) heap = Some (m, r) →
  Forall (item_order dir m) (r ++ tagged_from 0 iter).
Proof.
  intros Hinv He. apply Forall_app. split; [by eapply heap_extract_top|].
  apply Forall_forall. intros [w j] (i & rest & -> & Hi & Hw)%tagged_from_elem.
  simpl in *. destruct rest as [|w0 rest0]; [by apply elem_of_nil in Hw|].
  destruct (inv_heap_rep _ _ _ Hinv i w0 rest0) as [v Hv]; [done|].
  pose proof (inv_heap_head _ _ _ Hinv v i _ Hv Hi) as Hhead.
  rewrite Forall_forall in Hhead.
  transitivity (v, i); [|by apply item_order_same_index, Hhead].
  rewrite (heap_extract_perm _ _ _ _ He) in Hv.
  apply elem_of_cons in Hv as [<-|Hv]; [done|].
  pose proof (heap_extract_top _ _ _ _ He) as Htop.
  rewrite Forall_forall in Htop. by apply Htop.
Qed.

Lemma kway_next_inv dir iter heap m r iter' heap' :
  merge_inv dir iter heap →
  heap_extract (MergePred dir) heap = Some (m, r) →
  kway_next iter m r = (iter', heap') →
  merge_inv dir iter' heap'.
Proof.
  intros [Hsorted Hhead Hrep Hnd] He%heap_extract_perm Hnext.
  assert (NoDup (m.2 :: r.*2)) as Hnd'.
  { by rewrite He in Hnd. }
  apply NoDup_cons in Hnd' as [Hm Hr].
  assert (∀ x, x ∈ r → x ∈ heap) as Hsub.
  { intros x Hx. rewrite He. by right. }
  unfold kway_next in Hnext.
  destruct (iter !! m.2) as [[|p rest]|] eqn:Hi; simplify_eq.
  1,3: split; [done | by eauto | | done];
    intros i w rest Hiw; destruct (Hrep i w rest Hiw) as [v Hv];
    exists v; rewrite He in Hv; apply elem_of_cons in Hv as [<-|Hv];
    [simpl in *; congruence | done].
  pose proof (Hsorted _ _ Hi) as [Hp Hrest]%StronglySorted_cons.
  split.
  - intros i rest' [(<- & <- & _)|[_ Hi']]%list_lookup_insert_Some; eauto.
  - intros v i rest' [Hv|Hv]%elem_of_cons
      [(Hi1 & <- & _)|[Hne Hi']]%list_lookup_insert_Some; simplify_eq/=;
      try done; eauto.
    specialize (Hhead v _ _ (Hsub _ Hv) Hi). by apply Forall_cons in Hhead as [_ ?].
  - intros i w rest' [(<- & Heq & _)|[Hne Hi']]%list_lookup_insert_Some.
    + exists p. by left.
    + destruct (Hrep i w rest' Hi') as [v Hv]. exists v. right.
      rewrite He in Hv. apply elem_of_cons in Hv as [<-|Hv]; [done|done].
  - simpl. by apply NoDup_cons.
Qed.

Lemma kway_next_perm dir iter heap m r iter' heap' :
  heap_extract (MergePred dir) heap = Some (m, r) →
  kway_next iter m r = (iter', heap') →
  heap ++ tagged_from 0 iter ≡ₚ m :: heap' ++ tagged_from 0 iter'.
Proof.
  intros He%heap_extract_perm Hnext. unfold kway_next in Hnext.
  destruct (iter !! m.2) as [[|p rest]|] eqn:Hi; simplify_eq;
    rewrite He; try done.
  rewrite (tagged_from_insert 0 iter m.2 p rest Hi). simpl.
  unfold heap_push. by rewrite <- Permutation_middle.
Qed.

(** What the heap and the iterator hold of run [i]. *)
Lemma kway_next_of_run dir iter heap m r iter' heap' i :
  merge_inv dir iter heap →
  heap_extract (MergePred dir) heap = Some (m, r) →
  kway_next iter m r = (iter', heap') →
  of_run i heap ++ ((λ v, (v, i)) <$> default [] (iter !! i)) =
  of_run i [m] ++ of_run i heap' ++ ((λ v, (v, i)) <$> default [] (iter' !! i)).
Proof.
  intros Hinv He%heap_extract_perm Hnext.
  pose proof (inv_heap_nodup _ _ _ Hinv) as Hnd.
  rewrite (of_run_perm i heap (m :: r) Hnd He).
  assert (m.2 ∉ r.*2) as Hm.
  { rewrite He in Hnd. by apply NoDup_cons in Hnd as []. }
  change (of_run i (m :: r)) with (of_run i ([m] ++ r)).
  unfold of_run at 1. rewrite filter_app. fold (of_run i [m]) (of_run i r).
  rewrite <- app_assoc. f_equal.
  unfold kway_next in Hnext.
  destruct (iter !! m.2) as [[|p rest]|] eqn:Hi; simplify_eq; try done.
  destruct (decide (i = m.2)) as [->|Hne].
  - rewrite Hi, list_lookup_insert_eq by (by eapply lookup_lt_Some).
    rewrite (of_run_absent _ r Hm). simpl. unfold heap_push, of_run.
    rewrite filter_cons_True by done. fold (of_run m.2 r).
    by rewrite (of_run_absent _ r Hm).
  - rewrite list_lookup_insert_ne by done. unfold heap_push, of_run.
    by rewrite filter_cons_False by (simpl; congruence).
Qed.

(** *** The loop *)

Lemma kway_loop_unfold dir fuel iter heap :
  kway_loop dir fuel iter heap =
  match heap_extract (MergePred dir) heap with
  | None => Some []
  | Some (m, r) =>
    match fuel with
    | O => None
    | S fuel' =>
      let '(iter', heap') := kway_next iter m r in
      cons m <$> kway_loop dir fuel' iter' heap'
    end
  end.
Proof.
  destruct heap as [|x h]; [by destruct fuel|].
  destruct fuel as [|fuel]; simpl; unfold heap_top, heap_pop; simpl;
    destruct (heap_extract_from (MergePred dir) x h) as [m r]; simpl; [done|].
  unfold kway_next. by destruct (iter !! m.2) as [[|p rest]|].
Qed.

(** With an iteration for every element, the loop ends with an empty
    heap; it has then emitted every element once, in [item_order], and
    the elements of each run in the order its iterator gives them. *)
Lemma kway_loop_spec dir fuel iter heap :
  merge_inv dir iter heap →
  (length heap + length (concat iter) ≤ fuel)%nat →
  ∃ out, kway_loop dir fuel iter heap = Some out ∧
         out ≡ₚ heap ++ tagged_from 0 iter ∧
         StronglySorted (item_order dir) out ∧
         ∀ i, of_run i out =
              of_run i heap ++ ((λ v, (v, i)) <$> default [] (iter !! i)).
Proof.
  revert iter heap. induction fuel as [|fuel IH]; intros iter heap Hinv Hfuel;
    rewrite kway_loop_unfold;
    destruct (heap_extract (MergePred dir) heap) as [[m r]|] eqn:He.
  - apply heap_extract_perm, Permutation_length in He. simpl in He. lia.
  - destruct heap; [|done].
    assert (∀ i w rest, iter !! i ≠ Some (w :: rest)) as Hempty.
    { intros i w rest Hi. destruct (inv_heap_rep _ _ _ Hinv i w rest Hi) as [v Hv].
      by apply elem_of_nil in Hv. }
    exists []. rewrite (tagged_from_empty 0 iter Hempty).
    split_and!; [done | done | constructor |]. intros i. simpl.
    destruct (iter !! i) as [[|w rest]|] eqn:Hi; [done| |done].
    by destruct (Hempty i w rest).
  - destruct (kway_next iter m r) as [iter' heap'] eqn:Hnext.
    pose proof (kway_next_perm _ _ _ _ _ _ _ He Hnext) as Hperm.
    destruct (IH iter' heap') as (out & -> & Hout & Hsorted & Hruns).
    { by eapply kway_next_inv. }
    { apply Permutation_length in Hperm. revert Hperm. simpl.
      rewrite !length_app, !tagged_from_length. lia. }
    exists (m :: out). split_and!; [done | | |].
    + by rewrite Hperm, Hout.
    + constructor; [done|]. rewrite Hout.
      pose proof (heap_top_first _ _ _ _ _ Hinv He) as Hfirst.
      apply heap_extract_perm in He as Hheap. rewrite Hheap in Hperm.
      simpl in Hperm. apply Permutation_cons_inv in Hperm. by rewrite <- Hperm.
    + intros i. change (m :: out) with ([m] ++ out).
      unfold of_run at 1. rewrite filter_app. fold (of_run i [m]) (of_run i out).
      rewrite Hruns. symmetry. by eapply kway_next_of_run.
  - destruct heap; [|done].
    assert (∀ i w rest, iter !! i ≠ Some (w :: rest)) as Hempty.
    { intros i w rest Hi. destruct (inv_heap_rep _ _ _ Hinv i w rest Hi) as [v Hv].
      by apply elem_of_nil in Hv. }
    exists []. rewrite (tagged_from_empty 0 iter Hempty).
    split_and!; [done | done | constructor |]. intros i. simpl.
    destruct (iter !! i) as [[|w rest]|] eqn:Hi; [done| |done].
    by destruct (Hempty i w rest).
Qed.

(** *** Seeding the heap *)

Lemma kway_seed_spec k iter heap :
  kway_seed k iter heap = (tail <$> iter, reverse (heads_from k iter) ++ heap).
Proof.
  revert k heap. induction iter as [|[|v rest] iter IH]; intros k heap; simpl.
  - done.
  - by rewrite IH.
  - rewrite IH. unfold heap_push. by rewrite reverse_cons, <- app_assoc.
Qed.

Lemma heads_from_elem k iter v j :
  (v, j) ∈ heads_from k iter ↔
  ∃ i rest, j = (k + i)%nat ∧ iter !! i = Some (v :: rest).
Proof.
  revert k. induction iter as [|r iter IH]; intros k.
  { simpl. split; [by intros ?%elem_of_nil | by intros (i & rest & _ & ?)]. }
  assert ((v, j) ∈ heads_from (S k) iter ↔
          ∃ i rest, j = (k + S i)%nat ∧ (r :: iter) !! S i = Some (v :: rest)) as IH'.
  { rewrite IH. simpl. split; intros (i & rest & -> & Hi);
      exists i, rest; (split; [lia|done]). }
  destruct r as [|w r]; simpl heads_from; rewrite ?elem_of_cons, IH'.
  - split.
    + intros (i & rest & -> & Hi). by exists (S i), rest.
    + intros ([|i] & rest & -> & Hi); [done|]. by exists i, rest.
  - split.
    + intros [?|(i & rest & -> & Hi)]; simplify_eq.
      * exists 0%nat, r. split; [lia|done].
      * by exists (S i), rest.
    + intros ([|i] & rest & -> & Hi); simplify_eq/=.
      * left. f_equal. lia.
      * right. by exists i, rest.
Qed.

Lemma heads_from_nodup k iter : NoDup (heads_from k iter).*2.
Proof.
  revert k. induction iter as [|[|v rest] iter IH]; intros k; simpl; auto using NoDup_nil_2.
  apply NoDup_cons. split; [|done].
  intros ([w j] & ? & (i & r & ? & _)%heads_from_elem)%list_elem_of_fmap.
  simpl in *. lia.
Qed.

Lemma heads_from_tagged k iter :
  heads_from k iter ++ tagged_from k (tail <$> iter) ≡ₚ tagged_from k iter.
Proof.
  revert k. induction iter as [|[|v rest] iter IH]; intros k; simpl.
  - done.
  - apply IH.
  - rewrite <- IH. constructor. rewrite !app_assoc.
    apply Permutation_app_tail, Permutation_app_comm.
Qed.

(** What the seeded heap holds of run [i]: its first element. *)
Lemma heads_from_of_run iter i :
  of_run i (heads_from 0 iter) ++ ((λ v, (v, i)) <$> default [] ((tail <$> iter) !! i))
  = (λ v, (v, i)) <$> default [] (iter !! i).
Proof.
  rewrite list_lookup_fmap.
  destruct (iter !! i) as [[|v rest]|] eqn:Hi; simpl.
  1,3: rewrite app_nil_r; apply of_run_absent;
    intros ([w j] & ? & (i' & r & ? & Hi')%heads_from_elem)%list_elem_of_fmap;
    simpl in *; simplify_eq; replace (0 + i')%nat with i' in * by lia; congruence.
  assert ((v, i) ∈ heads_from 0 iter) as Hin.
  { apply heads_from_elem. by exists i, rest. }
  apply list_elem_of_split in Hin as (l1 & l2 & Hsplit).
  pose proof (heads_from_nodup 0 iter) as Hnd. rewrite Hsplit in Hnd |- *.
  rewrite fmap_app, fmap_cons in Hnd. simpl in Hnd.
  apply NoDup_app in Hnd as (_ & Hl1 & [Hl2 _]%NoDup_cons).
  unfold of_run. rewrite filter_app, filter_cons_True by done.
  fold (of_run i l1) (of_run i l2).
  rewrite (of_run_absent i l1), (of_run_absent i l2); [done|done|].
  intros Hi1. apply (Hl1 i Hi1). by left.
Qed.

Lemma seeded_merge_inv dir iter :
  Forall (StronglySorted (emit_order dir)) iter →
  merge_inv dir (tail <$> iter) (reverse (heads_from 0 iter)).
Proof.
  intros Hs. rewrite Forall_lookup in Hs. split.
  - intros i rest. rewrite list_lookup_fmap.
    destruct (iter !! i) as [l|] eqn:Hi; [|done]. intros; simplify_eq/=.
    specialize (Hs i l Hi). destruct l; [done|]. simpl.
    by apply StronglySorted_cons in Hs as [_ ?].
  - intros v i rest (i' & r & -> & Hi)%elem_of_reverse%heads_from_elem.
    rewrite list_lookup_fmap. simpl. rewrite Hi. intros; simplify_eq/=.
    specialize (Hs i' _ Hi). by apply StronglySorted_cons in Hs as [? _].
  - intros i w rest. rewrite list_lookup_fmap.
    destruct (iter !! i) as [[|v l]|] eqn:Hi; intros; simplify_eq/=.
    exists v. apply elem_of_reverse, heads_from_elem. by exists i, (w :: rest).
  - rewrite fmap_reverse, reverse_Permutation. apply heads_from_nodup.
Qed.

(** *** The merge *)

Lemma concat_RunIter dir runs : concat (RunIter dir <$> runs) ≡ₚ concat runs.
Proof.
  induction runs as [|run runs IH]; simpl; [done|]. rewrite IH.
  destruct dir; simpl; [done|]. by rewrite reverse_Permutation.
Qed.

Lemma item_sorted_keys dir (items : list HeapItem) :
  StronglySorted (item_order dir) items → StronglySorted (emit_order dir) items.*1.
Proof.
  induction 1 as [|a items Hs IH Ha]; simpl; constructor; [done|].
  apply Forall_fmap. eapply Forall_impl; [done|]. intros b. apply item_order_emit.
Qed.

(** [kway_merge] returns: the iterations it is given are enough. It
    emits every element of every run once, in [item_order], and the
    elements of each run in the order [RunIter] gives them. *)
Lemma kway_merge_items_total dir runs :
  Forall run_sorted runs →
  ∃ items, kway_merge_items dir runs = Some items ∧
           items.*1 ≡ₚ concat runs ∧
           StronglySorted (item_order dir) items ∧
           ∀ i, (of_run i items).*1 = RunIter dir (default [] (runs !! i)).
Proof.
  intros Hs. unfold kway_merge_items. rewrite kway_seed_spec, app_nil_r.
  set (iter := RunIter dir <$> runs).
  assert (Forall (StronglySorted (emit_order dir)) iter) as Hiter.
  { apply Forall_fmap. eapply Forall_impl; [done|]. intros run. apply RunIter_sorted. }
  pose proof (heads_from_tagged 0 iter) as Hheads.
  destruct (kway_loop_spec dir (length (concat runs)) (tail <$> iter)
              (reverse (heads_from 0 iter))) as (items & -> & Hperm & Hsorted & Hruns).
  { by apply seeded_merge_inv. }
  { apply Permutation_length in Hheads.
    rewrite length_app, !tagged_from_length in Hheads.
    rewrite length_reverse, Hheads. unfold iter. by rewrite concat_RunIter. }
  exists items. split_and!; [done | | done |].
  - rewrite Hperm, reverse_Permutation, Hheads, tagged_from_fst.
    apply concat_RunIter.
  - intros i. rewrite Hruns.
    rewrite (of_run_perm i (reverse (heads_from 0 iter)) (heads_from 0 iter)).
    2:{ rewrite fmap_reverse, reverse_Permutation. apply heads_from_nodup. }
    2:{ apply reverse_Permutation. }
    rewrite heads_from_of_run. unfold iter. rewrite list_lookup_fmap.
    rewrite <- list_fmap_compose.
    destruct (runs !! i) as [run|]; simpl; [|by destruct dir].
    apply list_fmap_id.
Qed.

(** What a cursor gets from [kway_merge] over sorted runs. *)
Lemma kway_merge_total dir runs :
  Forall run_sorted runs →
  ∃ items : list HeapItem,
    kway_merge dir runs = Some ((λ it : HeapItem, Put (value it.1)) <$> items) ∧
    items.*1 ≡ₚ concat runs ∧
    StronglySorted (emit_order dir) items.*1.
Proof.
  intros Hs.
  destruct (kway_merge_items_total dir runs Hs) as (items & Hitems & Hperm & Hsorted & _).
  exists items. unfold kway_merge. rewrite Hitems.
  split_and!; [done | done | by apply item_sorted_keys].
Qed.

(** C4: the k-way merge over sorted runs. It returns, and the offsets it
    puts to the cursor are those of all elements of all runs, each once:
    forward in ascending order of the key ([timestamp], [param_id]),
    backward in descending order. Each run is read through [RunIter], so
    backward from its last element to its first. Elements with equal keys
    come out by run index, the smaller index first forward and the larger
    first backward, so the emitted sequence is determined by the input. *)
Theorem kway_merge_emits_in_order dir runs :
  Forall run_sorted runs →
  ∃ items : list HeapItem,
    kway_merge_items dir runs = Some items ∧
    kway_merge dir runs = Some ((λ it : HeapItem, Put (value it.1)) <$> items) ∧
    items.*1 ≡ₚ concat runs ∧
    StronglySorted (emit_order dir) items.*1 ∧
    (∀ i run, runs !! i = Some run → (of_run i items).*1 = RunIter dir run) ∧
    (∀ j k (a b : HeapItem),
       (j < k)%nat → items !! j = Some a → items !! k = Some b →
       key_ a.1 = key_ b.1 →
       match dir with
       | AKU_CURSOR_DIR_FORWARD => (a.2 ≤ b.2)%nat
       | AKU_CURSOR_DIR_BACKWARD => (b.2 ≤ a.2)%nat
       end).
Proof.
  intros Hs.
  destruct (kway_merge_items_total dir runs Hs) as (items & Hitems & Hperm & Hsorted & Hruns).
  exists items. unfold kway_merge. rewrite Hitems.
  split_and!; [done | done | done | by apply item_sorted_keys | |].
  - intros i run Hi. rewrite Hruns. unfold SortedRun in *. by rewrite Hi.
  - intros j k a b Hjk Ha Hb Hkey.
    assert (item_order dir a b) as Hab.
    { eapply (strongly_sorted_lookup (item_order dir)); [done| |done..]. lia. }
    apply item_order_spec in Hab.
    unfold get_ts, get_id in *.
    destruct dir; rewrite item_less_spec in Hab; unfold get_ts, get_id in Hab;
      rewrite Hkey in Hab; lia.
Qed.

(** ** Search *)

Lemma SearchPredicate_spec q v :
  SearchPredicate q v = true ↔
  lowerbound q < get_ts v < upperbound q ∧ param_pred q (get_id v) = MATCH.
Proof.
  unfold SearchPredicate.
  destruct (Z.ltb_spec (lowerbound q) (get_ts v)), (Z.ltb_spec (get_ts v) (upperbound q));
    simpl; try case_decide; split; try done; try lia; tauto.
Qed.

Lemma foldl_filter_run q runs acc :
  foldl (λ acc run, filter_run run q acc) acc runs =
  acc ++ (List.filter (SearchPredicate q) <$> runs).
Proof.
  revert acc. induction runs as [|run runs IH]; intros acc; simpl.
  - by rewrite app_nil_r.
  - rewrite IH. unfold filter_run. by rewrite <- app_assoc.
Qed.

Lemma concat_filter (P : TimeSeriesValue → bool) runs :
  concat (List.filter P <$> runs) = List.filter P (concat runs).
Proof.
  induction runs as [|run runs IH]; [done|].
  rewrite fmap_cons. cbn [concat]. by rewrite List.filter_app, IH.
Qed.

(** C6, as the code has it: in a state with no checkpoint in flight,
    [search] emits exactly the values of the active runs whose timestamp
    lies strictly between [lowerbound] and [upperbound] and whose
    parameter [param_pred] maps to [MATCH], each as often as the runs
    hold it, in key order of the query's direction. With [param_pred]
    always [MATCH] and the bounds 0 and the largest [uint64_t], these are
    the values of the active runs with a timestamp strictly between the
    two bounds. *)
Theorem search_emits_matching q s :
  progress_flag_ s = false → ready_ s = [] → Forall run_sorted (runs_ s) →
  ∃ items : list HeapItem,
    search q s = Emitted ((λ it : HeapItem, Put (value it.1)) <$> items) ∧
    items.*1 ≡ₚ List.filter (SearchPredicate q) (concat (runs_ s)) ∧
    StronglySorted (emit_order (direction q)) items.*1 ∧
    (∀ v, v ∈ items.*1 ↔
          v ∈ concat (runs_ s) ∧
          lowerbound q < get_ts v < upperbound q ∧
          param_pred q (get_id v) = MATCH) ∧
    (∀ dir, q = match_all dir →
       ∀ v, v ∈ items.*1 ↔ v ∈ concat (runs_ s) ∧ 0 < get_ts v < 2 ^ 64 - 1).
Proof.
  intros Hp Hr Hs. unfold search. rewrite Hp, Hr, foldl_filter_run. simpl.
  destruct (kway_merge_total (direction q)
              (List.filter (SearchPredicate q) <$> runs_ s))
    as (items & -> & Hperm & Hsorted).
  { apply Forall_fmap. eapply Forall_impl; [done|]. intros run.
    apply run_sorted_filter. }
  rewrite concat_filter in Hperm.
  assert (∀ v, v ∈ items.*1 ↔
               v ∈ concat (runs_ s) ∧
               lowerbound q < get_ts v < upperbound q ∧
               param_pred q (get_id v) = MATCH) as Hiff.
  { intros v. rewrite Hperm, list_elem_of_In, filter_In, <- list_elem_of_In.
    by rewrite SearchPredicate_spec. }
  exists items. split_and!; [done..|].
  intros dir -> v. rewrite Hiff. simpl. tauto.
Qed.

(** ** A client: conservation of values *)

Lemma omap_parts_concat target runs :
  concat (omap (spec_ready_part target) runs) ++
  concat (omap (spec_active_part target) runs) ≡ₚ concat runs.
Proof.
  induction runs as [|run runs IH]; simpl; [done|].
  pose proof (spec_parts_concat target run) as Hrun.
  destruct (spec_ready_part target run), (spec_active_part target run);
    simpl in *; rewrite <- Hrun, <- IH; solve_Permutation.
Qed.

Lemma put_offsets_app e1 e2 :
  put_offsets (e1 ++ e2) = put_offsets e1 ++ put_offsets e2.
Proof. apply omap_app. Qed.

Lemma put_offsets_puts (items : list HeapItem) :
  put_offsets ((λ it : HeapItem, Put (value it.1)) <$> items) = value <$> items.*1.
Proof. induction items as [|it items IH]; simpl; [done|]. f_equal. exact IH. Qed.

Section ClientProperties.

Variable AKU_LIMITS_MAX_ID : ParamId.

(** [add] keeps what the sequencer holds, plus the value when it is
    admitted. *)
Lemma add_contents v s status owns s' :
  seq_inv s →
  add AKU_LIMITS_MAX_ID v s = Some (status, owns, s') →
  contents s' ≡ₚ (if decide (status = AKU_SUCCESS) then [v] else []) ++ contents s.
Proof.
  intros Hinv. rewrite add_unfold.
  destruct (check_timestamp_cases AKU_LIMITS_MAX_ID (get_ts v) s Hinv)
    as (st & o & s1 & -> & _ & Hcases).
  assert (contents s1 ≡ₚ contents s) as H1.
  { destruct Hcases as [(_ & _ & ->)|[(_ & _ & ->)|[(_ & _ & [->| ->])|
      (_ & _ & _ & Hr & ->)]]]; try done.
    unfold contents. simpl. rewrite Hr. simpl. apply omap_parts_concat. }
  case_decide as Hst; intros; simplify_eq.
  - rewrite decide_True by done. unfold contents. simpl.
    rewrite insert_value_concat. rewrite <- H1. unfold contents.
    by rewrite <- Permutation_middle.
  - rewrite decide_False by done. done.
Qed.

(** [merge] with the token the client holds returns; what it puts to
    the cursor is what leaves the sequencer. *)
Lemma merge_release s :
  seq_inv s →
  ∃ events s',
    merge (progress_flag_ s) s = Some (events, s') ∧
    seq_inv (release (progress_flag_ s) s') ∧
    put_offsets events ++ (value <$> contents (release (progress_flag_ s) s'))
      ≡ₚ value <$> contents s.
Proof.
  intros Hinv. unfold merge. destruct (progress_flag_ s) eqn:Hp; simpl.
  2:{ do 2 eexists. split; [done|]. by split. }
  destruct (ready_ s) as [|r rd] eqn:Hr; simpl.
  { do 2 eexists. split; [done|]. split; [|done].
    destruct Hinv as [? ? [? ?] ? ? ?]. by split. }
  destruct (kway_merge_total AKU_CURSOR_DIR_FORWARD (r :: rd))
    as (items & -> & Hperm & _).
  { rewrite <- Hr. apply Hinv. }
  do 2 eexists. split; [done|]. split.
  - destruct Hinv as [? ? [? ?] ? ? ?]. split; simpl; try done.
    intros r0 v Hr0. simpl in Hr0. by apply elem_of_nil in Hr0.
  - rewrite put_offsets_app, put_offsets_puts. simpl. rewrite app_nil_r.
    unfold contents. simpl. rewrite Hr, Hperm. by rewrite fmap_app.
Qed.

Lemma client_step_inv s t op :
  seq_inv s → conserved s t →
  ∃ s' t', client_step AKU_LIMITS_MAX_ID (s, t) op = Some (s', t') ∧
           seq_inv s' ∧ conserved s' t'.
Proof.
  intros Hinv Hcons. destruct op as [v|]; simpl.
  - destruct (add_seq_inv AKU_LIMITS_MAX_ID v s Hinv) as (status & owns & s' & Hadd & Hinv').
    rewrite Hadd. do 2 eexists. split; [done|]. split; [done|].
    unfold conserved in *. simpl.
    rewrite (add_contents _ _ _ _ _ Hinv Hadd), !fmap_app, Hcons.
    solve_Permutation.
  - destruct (merge_release s Hinv) as (events & s' & -> & Hinv' & Hperm).
    do 2 eexists. split; [done|]. split; [done|].
    unfold conserved in *. simpl.
    by rewrite Hcons, put_offsets_app, <- app_assoc, Hperm.
Qed.

(** A client never sees [add] or [merge] throw; the invariant and the
    conservation of values hold all along. *)
Lemma client_run_inv ops s t :
  seq_inv s → conserved s t →
  ∃ s' t', client_run AKU_LIMITS_MAX_ID ops (s, t) = Some (s', t') ∧
           seq_inv s' ∧ conserved s' t'.
Proof.
  revert s t. induction ops as [|op ops IH]; intros s t Hinv Hcons; simpl.
  { by exists s, t. }
  destruct (client_step_inv s t op Hinv Hcons) as (s1 & t1 & Hstep & Hinv1 & Hcons1).
  simpl in Hstep. rewrite Hstep. by apply IH.
Qed.

Lemma conserved_new window_size s :
  new_sequencer window_size = Some s → conserved s (mkTrace [] []).
Proof.
  unfold new_sequencer. destruct (window_size <=? 0); [done|].
  intros; simplify_eq. by unfold conserved, contents.
Qed.

Lemma reachable_seq_inv s : reachable AKU_LIMITS_MAX_ID s → seq_inv s.
Proof.
  intros (w & s0 & ops & t & Hnew & Hrun).
  destruct (client_run_inv ops s0 (mkTrace [] [])) as (s' & t' & Hrun' & Hinv & _).
  { by eapply seq_inv_new. }
  { by eapply conserved_new. }
  congruence.
Qed.

(** In a reachable state with the progress mutex free, Ready is empty
    and every active run is sorted. *)
Lemma reachable_idle s :
  reachable AKU_LIMITS_MAX_ID s → progress_flag_ s = false →
  ready_ s = [] ∧ Forall run_sorted (runs_ s).
Proof.
  intros Hinv%reachable_seq_inv Hp. split; [by apply inv_ready | apply Hinv].
Qed.

(** C3: whatever sequence of [add] calls (and of the [merge] calls their
    checkpoints ask for) a client makes on a fresh sequencer, none of
    them throws, and [close] then returns. Its token owns the progress
    lock exactly when the lock was free, which it is again as soon as the
    client has passed the token it holds to [merge]; a [close] that does
    not get the lock changes nothing. A [close] that gets the lock holds
    it, has moved every active run into Ready and left no active run;
    [merge] with that token returns, and the offsets put to the cursor by
    the earlier merges and by this one together are the offsets of the
    values whose [add] returned [AKU_SUCCESS], each as often as it was
    admitted. Nothing is left in the sequencer. *)
Theorem close_merge_emits_admitted window_size s0 ops :
  new_sequencer window_size = Some s0 →
  ∃ s t s1,
    client_run AKU_LIMITS_MAX_ID ops (s0, mkTrace [] []) = Some (s, t) ∧
    close s = Some (negb (progress_flag_ s), s1) ∧
    (progress_flag_ s = true → s1 = s) ∧
    (progress_flag_ s = false →
     progress_flag_ s1 = true ∧ ready_ s1 = runs_ s ∧ runs_ s1 = [] ∧
     ∃ events s2,
       merge true s1 = Some (events, s2) ∧
       put_offsets (emitted t ++ events) ≡ₚ value <$> admitted t ∧
       contents s2 = []) ∧
    ∃ s' t',
      client_step AKU_LIMITS_MAX_ID (s, t) OpMerge = Some (s', t') ∧
      progress_flag_ s' = false.
Proof.
  intros Hnew.
  destruct (client_run_inv ops s0 (mkTrace [] [])) as (s & t & Hrun & Hinv & Hcons).
  { by eapply seq_inv_new. }
  { by eapply conserved_new. }
  assert (∃ s' t', client_step AKU_LIMITS_MAX_ID (s, t) OpMerge = Some (s', t') ∧
                   progress_flag_ s' = false) as Hfree.
  { destruct (client_step_inv s t OpMerge Hinv Hcons) as (s' & t' & Hstep & _).
    exists s', t'. split; [done|]. simpl in Hstep.
    destruct (merge (progress_flag_ s) s) as [[events sm]|] eqn:Hm; [|done].
    simplify_eq. destruct (progress_flag_ s) eqn:Hp; [done|].
    unfold merge in Hm. simpl in Hm. by simplify_eq. }
  exists s, t. unfold close. destruct (progress_flag_ s) eqn:Hp.
  { exists s. by split_and!. }
  pose proof (inv_ready s Hinv Hp) as Hready. rewrite Hready.
  eexists. split_and!; [done.. | | done]. intros _. simpl.
  split_and!; [done..|].
  unfold merge. simpl.
  unfold conserved, contents in Hcons. rewrite Hready in Hcons. simpl in Hcons.
  destruct (runs_ s) as [|r rs] eqn:Hruns; simpl.
  { do 2 eexists. split_and!; [done| |done].
    rewrite put_offsets_app. simpl in *. by rewrite Hcons, !app_nil_r. }
  destruct (kway_merge_total AKU_CURSOR_DIR_FORWARD (r :: rs))
    as (items & -> & Hperm & _).
  { rewrite <- Hruns. apply Hinv. }
  do 2 eexists. split_and!; [done| |done].
  rewrite !put_offsets_app, put_offsets_puts, Hperm, Hcons. simpl.
  by rewrite app_nil_r.
Qed.

(** C9, as the code has it: in every state a client reaches with [add]
    and [merge], every value in Ready has a window id
    [ts / window_size] strictly below [checkpoint_]; this is what a
    checkpoint transition leaves in Ready. ([close] is not among the
    operations of [reachable].) *)
Theorem ready_values_before_checkpoint s :
  reachable AKU_LIMITS_MAX_ID s → ready_before_checkpoint s.
Proof. intros Hs. by apply reachable_seq_inv. Qed.

End ClientProperties.

(** * Scenarios *)

Lemma one_run_reachable : reachable 1000 one_run.
Proof.
  exists 10, (mkSequencer 10 0 0 [] [] [mkValue (0, 0) 0] false),
         [OpAdd (at_ts 5); OpAdd (at_ts 8); OpAdd (at_ts 12); OpMerge; OpAdd (at_ts 18)].
  by eexists.
Qed.

(** Adding [ts = 21] to it leaves 5 and 8 in Ready and 12, 18, 21 in the
    one active run. *)
Lemma split_at_checkpoint :
  ∃ s', add 1000 (at_ts 21) one_run = Some (AKU_SUCCESS, true, s') ∧
        checkpoint_ s' = 2 ∧
        ready_ s' = [[at_ts 5; at_ts 8]] ∧
        runs_ s' = [[at_ts 12; at_ts 18; at_ts 21]].
Proof.
  destruct (checkpoint_splits_runs 1000 (at_ts 21) one_run)
    as (s' & Hadd & Hcp & Hready & Hruns & _); try done.
  { by apply (bool_decide_unpack _). }
  exists s'. rewrite Hcp, Hready, Hruns. by split_and!.
Defined.

Lemma five_reachable : reachable 1000 five.
Proof. exists 10, fresh, [OpAdd (at_ts 5)]. by eexists. Qed.

Lemma zero_reachable : reachable 1000 zero.
Proof. exists 10, fresh, [OpAdd (at_ts 0)]. by eexists. Qed.

(** Scenario 2: with a top of 100 and a window of 10, [ts = 89] is a late
    write and changes nothing; [ts = 91] is admitted and the top stays
    at 100. *)
Lemma late_write_rejection :
  add 1000 (at_ts 89) top_100 = Some (AKU_ELATE_WRITE, false, top_100) ∧
  ∃ s', add 1000 (at_ts 91) top_100 = Some (AKU_SUCCESS, false, s') ∧
        top_timestamp_ s' = 100 ∧
        runs_ s' = [[at_ts 100]; [at_ts 91]].
Proof.
  split.
  - apply (add_below_top 1000 (at_ts 89) top_100); [by vm_compute | by vm_compute].
  - destruct (proj2 (add_below_top 1000 (at_ts 91) top_100 ltac:(by vm_compute)))
      as (s' & Hadd & Htop & _ & _ & Hruns & _); [by vm_compute|].
    exists s'. rewrite Htop, Hruns. by split_and!.
Defined.

(** Scenario 1: after the three values and the merge their checkpoint
    asks for, [close] and [merge] have put all three offsets. *)
Lemma basic_ingest_and_flush :
  ∃ s t s1,
    client_run 1000 basic_ingest (fresh, mkTrace [] []) = Some (s, t) ∧
    close s = Some (negb (progress_flag_ s), s1) ∧
    (progress_flag_ s = true → s1 = s) ∧
    (progress_flag_ s = false →
     progress_flag_ s1 = true ∧ ready_ s1 = runs_ s ∧ runs_ s1 = [] ∧
     ∃ events s2,
       merge true s1 = Some (events, s2) ∧
       put_offsets (emitted t ++ events) ≡ₚ value <$> admitted t ∧
       contents s2 = []) ∧
    ∃ s' t',
      client_step 1000 (s, t) OpMerge = Some (s', t') ∧
      progress_flag_ s' = false.
Proof. apply (close_merge_emits_admitted 1000 10 fresh basic_ingest). reflexivity. Defined.

(** The same by evaluation: the three offsets come out in key order. *)
Example basic_ingest_flush_order :
  ∃ s t s1 s2,
    client_run 1000 basic_ingest (fresh, mkTrace [] []) = Some (s, t) ∧
    close s = Some (true, s1) ∧
    merge true s1 = Some ([Put 1; Put 2; Put 3; Complete], s2).
Proof. do 4 eexists. by vm_compute. Qed.

(** Scenario 6: merging A and B backward puts 4, 3, 2, 1. *)
Lemma backward_merge :
  kway_merge AKU_CURSOR_DIR_BACKWARD [run_A; run_B] =
  Some [Put 4; Put 3; Put 2; Put 1].
Proof.
  destruct (kway_merge_emits_in_order AKU_CURSOR_DIR_BACKWARD [run_A; run_B])
    as (items & Hitems & -> & _).
  { by apply (bool_decide_unpack _). }
  vm_compute in Hitems. by simplify_eq.
Defined.

(** A search of the one run for the timestamps between 5 and 18 finds 8
    and 12, not the bounds themselves. *)
Lemma search_between :
  ∃ items : list HeapItem,
    search between_5_18 one_run = Emitted ((λ it : HeapItem, Put (value it.1)) <$> items) ∧
    items.*1 ≡ₚ [at_ts 8; at_ts 12] ∧
    StronglySorted (emit_order AKU_CURSOR_DIR_BACKWARD) items.*1.
Proof.
  destruct (search_emits_matching between_5_18 one_run)
    as (items & Hsearch & Hperm & Hsorted & _); try done.
  { by apply (bool_decide_unpack _). }
  exists items. by split_and!.
Defined.

Example search_between_events :
  search between_5_18 one_run = Emitted [Put 12; Put 8].
Proof. by vm_compute. Qed.

(** Adding 8 to the run that ends with 5 appends it to that run. *)
Lemma insert_after_five :
  ∃ s', add 1000 (at_ts 8) five = Some (AKU_SUCCESS, false, s') ∧
        runs_ s' = [[at_ts 5; at_ts 8]] ∧
        insert_as_coded (at_ts 8) (runs_ five) (runs_ s').
Proof.
  destruct (add_inserts_below_top 1000 (at_ts 8) five false (set_top 8 five))
    as (s' & Hadd & Hruns & Hcoded).
  { apply (reachable_seq_inv 1000). exists 10, fresh, [OpAdd (at_ts 5)]. by eexists. }
  { reflexivity. }
  exists s'. split_and!; [done| |done]. by rewrite Hruns.
Defined.

(** The state reached by adding 21 to the one run has sorted runs. *)
Lemma staged_sorted : runs_sorted staged.
Proof.
  apply (proj1 (operations_keep_runs_sorted 1000 one_run
                  ltac:(split; by apply (bool_decide_unpack _)))
               (at_ts 21) (AKU_SUCCESS, true, staged)).
  reflexivity.
Defined.

(** In the staged checkpoint 5 and 8 wait in Ready, both in window 0,
    below the checkpoint id 2. *)
Lemma staged_ready_before_checkpoint : ready_before_checkpoint staged.
Proof.
  apply (ready_values_before_checkpoint 1000).
  exists 10, fresh,
         [OpAdd (at_ts 5); OpAdd (at_ts 8); OpAdd (at_ts 12); OpMerge;
          OpAdd (at_ts 18); OpAdd (at_ts 21)].
  by eexists.
Defined.

(** While the checkpoint is staged, [ts = 35] is due for the next
    checkpoint: [add] returns busy, drops the value and still moves the
    top to 35. *)
Lemma busy_add_moves_top :
  add 1000 (at_ts 35) staged = Some (AKU_EBUSY, false, set_top 35 staged) ∧
  runs_ (set_top 35 staged) = runs_ staged ∧
  top_timestamp_ (set_top 35 staged) = 35.
Proof.
  destruct (add_busy_moves_top 1000 (at_ts 35) staged false (set_top 35 staged))
    as (_ & _ & Hruns & _ & _ & Htop & _); [by vm_compute | reflexivity |].
  by split_and!.
Defined.

(** *** Where the wording and the code part *)

(** C7 as worded fails: 8 is added to the run that ends with 5, whose
    last key is below 8; no run ends at or above 8, and still no new run
    is made. *)
Lemma insert_not_as_worded :
  add 1000 (at_ts 8) five = Some (AKU_SUCCESS, false, five_eight) ∧
  ¬ insert_as_worded (at_ts 8) (runs_ five) (runs_ five_eight).
Proof.
  split; [reflexivity|].
  intros [(i & (r & t & Hr & Ht & Hle & _) & _)|[_ Heq]]; [|done].
  destruct i as [|i]; simplify_eq/=. vm_compute in Ht. simplify_eq.
  by vm_compute in Hle.
Qed.

(** C9 as worded fails after [close]: the value with timestamp 5 is in
    Ready, its window id 0 is not below [checkpoint_], which is 0. *)
Lemma close_breaks_ready_bound :
  reachable 1000 five ∧
  close five = Some (true, five_closed) ∧
  ¬ ready_before_checkpoint five_closed.
Proof.
  split_and!; [apply five_reachable | reflexivity |].
  intros Hb. specialize (Hb [at_ts 5] (at_ts 5)).
  assert (window_id five_closed (at_ts 5) < checkpoint_ five_closed) as Hlt.
  { apply Hb; simpl; by left. }
  by vm_compute in Hlt.
Qed.

(** C6 as worded fails: the active runs hold a value with timestamp 0,
    and the search over [0, ∞) with every parameter matching emits
    nothing. *)
Lemma search_all_misses_zero :
  reachable 1000 zero ∧
  search (match_all AKU_CURSOR_DIR_FORWARD) zero = Emitted [] ∧
  ¬ search_all_emits_all zero.
Proof.
  split_and!; [apply zero_reachable | reflexivity |].
  intros ([|v vs] & Hsearch & Hperm & _).
  - simpl in Hperm. by apply Permutation_nil_cons in Hperm.
  - by vm_compute in Hsearch.
Qed.

(** * Further properties of the code *)

(** ** Values and checkpoint ids *)

(** X1: [operator <] on values is a strict weak order on the key alone:
    it is irreflexive, asymmetric and transitive, so is "not less", and
    two values with the same key are interchangeable in every comparison
    whatever their offsets. *)
Theorem value_less_strict_weak_order :
  (∀ a, value_less a a = false) ∧
  (∀ a b, value_less a b = true → value_less b a = false) ∧
  (∀ a b c, value_less a b = true → value_less b c = true → value_less a c = true) ∧
  (∀ a b c, value_less a b = false → value_less b c = false → value_less a c = false) ∧
  (∀ a b c, key_ a = key_ b →
     value_less a b = false ∧ value_less b a = false ∧
     value_less a c = value_less b c ∧ value_less c a = value_less c b).
Proof.
  split_and!.
  - intros a. apply (key_le_refl a).
  - intros a b Hab. apply not_true_iff_false. rewrite value_less_spec in *. lia.
  - intros a b c. rewrite !value_less_spec. lia.
  - intros a b c. rewrite <- !not_true_iff_false, !value_less_spec. lia.
  - intros a b c Hkey. unfold value_less. rewrite Hkey.
    split_and!; try done; apply not_true_iff_false; rewrite key_less_spec; lia.
Qed.

(** X2: checkpoint ids and timestamps. With a positive window, the
    timestamp of a checkpoint id maps back to the id as long as the
    product fits 64 bits; and the checkpoint of a timestamp below
    [2^32] windows starts the window the timestamp lies in. *)
Theorem checkpoint_round_trip s :
  0 < window_size_ s →
  (∀ cp, 0 <= cp < 2 ^ 32 → cp * window_size_ s < 2 ^ 64 →
         get_checkpoint_ s (get_timestamp_ s cp) = cp) ∧
  (∀ ts, 0 <= ts < 2 ^ 64 → ts / window_size_ s < 2 ^ 32 →
         get_timestamp_ s (get_checkpoint_ s ts) <= ts <
         get_timestamp_ s (get_checkpoint_ s ts) + window_size_ s).
Proof.
  intros Hw. unfold get_checkpoint_, get_timestamp_. split.
  - intros cp Hcp Hfit. rewrite (Z.mod_small (cp * _)) by nia.
    rewrite Z.div_mul by lia. by apply Z.mod_small.
  - intros ts Hts Hsmall.
    pose proof (Z.div_pos ts (window_size_ s)) as Hpos.
    rewrite (Z.mod_small (ts / _)) by lia.
    pose proof (Z.mul_div_le ts (window_size_ s) Hw) as Hle.
    pose proof (Z.mul_succ_div_gt ts (window_size_ s) Hw) as Hgt.
    rewrite Z.mod_small by nia. nia.
Qed.

Lemma checkpoint_round_trip_at_10 :
  get_checkpoint_ fresh (get_timestamp_ fresh 7) = 7 ∧
  get_timestamp_ fresh (get_checkpoint_ fresh 78) <= 78 <
  get_timestamp_ fresh (get_checkpoint_ fresh 78) + 10.
Proof.
  destruct (checkpoint_round_trip fresh ltac:(by vm_compute)) as [Hid Hts].
  split; [apply Hid | apply Hts]; by vm_compute.
Defined.

(** X3: a checkpoint id is a 32-bit number, so it wraps: timestamps
    [2^32] windows apart have the same id. *)
Theorem checkpoint_id_wraps s ts :
  0 < window_size_ s →
  0 <= get_checkpoint_ s ts < 2 ^ 32 ∧
  get_checkpoint_ s (ts + 2 ^ 32 * window_size_ s) = get_checkpoint_ s ts.
Proof.
  intros Hw. unfold get_checkpoint_. split; [by apply Z.mod_pos_bound|].
  rewrite Z.div_add by lia.
  by rewrite <- Zplus_mod_idemp_r, Z_mod_same_full, Z.add_0_r.
Qed.

Lemma checkpoint_id_wraps_at_10 :
  0 <= get_checkpoint_ fresh 25 < 2 ^ 32 ∧
  get_checkpoint_ fresh (25 + 2 ^ 32 * 10) = get_checkpoint_ fresh 25.
Proof. apply (checkpoint_id_wraps fresh 25). by vm_compute. Defined.

(** ** [add], [make_checkpoint_] and [close] on any state *)

Section FurtherSequencer.

Variable AKU_LIMITS_MAX_ID : ParamId.

(** The three ways through [make_checkpoint_]. *)
Lemma make_checkpoint_outcomes new_checkpoint s :
  (progress_flag_ s = true ∧
   make_checkpoint_ AKU_LIMITS_MAX_ID new_checkpoint s = Some (s, false)) ∨
  (progress_flag_ s = false ∧ ready_ s ≠ [] ∧
   make_checkpoint_ AKU_LIMITS_MAX_ID new_checkpoint s = None) ∨
  (progress_flag_ s = false ∧ ready_ s = [] ∧
   ∃ new_runs ready,
     make_checkpoint_ AKU_LIMITS_MAX_ID new_checkpoint s =
     Some (mkSequencer (window_size_ s) (top_timestamp_ s) new_checkpoint
                       new_runs ready (seq_key_ s) true, true)).
Proof.
  unfold make_checkpoint_. destruct (progress_flag_ s); [by left|]. right.
  destruct (ready_ s) as [|r rd]; [right|by left].
  destruct (foldl _ _ _) as [new_runs ready]. split_and!; [done..|]. by eexists _, _.
Qed.

(** The six ways through [add]. *)
Lemma add_outcomes v s :
  (get_ts v < top_timestamp_ s ∧ window_size_ s < top_timestamp_ s - get_ts v ∧
   add AKU_LIMITS_MAX_ID v s = Some (AKU_ELATE_WRITE, false, s)) ∨
  (get_ts v < top_timestamp_ s ∧ top_timestamp_ s - get_ts v <= window_size_ s ∧
   add AKU_LIMITS_MAX_ID v s = Some (AKU_SUCCESS, false, inserted v s)) ∨
  (top_timestamp_ s <= get_ts v ∧ get_checkpoint_ s (get_ts v) <= checkpoint_ s ∧
   add AKU_LIMITS_MAX_ID v s =
   Some (AKU_SUCCESS, false, inserted v (set_top (get_ts v) s))) ∨
  (top_timestamp_ s <= get_ts v ∧ checkpoint_ s < get_checkpoint_ s (get_ts v) ∧
   progress_flag_ s = true ∧
   add AKU_LIMITS_MAX_ID v s = Some (AKU_EBUSY, false, set_top (get_ts v) s)) ∨
  (top_timestamp_ s <= get_ts v ∧ checkpoint_ s < get_checkpoint_ s (get_ts v) ∧
   progress_flag_ s = false ∧ ready_ s ≠ [] ∧
   add AKU_LIMITS_MAX_ID v s = None) ∨
  (top_timestamp_ s <= get_ts v ∧ checkpoint_ s < get_checkpoint_ s (get_ts v) ∧
   progress_flag_ s = false ∧ ready_ s = [] ∧
   ∃ new_runs ready,
     add AKU_LIMITS_MAX_ID v s =
     Some (AKU_SUCCESS, true,
           inserted v (mkSequencer (window_size_ s) (get_ts v)
                         (get_checkpoint_ s (get_ts v)) new_runs ready
                         (seq_key_ s) true))).
Proof.
  destruct (Z.lt_ge_cases (get_ts v) (top_timestamp_ s)) as [Hlt|Hge].
  { destruct (Z.lt_ge_cases (window_size_ s) (top_timestamp_ s - get_ts v)).
    - left. split_and!; [done..|]. by apply add_late.
    - right; left. split_and!; [done..|]. by apply add_in_window. }
  destruct (Z.lt_ge_cases (checkpoint_ s) (get_checkpoint_ s (get_ts v))) as [Hcp|Hcp].
  2:{ right; right; left. split_and!; [done..|]. by apply add_same_window. }
  do 3 right. unfold add, check_timestamp_.
  rewrite (proj2 (Z.ltb_ge _ _) Hge), (proj2 (Z.ltb_lt _ _) Hcp).
  destruct (make_checkpoint_outcomes (get_checkpoint_ s (get_ts v)) s)
    as [[Hp ->]|[(Hp & Hr & ->)|(Hp & Hr & new_runs & ready & ->)]].
  - left. by split_and!.
  - right; left. by split_and!.
  - right; right. split_and!; [done..|]. by exists new_runs, ready.
Qed.

(** X4: whenever [add] returns, with any status, [top_timestamp_] is
    the larger of its old value and the timestamp of the value: a late
    write leaves it, every other call moves it to the value's timestamp,
    also a call that is refused as busy. *)
Theorem add_top_is_max v s status owns s' :
  add AKU_LIMITS_MAX_ID v s = Some (status, owns, s') →
  top_timestamp_ s' = Z.max (top_timestamp_ s) (get_ts v) ∧
  window_size_ s' = window_size_ s.
Proof.
  destruct (add_outcomes v s)
    as [(? & ? & ->)|[(? & ? & ->)|[(? & ? & ->)|[(? & ? & ? & ->)|
        [(? & ? & ? & ? & ->)|(? & ? & ? & ? & nr & rd & ->)]]]]];
    intros; simplify_eq; simpl; split; try done; lia.
Qed.

(** X5: [add] and the progress lock. The lock that [add] returns owns
    the progress mutex exactly when the call moved [checkpoint_], which
    then is the checkpoint id of the value and larger than before; the
    mutex was free, is now held, and the status is [AKU_SUCCESS]. A call
    that returns no owning lock leaves the mutex, [checkpoint_] and Ready
    as they were. [checkpoint_] never decreases. *)
Theorem add_owns_lock_iff_checkpoint v s status owns s' :
  add AKU_LIMITS_MAX_ID v s = Some (status, owns, s') →
  checkpoint_ s <= checkpoint_ s' ∧
  (owns = true ↔ checkpoint_ s < checkpoint_ s') ∧
  (owns = true →
   status = AKU_SUCCESS ∧ progress_flag_ s = false ∧ progress_flag_ s' = true ∧
   checkpoint_ s' = get_checkpoint_ s (get_ts v)) ∧
  (owns = false →
   progress_flag_ s' = progress_flag_ s ∧ ready_ s' = ready_ s ∧
   checkpoint_ s' = checkpoint_ s).
Proof.
  destruct (add_outcomes v s)
    as [(? & ? & ->)|[(? & ? & ->)|[(? & ? & ->)|[(? & ? & ? & ->)|
        [(? & ? & ? & ? & ->)|(? & ? & ? & ? & nr & rd & ->)]]]]];
    intros; simplify_eq; simpl; split_and!; try done; try lia;
    split; try done; lia.
Qed.

(** X6: the exception "sequencer invariant is broken". [add] throws
    exactly when a checkpoint is due (the timestamp is not below
    [top_timestamp_] and its checkpoint id is above [checkpoint_]), the
    progress mutex is free and Ready is not empty; [close] throws exactly
    when the mutex is free and Ready is not empty. *)
Theorem throws_iff_ready_left v s :
  (add AKU_LIMITS_MAX_ID v s = None ↔
   top_timestamp_ s <= get_ts v ∧ checkpoint_ s < get_checkpoint_ s (get_ts v) ∧
   progress_flag_ s = false ∧ ready_ s ≠ []) ∧
  (close s = None ↔ progress_flag_ s = false ∧ ready_ s ≠ []).
Proof.
  split.
  - destruct (add_outcomes v s)
      as [(? & ? & ->)|[(? & ? & ->)|[(? & ? & ->)|[(? & ? & ? & ->)|
          [(? & ? & ? & ? & ->)|(? & ? & ? & ? & nr & rd & ->)]]]]];
      split; try done; try (intros (? & ? & ? & ?); try lia; congruence).
  - unfold close. destruct (progress_flag_ s); [by split; [|intros []]|].
    destruct (ready_ s); split; try done. by intros [].
Qed.

Lemma elem_of_concat {A} (x : A) (ls : list (list A)) :
  x ∈ concat ls ↔ ∃ l, l ∈ ls ∧ x ∈ l.
Proof.
  rewrite list_elem_of_In, in_concat. split; intros (l & Hl & Hx); exists l;
    by rewrite ?list_elem_of_In in *.
Qed.

(** What a checkpoint keeps active of a sorted run is not below the
    target. *)
Lemma spec_active_part_above target run r x :
  run_sorted run → spec_active_part target run = Some r → x ∈ r →
  value_less x target = false.
Proof.
  intros Hs Hr Hx.
  assert (∃ k, run !! (spec_split_position target run + k)%nat = Some x) as [k Hk].
  { unfold spec_active_part in Hr. repeat case_decide; simplify_eq.
    - apply list_elem_of_lookup in Hx as [k Hk]. exists k. by replace (_ + k)%nat with k by lia.
    - apply list_elem_of_lookup in Hx as [k Hk]. exists k. by rewrite lookup_drop in Hk. }
  destruct (lookup_lt_is_Some_2 run (spec_split_position target run)) as [y Hy].
  { apply lookup_lt_Some in Hk. lia. }
  assert (value_less y target = false) as Hyt.
  { rewrite spec_split_position_first in Hy.
    exact (first_not_less_at (λ x, value_less x target) run y Hy). }
  assert (key_le y x) as Hyx.
  { apply run_sorted_strongly in Hs.
    eapply (strongly_sorted_lookup key_le); [done| |done..]. lia. }
  change (key_le target x). by transitivity y.
Qed.

(** X7: a checkpoint cuts the sorted active runs by key. When
    [make_checkpoint_] gets the progress lock on a state with an empty
    Ready, every value it moves to Ready has a key below
    ([old_top], [AKU_LIMITS_MAX_ID]), so a timestamp <= [old_top]; every
    value it leaves active has a key at or above it, so a timestamp >=
    [old_top]; and no value is lost or made up. *)
Theorem checkpoint_cuts_by_key new_checkpoint s :
  progress_flag_ s = false → ready_ s = [] → Forall run_sorted (runs_ s) →
  ∃ s', make_checkpoint_ AKU_LIMITS_MAX_ID new_checkpoint s = Some (s', true) ∧
        checkpoint_ s' = new_checkpoint ∧
        (∀ v, v ∈ concat (ready_ s') →
              value_less v (checkpoint_target AKU_LIMITS_MAX_ID s) = true ∧
              get_ts v <= get_timestamp_ s (checkpoint_ s)) ∧
        (∀ v, v ∈ concat (runs_ s') →
              value_less v (checkpoint_target AKU_LIMITS_MAX_ID s) = false ∧
              get_timestamp_ s (checkpoint_ s) <= get_ts v) ∧
        concat (ready_ s') ++ concat (runs_ s') ≡ₚ concat (runs_ s).
Proof.
  intros Hp Hr Hs. rewrite make_checkpoint_spec by done.
  eexists. split; [done|]. simpl. split_and!; [done| | |apply omap_parts_concat].
  - intros v (r & (run & Hrun & Hpart)%list_elem_of_omap & Hv)%elem_of_concat.
    pose proof (spec_ready_part_below _ _ _ _ Hpart Hv) as Hless.
    split; [done|]. apply value_less_spec in Hless.
    unfold checkpoint_target, get_ts, get_id in *. simpl in *. lia.
  - intros v (r & (run & Hrun & Hpart)%list_elem_of_omap & Hv)%elem_of_concat.
    rewrite Forall_forall in Hs.
    pose proof (spec_active_part_above _ _ _ _ (Hs _ Hrun) Hpart Hv) as Hnl.
    split; [done|]. apply not_true_iff_false in Hnl. rewrite value_less_spec in Hnl.
    unfold checkpoint_target, get_ts, get_id in *. simpl in *. lia.
Qed.

(** ** What holds along every run of a client *)

(** What [add] does to the scalars of the sequencer. *)
Lemma add_frame v s status owns s' :
  add AKU_LIMITS_MAX_ID v s = Some (status, owns, s') →
  top_timestamp_ s' = Z.max (top_timestamp_ s) (get_ts v) ∧
  window_size_ s' = window_size_ s ∧
  checkpoint_ s <= checkpoint_ s'.
Proof.
  destruct (add_outcomes v s)
    as [(? & ? & ->)|[(? & ? & ->)|[(? & ? & ->)|[(? & ? & ? & ->)|
        [(? & ? & ? & ? & ->)|(? & ? & ? & ? & nr & rd & ->)]]]]];
    intros; simplify_eq; simpl; split_and!; try done; lia.
Qed.

Lemma merge_frame owns s events s' :
  merge owns s = Some (events, s') →
  top_timestamp_ s' = top_timestamp_ s ∧ window_size_ s' = window_size_ s ∧
  checkpoint_ s' = checkpoint_ s ∧ runs_ s' = runs_ s ∧
  progress_flag_ s' = progress_flag_ s ∧ seq_key_ s' = seq_key_ s.
Proof.
  unfold merge. destruct owns; simpl; [|intros; by simplify_eq].
  destruct (_ =? _)%nat; [intros; by simplify_eq|].
  destruct (kway_merge _ _); [|done]. intros; by simplify_eq.
Qed.

Lemma client_step_seq_inv s t op s' t' :
  seq_inv s → client_step AKU_LIMITS_MAX_ID (s, t) op = Some (s', t') → seq_inv s'.
Proof.
  intros Hinv. destruct op as [v|]; simpl.
  - destruct (add_seq_inv AKU_LIMITS_MAX_ID v s Hinv) as (st & o & s1 & -> & H1).
    intros; by simplify_eq.
  - destruct (merge_release s Hinv) as (ev & s1 & -> & H1 & _).
    intros; by simplify_eq.
Qed.

(** A property that [add] and [merge] followed by the release of the
    token keep, from states that satisfy the invariant, holds along every
    run of a client. *)
Lemma client_run_keeps (P : Sequencer → Prop) :
  (∀ s v status owns s',
     seq_inv s → P s → add AKU_LIMITS_MAX_ID v s = Some (status, owns, s') → P s') →
  (∀ s events s',
     seq_inv s → P s → merge (progress_flag_ s) s = Some (events, s') →
     P (release (progress_flag_ s) s')) →
  ∀ ops s t s' t',
    seq_inv s → P s →
    client_run AKU_LIMITS_MAX_ID ops (s, t) = Some (s', t') → P s'.
Proof.
  intros Hadd Hmerge.
  induction ops as [|op ops IH]; intros s t s' t' Hinv HP; cbn [client_run].
  { intros; by simplify_eq. }
  destruct (client_step AKU_LIMITS_MAX_ID (s, t) op) as [[s1 t1]|] eqn:Hstep; [|done].
  intros Hrun. apply (IH s1 t1 s' t'); [by eapply client_step_seq_inv| |done].
  destruct op as [v|]; simpl in Hstep.
  - destruct (add AKU_LIMITS_MAX_ID v s) as [[[st o] s2]|] eqn:Ha; simplify_eq.
    by eapply Hadd.
  - destruct (merge (progress_flag_ s) s) as [[ev s2]|] eqn:Hm; simplify_eq.
    by eapply Hmerge.
Qed.

(** X8: a client that hands every owning token to [merge] never meets
    the exception or the assertion of the sequencer: in every state it
    reaches [add] returns for every value, [close] and [merge] return,
    [search] blocks (while a checkpoint is staged) or emits, and Ready is
    empty whenever the progress mutex is free. *)
Theorem client_never_throws s :
  reachable AKU_LIMITS_MAX_ID s →
  (∀ v, ∃ status owns s', add AKU_LIMITS_MAX_ID v s = Some (status, owns, s')) ∧
  (∃ owns s', close s = Some (owns, s')) ∧
  (∃ events s', merge (progress_flag_ s) s = Some (events, s')) ∧
  (∀ q, (progress_flag_ s = true ∧ search q s = Blocked) ∨
        (progress_flag_ s = false ∧ ∃ events, search q s = Emitted events)) ∧
  (progress_flag_ s = false → ready_ s = []).
Proof.
  intros Hinv%reachable_seq_inv. split_and!.
  - intros v. destruct (add_seq_inv AKU_LIMITS_MAX_ID v s Hinv) as (st & o & s' & Ha & _).
    by exists st, o, s'.
  - unfold close. destruct (progress_flag_ s) eqn:Hp; [by eexists _, _|].
    rewrite (inv_ready s Hinv Hp). by eexists _, _.
  - destruct (merge_release s Hinv) as (ev & s' & Hm & _).
    by exists ev, s'.
  - intros q. unfold search. destruct (progress_flag_ s) eqn:Hp; [by left|right].
    split; [done|]. rewrite (inv_ready s Hinv Hp), foldl_filter_run. simpl.
    destruct (kway_merge_total (direction q) (List.filter (SearchPredicate q) <$> runs_ s))
      as (items & -> & _).
    { apply Forall_fmap. eapply Forall_impl; [apply Hinv|]. intros run.
      apply run_sorted_filter. }
    by eexists.
  - by apply inv_ready.
Qed.

(** *** The last keys of the active runs *)

Lemma insert_value_tops v key runs :
  back key = Some v → runs_ordered runs → tops_decrease runs →
  tops_decrease (insert_value v key runs).
Proof.
  intros Hk Ho Ht. unfold tops_decrease in *.
  pose proof (proj2 Ho) as Hne. rewrite Forall_lookup in Hne.
  assert (∀ j r, (j < insert_position key runs)%nat → runs !! j = Some r →
                 ∀ r', back r' = Some v → top_element_more r r' = true) as Hbefore.
  { intros j r Hj Hr r' Hr'. unfold top_element_more, top_element_less. rewrite Hr'.
    destruct (back r) as [t|] eqn:Hb; [|apply last_None in Hb; by destruct (Hne j r)].
    by apply (insert_position_before v key runs j r t). }
  pose proof (insert_position_top v key runs) as Htop.
  destruct (insert_value_cases v key runs) as [[Hend ->]|(r & Hr & ->)].
  - apply StronglySorted_app_2; [|done|repeat constructor].
    intros x1 x2 (j & Hj)%list_elem_of_lookup ->%list_elem_of_singleton.
    apply (Hbefore j); [|done..]. apply lookup_lt_Some in Hj. lia.
  - revert Hbefore Htop Hr. generalize (insert_position key runs).
    intros i Hbefore Htop Hr.
    rewrite <- (take_drop_middle runs i r Hr) in Ht.
    apply StronglySorted_app in Ht as (Hcross & Htake & Hdrop).
    apply StronglySorted_cons in Hdrop as [Hhd Hdrop].
    apply StronglySorted_app_2; [|done|].
    + intros x1 x2 Hx1 [->|Hx2]%elem_of_cons.
      * apply elem_of_take in Hx1 as (j & Hj & Hlt).
        apply (Hbefore j); [done..|]. unfold back. by rewrite last_snoc.
      * apply Hcross; [done|]. by right.
    + constructor; [done|]. rewrite Forall_forall in *. intros y Hy.
      specialize (Hhd y Hy). unfold top_element_more, top_element_less, back in *.
      rewrite last_snoc.
      destruct (list.last y) as [b|]; [|done].
      destruct (list.last r) as [t|] eqn:Hlast; [|done].
      eapply value_less_le_trans; [done|]. by apply (Htop r t).
Qed.

Lemma omap_active_tops target runs :
  tops_decrease runs → tops_decrease (omap (spec_active_part target) runs).
Proof.
  unfold tops_decrease. induction 1 as [|run runs Hs IH Hhd]; [constructor|]. simpl.
  destruct (spec_active_part target run) as [r|] eqn:Hr; [|done].
  constructor; [done|]. apply spec_active_part_back in Hr as [Hr _].
  rewrite Forall_forall in *. intros y (run' & Hin & Hy)%list_elem_of_omap.
  apply spec_active_part_back in Hy as [Hy _].
  unfold top_element_more. erewrite top_element_less_back; [by apply Hhd|done..].
Qed.

(** X9: in every state a client reaches, no active run is empty and the
    last keys of the active runs decrease strictly from each run to the
    next, so no two runs end with the same key and the search of [add]
    finds its range partitioned. *)
Theorem reachable_tops_decrease s :
  reachable AKU_LIMITS_MAX_ID s →
  tops_decrease (runs_ s) ∧ Forall (λ r, r ≠ []) (runs_ s) ∧
  ∀ key, partitioned (λ r, top_element_more r key) (runs_ s).
Proof.
  intros Hreach. pose proof (reachable_seq_inv _ _ Hreach) as Hinv.
  split_and!; [|apply Hinv|intros key; apply ordered_runs_partitioned, Hinv].
  destruct Hreach as (w & s0 & ops & t & Hnew & Hrun).
  apply (client_run_keeps (λ s, tops_decrease (runs_ s))) in Hrun; [done| | | |].
  - clear. intros s v status owns s' Hinv Ht. rewrite add_unfold.
    destruct (check_timestamp_cases AKU_LIMITS_MAX_ID (get_ts v) s Hinv)
      as (st & o & s1 & -> & H1 & Hcases).
    assert (tops_decrease (runs_ s1)) as Ht1.
    { destruct Hcases as [(_ & _ & ->)|[(_ & _ & ->)|[(_ & _ & [->| ->])|
        (_ & _ & _ & _ & ->)]]]; try done. simpl. by apply omap_active_tops. }
    case_decide; intros; simplify_eq; [|done]. simpl.
    apply insert_value_tops; [apply add_key_back|apply H1|done].
  - clear. intros s events s' _ Ht Hm. apply merge_frame in Hm as (_ & _ & _ & Hruns & _).
    unfold release. destruct (progress_flag_ s); simpl; by rewrite Hruns.
  - by eapply seq_inv_new.
  - unfold new_sequencer in Hnew. destruct (w <=? 0); simplify_eq. constructor.
Qed.

(** *** The timestamps *)

Lemma client_step_frame s t op s' t' :
  client_step AKU_LIMITS_MAX_ID (s, t) op = Some (s', t') →
  top_timestamp_ s <= top_timestamp_ s' ∧ checkpoint_ s <= checkpoint_ s' ∧
  window_size_ s' = window_size_ s.
Proof.
  destruct op as [v|]; simpl.
  - destruct (add AKU_LIMITS_MAX_ID v s) as [[[st o] s1]|] eqn:Ha; [|done].
    apply add_frame in Ha as (Htop & Hw & Hcp). intros; simplify_eq.
    split_and!; [lia|done..].
  - destruct (merge (progress_flag_ s) s) as [[ev s1]|] eqn:Hm; [|done].
    apply merge_frame in Hm as (Htop & Hw & Hcp & _). intros; simplify_eq.
    unfold release. destruct (progress_flag_ s); simpl; split_and!; lia.
Qed.

(** X10: along every sequence of [add] and [merge] calls, from any
    state, [top_timestamp_] and [checkpoint_] never decrease and the
    window size never changes. *)
Theorem client_run_monotone ops s t s' t' :
  client_run AKU_LIMITS_MAX_ID ops (s, t) = Some (s', t') →
  top_timestamp_ s <= top_timestamp_ s' ∧ checkpoint_ s <= checkpoint_ s' ∧
  window_size_ s' = window_size_ s.
Proof.
  revert s t. induction ops as [|op ops IH]; intros s t; cbn [client_run].
  { intros; simplify_eq. by split_and!. }
  destruct (client_step AKU_LIMITS_MAX_ID (s, t) op) as [[s1 t1]|] eqn:Hstep; [|done].
  intros (Htop & Hcp & Hw)%IH. apply client_step_frame in Hstep as (Htop1 & Hcp1 & Hw1).
  split_and!; [lia | lia | congruence].
Qed.

Lemma merge_contents owns s events s' v :
  merge owns s = Some (events, s') → v ∈ contents (release owns s') → v ∈ contents s.
Proof.
  assert (contents (release owns s') = contents s') as ->.
  { unfold release. by destruct owns. }
  unfold merge. destruct owns; simpl; [|intros; by simplify_eq].
  destruct (_ =? _)%nat; [intros; by simplify_eq|].
  destruct (kway_merge _ _); [|done]. intros; simplify_eq.
  unfold contents in *. simpl in *. apply elem_of_app. by right.
Qed.

(** X11: in every state a client reaches, no value held in an active run
    or in Ready has a timestamp above [top_timestamp_]. *)
Theorem reachable_below_top s :
  reachable AKU_LIMITS_MAX_ID s → below_top s.
Proof.
  intros (w & s0 & ops & t & Hnew & Hrun).
  apply (client_run_keeps below_top) in Hrun; [done| | | |].
  - clear. intros s v status owns s' Hinv Hb Hadd x.
    rewrite (add_contents _ _ _ _ _ _ Hinv Hadd).
    apply add_frame in Hadd as (-> & _). rewrite elem_of_app.
    intros [Hx|Hx%Hb]; [|lia].
    case_decide; [apply list_elem_of_singleton in Hx as ->; lia|by apply elem_of_nil in Hx].
  - clear. intros s events s' _ Hb Hm x Hx.
    pose proof (merge_contents _ _ _ _ _ Hm Hx) as Hin%Hb.
    apply merge_frame in Hm as (Htop & _).
    assert (top_timestamp_ (release (progress_flag_ s) s') = top_timestamp_ s') as ->.
    { unfold release. by destruct (progress_flag_ s). }
    lia.
  - by eapply seq_inv_new.
  - unfold new_sequencer in Hnew. destruct (w <=? 0); simplify_eq.
    intros x Hx. by apply elem_of_nil in Hx.
Qed.

End FurtherSequencer.
Lemma add_top_is_max_late :
  top_timestamp_ top_100 = Z.max (top_timestamp_ top_100) (get_ts (at_ts 89)) ∧
  window_size_ top_100 = window_size_ top_100.
Proof.
  apply (add_top_is_max 1000 (at_ts 89) top_100 AKU_ELATE_WRITE false top_100).
  reflexivity.
Defined.

Lemma add_owns_lock_at_21 :
  checkpoint_ one_run <= checkpoint_ staged ∧
  (true = true ↔ checkpoint_ one_run < checkpoint_ staged) ∧
  (true = true →
   AKU_SUCCESS = AKU_SUCCESS ∧ progress_flag_ one_run = false ∧
   progress_flag_ staged = true ∧
   checkpoint_ staged = get_checkpoint_ one_run (get_ts (at_ts 21))) ∧
  (true = false →
   progress_flag_ staged = progress_flag_ one_run ∧ ready_ staged = ready_ one_run ∧
   checkpoint_ staged = checkpoint_ one_run).
Proof.
  apply (add_owns_lock_iff_checkpoint 1000 (at_ts 21) one_run AKU_SUCCESS true staged).
  reflexivity.
Defined.

(** The checkpoint that adding 21 to the one run triggers cuts it
    between 8 and 12. *)
Lemma checkpoint_cuts_one_run :
  ∃ s', make_checkpoint_ 1000 2 one_run = Some (s', true) ∧
        ready_ s' = [[at_ts 5; at_ts 8]] ∧ runs_ s' = [[at_ts 12; at_ts 18]].
Proof.
  destruct (checkpoint_cuts_by_key 1000 2 one_run) as (s' & Hmk & _); try done.
  { by apply (bool_decide_unpack _). }
  exists s'. split; [done|]. vm_compute in Hmk. by simplify_eq.
Defined.

Lemma staged_never_throws :
  (∀ v, ∃ status owns s', add 1000 v staged = Some (status, owns, s')) ∧
  (∃ owns s', close staged = Some (owns, s')) ∧
  (∃ events s', merge (progress_flag_ staged) staged = Some (events, s')) ∧
  (∀ q, (progress_flag_ staged = true ∧ search q staged = Blocked) ∨
        (progress_flag_ staged = false ∧ ∃ events, search q staged = Emitted events)) ∧
  (progress_flag_ staged = false → ready_ staged = []).
Proof.
  apply (client_never_throws 1000 staged).
  exists 10, fresh,
         [OpAdd (at_ts 5); OpAdd (at_ts 8); OpAdd (at_ts 12); OpMerge;
          OpAdd (at_ts 18); OpAdd (at_ts 21)].
  by eexists.
Defined.

Lemma five_eight_tops_decrease :
  tops_decrease (runs_ five_eight) ∧ Forall (λ r, r ≠ []) (runs_ five_eight) ∧
  ∀ key, partitioned (λ r, top_element_more r key) (runs_ five_eight).
Proof.
  apply (reachable_tops_decrease 1000 five_eight).
  exists 10, fresh, [OpAdd (at_ts 5); OpAdd (at_ts 8)]. by eexists.
Defined.

Lemma fresh_to_five_monotone :
  top_timestamp_ fresh <= top_timestamp_ five ∧ checkpoint_ fresh <= checkpoint_ five ∧
  window_size_ five = window_size_ fresh.
Proof.
  apply (client_run_monotone 1000 [OpAdd (at_ts 5)] fresh (mkTrace [] [])
           five (mkTrace [at_ts 5] [])).
  reflexivity.
Defined.

Lemma staged_below_top : below_top staged.
Proof.
  apply (reachable_below_top 1000 staged).
  exists 10, fresh,
         [OpAdd (at_ts 5); OpAdd (at_ts 8); OpAdd (at_ts 12); OpMerge;
          OpAdd (at_ts 18); OpAdd (at_ts 21)].
  by eexists.
Defined.

(** ** The k-way merge on any runs *)

Lemma kway_next_covers cmp iter heap m r iter' heap' :
  heap_covers iter heap →
  heap_extract cmp heap = Some (m, r) →
  kway_next iter m r = (iter', heap') →
  heap_covers iter' heap'.
Proof.
  intros [Hrep Hnd] He%heap_extract_perm Hnext.
  assert (NoDup (m.2 :: r.*2)) as Hnd'.
  { by rewrite He in Hnd. }
  apply NoDup_cons in Hnd' as [Hm Hr].
  unfold kway_next in Hnext.
  destruct (iter !! m.2) as [[|p rest]|] eqn:Hi; simplify_eq.
  1,3: split; [|done];
    intros i w rest Hiw; destruct (Hrep i w rest Hiw) as [v Hv];
    exists v; rewrite He in Hv; apply elem_of_cons in Hv as [<-|Hv];
    [simpl in *; congruence | done].
  split.
  - intros i w rest' [(<- & Heq & _)|[Hne Hi']]%list_lookup_insert_Some.
    + exists p. by left.
    + destruct (Hrep i w rest' Hi') as [v Hv]. exists v. right.
      rewrite He in Hv. apply elem_of_cons in Hv as [<-|Hv]; [done|done].
  - simpl. by apply NoDup_cons.
Qed.

Lemma kway_next_runs cmp iter heap m r iter' heap' i :
  NoDup heap.*2 →
  heap_extract cmp heap = Some (m, r) →
  kway_next iter m r = (iter', heap') →
  of_run i heap ++ (tag i <$> default [] (iter !! i)) =
  of_run i [m] ++ of_run i heap' ++ (tag i <$> default [] (iter' !! i)).
Proof.
  intros Hnd He%heap_extract_perm Hnext.
  rewrite (of_run_perm i heap (m :: r) Hnd He).
  assert (m.2 ∉ r.*2) as Hm.
  { rewrite He in Hnd. by apply NoDup_cons in Hnd as []. }
  change (of_run i (m :: r)) with (of_run i ([m] ++ r)).
  unfold of_run at 1. rewrite filter_app. fold (of_run i [m]) (of_run i r).
  rewrite <- app_assoc. f_equal.
  unfold kway_next in Hnext.
  destruct (iter !! m.2) as [[|p rest]|] eqn:Hi; simplify_eq; try done.
  destruct (decide (i = m.2)) as [->|Hne].
  - rewrite Hi, list_lookup_insert_eq by (by eapply lookup_lt_Some).
    rewrite (of_run_absent _ r Hm). simpl. unfold heap_push, of_run.
    rewrite filter_cons_True by done. fold (of_run m.2 r).
    by rewrite (of_run_absent _ r Hm).
  - rewrite list_lookup_insert_ne by done. unfold heap_push, of_run.
    by rewrite filter_cons_False by (simpl; congruence).
Qed.

(** The loop on runs in any order: it still ends, emits every element
    once, and those of each run in the order its iterator gives them. *)
Lemma kway_loop_covers dir fuel iter heap :
  heap_covers iter heap →
  (length heap + length (concat iter) ≤ fuel)%nat →
  ∃ out, kway_loop dir fuel iter heap = Some out ∧
         out ≡ₚ heap ++ tagged_from 0 iter ∧
         ∀ i, of_run i out = of_run i heap ++ (tag i <$> default [] (iter !! i)).
Proof.
  assert (∀ iter, heap_covers iter [] →
            tagged_from 0 iter = [] ∧ ∀ i, default [] (iter !! i) = []) as Hdone.
  { intros it Hc.
    assert (∀ i w rest, it !! i ≠ Some (w :: rest)) as Hempty.
    { intros i w rest Hi. destruct (covers_rep _ _ Hc i w rest Hi) as [v Hv].
      by apply elem_of_nil in Hv. }
    split; [by apply tagged_from_empty|]. intros i.
    destruct (it !! i) as [[|w rest]|] eqn:Hi; [done| |done].
    by destruct (Hempty i w rest). }
  revert iter heap. induction fuel as [|fuel IH]; intros iter heap Hinv Hfuel;
    rewrite kway_loop_unfold;
    destruct (heap_extract (MergePred dir) heap) as [[m r]|] eqn:He.
  - apply heap_extract_perm, Permutation_length in He. simpl in He. lia.
  - destruct heap; [|done]. destruct (Hdone iter Hinv) as [Ht Hi].
    exists []. rewrite Ht. split_and!; [done..|]. intros i. by rewrite Hi.
  - destruct (kway_next iter m r) as [iter' heap'] eqn:Hnext.
    pose proof (kway_next_perm _ _ _ _ _ _ _ He Hnext) as Hperm.
    destruct (IH iter' heap') as (out & -> & Hout & Hruns).
    { by eapply kway_next_covers. }
    { apply Permutation_length in Hperm. revert Hperm. simpl.
      rewrite !length_app, !tagged_from_length. lia. }
    exists (m :: out). split_and!; [done | |].
    + by rewrite Hperm, Hout.
    + intros i. change (m :: out) with ([m] ++ out).
      unfold of_run at 1. rewrite filter_app. fold (of_run i [m]) (of_run i out).
      rewrite Hruns. symmetry. eapply kway_next_runs; [|done..].
      apply (covers_nodup _ _ Hinv).
  - destruct heap; [|done]. destruct (Hdone iter Hinv) as [Ht Hi].
    exists []. rewrite Ht. split_and!; [done..|]. intros i. by rewrite Hi.
Qed.

Lemma seeded_covers iter :
  heap_covers (tail <$> iter) (reverse (heads_from 0 iter)).
Proof.
  split.
  - intros i w rest. rewrite list_lookup_fmap.
    destruct (iter !! i) as [[|v l]|] eqn:Hi; intros; simplify_eq/=.
    exists v. apply elem_of_reverse, heads_from_elem. by exists i, (w :: rest).
  - rewrite fmap_reverse, reverse_Permutation. apply heads_from_nodup.
Qed.

Lemma kway_merge_items_any dir runs :
  ∃ items, kway_merge_items dir runs = Some items ∧
           items ≡ₚ tagged_from 0 (RunIter dir <$> runs) ∧
           ∀ i, (of_run i items).*1 = RunIter dir (default [] (runs !! i)).
Proof.
  unfold kway_merge_items. rewrite kway_seed_spec, app_nil_r.
  set (iter := RunIter dir <$> runs).
  pose proof (heads_from_tagged 0 iter) as Hheads.
  destruct (kway_loop_covers dir (length (concat runs)) (tail <$> iter)
              (reverse (heads_from 0 iter))) as (items & -> & Hperm & Hruns).
  { apply seeded_covers. }
  { apply Permutation_length in Hheads.
    rewrite length_app, !tagged_from_length in Hheads.
    rewrite length_reverse, Hheads. unfold iter. by rewrite concat_RunIter. }
  exists items. split_and!; [done | |].
  - by rewrite Hperm, reverse_Permutation, Hheads.
  - intros i. rewrite Hruns.
    rewrite (of_run_perm i (reverse (heads_from 0 iter)) (heads_from 0 iter)).
    2:{ rewrite fmap_reverse, reverse_Permutation. apply heads_from_nodup. }
    2:{ apply reverse_Permutation. }
    unfold tag. rewrite heads_from_of_run. unfold iter. rewrite list_lookup_fmap.
    rewrite <- list_fmap_compose.
    destruct (runs !! i) as [run|]; simpl; [|by destruct dir].
    apply list_fmap_id.
Qed.

(** X12: [kway_merge] does not rely on its runs being sorted to end or
    to keep the elements. On any runs it returns after one [put] per
    element: the values put are those of the runs, each as often as the
    runs hold it, and the values of one run come out in the order its
    iterator visits them (first to last forward, last to first
    backward). *)
Theorem kway_merge_any_runs dir runs :
  ∃ items : list HeapItem,
    kway_merge_items dir runs = Some items ∧
    kway_merge dir runs = Some (puts items) ∧
    items.*1 ≡ₚ concat runs ∧
    length (puts items) = length (concat runs) ∧
    ∀ i run, runs !! i = Some run → (of_run i items).*1 = RunIter dir run.
Proof.
  destruct (kway_merge_items_any dir runs) as (items & Hitems & Hperm & Hruns).
  assert (items.*1 ≡ₚ concat runs) as Hvalues.
  { by rewrite Hperm, tagged_from_fst, concat_RunIter. }
  exists items. unfold kway_merge, puts. rewrite Hitems.
  split_and!; [done | done | done | |].
  - apply Permutation_length in Hvalues. rewrite length_fmap in Hvalues.
    by rewrite length_fmap.
  - intros i run Hi. rewrite Hruns. unfold SortedRun in *. by rewrite Hi.
Qed.

(** ** What fixes the output of the merge *)

Lemma of_run_cons i (x : HeapItem) (l : list HeapItem) :
  of_run i (x :: l) = if decide (x.2 = i) then x :: of_run i l else of_run i l.
Proof. unfold of_run. by rewrite filter_cons. Qed.

Lemma of_run_elem i (x : HeapItem) (l : list HeapItem) :
  x ∈ of_run i l ↔ x.2 = i ∧ x ∈ l.
Proof. unfold of_run. by rewrite list_elem_of_filter. Qed.

Lemma of_run_tag i (l : list HeapItem) : of_run i l = tag i <$> (of_run i l).*1.
Proof.
  induction l as [|[v j] l IH]; [done|]. rewrite of_run_cons. simpl.
  case_decide; simplify_eq/=; [|done]. unfold tag at 1. by f_equal.
Qed.

Lemma of_run_all i (l : list HeapItem) :
  Forall (λ it : HeapItem, it.2 = i) l → of_run i l = l.
Proof.
  induction 1 as [|x l Hx Hl IH]; [done|].
  by rewrite of_run_cons, decide_True, IH.
Qed.

Lemma of_run_reverse i (l : list HeapItem) :
  of_run i (reverse l) = reverse (of_run i l).
Proof. unfold of_run. by rewrite filter_reverse. Qed.

(** A list of heap items in [item_order] is fixed by what it holds of
    each run. *)
Lemma merge_order_unique dir (l1 l2 : list HeapItem) :
  StronglySorted (item_order dir) l1 → StronglySorted (item_order dir) l2 →
  (∀ i, of_run i l1 = of_run i l2) → l1 = l2.
Proof.
  intros Hs1. revert l2. induction Hs1 as [|a l1 Hs1 IH Ha]; intros l2 Hs2 Hruns.
  { destruct l2 as [|b l2]; [done|]. specialize (Hruns b.2).
    rewrite of_run_cons, decide_True in Hruns by done. done. }
  destruct l2 as [|b l2].
  { specialize (Hruns a.2). rewrite of_run_cons, decide_True in Hruns by done. done. }
  apply StronglySorted_cons in Hs2 as [Hb Hs2].
  rewrite Forall_forall in Ha, Hb.
  assert (item_order dir a b) as Hab.
  { assert (b ∈ of_run b.2 (a :: l1)) as [_ Hin]%of_run_elem.
    { rewrite Hruns, of_run_cons, decide_True by done. by left. }
    apply elem_of_cons in Hin as [->|Hin]; [reflexivity | by apply Ha]. }
  assert (item_order dir b a) as Hba.
  { assert (a ∈ of_run a.2 (b :: l2)) as [_ Hin]%of_run_elem.
    { rewrite <- Hruns, of_run_cons, decide_True by done. by left. }
    apply elem_of_cons in Hin as [->|Hin]; [reflexivity | by apply Hb]. }
  destruct (item_order_antisym dir a b Hab Hba) as [Hidx _].
  pose proof (Hruns a.2) as Hhead.
  rewrite !of_run_cons, decide_True in Hhead by done.
  rewrite decide_True in Hhead by done. simplify_eq. f_equal.
  apply IH; [done|]. intros i. specialize (Hruns i).
  rewrite !of_run_cons in Hruns. case_decide; by simplify_eq.
Qed.

Lemma strongly_sorted_reverse {A} (R R' : relation A) (l : list A) :
  (∀ a b, R a b → R' b a) → StronglySorted R l → StronglySorted R' (reverse l).
Proof.
  intros Hflip. induction 1 as [|x l Hs IH Hx]; [constructor|].
  rewrite reverse_cons. apply StronglySorted_app_2; [|done | repeat constructor].
  intros y z Hy ->%list_elem_of_singleton. rewrite elem_of_reverse in Hy.
  rewrite Forall_forall in Hx. by apply Hflip, Hx.
Qed.

Lemma strongly_sorted_filter {A} (R : relation A) (P : A → bool) (l : list A) :
  StronglySorted R l → StronglySorted R (List.filter P l).
Proof.
  induction 1 as [|x l Hs IH Hx]; simpl; [constructor|].
  destruct (P x); [|done]. constructor; [done|].
  rewrite Forall_forall in Hx |- *. intros y Hy. apply Hx.
  apply list_elem_of_In in Hy. apply filter_In in Hy as [Hy _].
  by apply list_elem_of_In.
Qed.

Lemma filter_reverse_bool {A} (P : A → bool) (l : list A) :
  List.filter P (reverse l) = reverse (List.filter P l).
Proof.
  induction l as [|x l IH]; [done|]. rewrite reverse_cons, List.filter_app, IH.
  simpl. destruct (P x); [by rewrite reverse_cons | by rewrite app_nil_r].
Qed.

Lemma filter_RunIter dir (P : TimeSeriesValue → bool) run :
  List.filter P (RunIter dir run) = RunIter dir (List.filter P run).
Proof. destruct dir; simpl; [done | apply filter_reverse_bool]. Qed.

Lemma of_run_filter i (P : HeapItem → bool) (l : list HeapItem) :
  of_run i (List.filter P l) = List.filter P (of_run i l).
Proof.
  induction l as [|x l IH]; [done|]. simpl. rewrite of_run_cons.
  destruct (P x) eqn:HP; rewrite ?of_run_cons; case_decide; simpl;
    rewrite ?HP, IH; done.
Qed.

Lemma filter_tag i (P : TimeSeriesValue → bool) (l : list TimeSeriesValue) :
  List.filter (λ it : HeapItem, P it.1) (tag i <$> l) = tag i <$> List.filter P l.
Proof.
  induction l as [|x l IH]; [done|]. rewrite fmap_cons. cbn [List.filter].
  change (P (tag i x).1) with (P x). destruct (P x); rewrite ?fmap_cons, IH; done.
Qed.

(** Backward, the merge of sorted runs emits what it emits forward, last
    item first. *)
Lemma kway_merge_items_backward runs :
  Forall run_sorted runs →
  kway_merge_items AKU_CURSOR_DIR_BACKWARD runs =
  reverse <$> kway_merge_items AKU_CURSOR_DIR_FORWARD runs.
Proof.
  intros Hs.
  destruct (kway_merge_items_total AKU_CURSOR_DIR_FORWARD runs Hs)
    as (fwd & -> & _ & Hfwd & Hruns_f).
  destruct (kway_merge_items_total AKU_CURSOR_DIR_BACKWARD runs Hs)
    as (bwd & -> & _ & Hbwd & Hruns_b).
  simpl. f_equal.
  apply (merge_order_unique AKU_CURSOR_DIR_BACKWARD); [done | |].
  - by apply (strongly_sorted_reverse (item_order AKU_CURSOR_DIR_FORWARD)).
  - intros i. rewrite of_run_reverse, (of_run_tag i bwd), (of_run_tag i fwd).
    rewrite Hruns_b, Hruns_f. simpl. by rewrite fmap_reverse.
Qed.

(** Dropping values before or after the merge of sorted runs gives the
    same items. *)
Lemma kway_merge_items_filter dir (P : TimeSeriesValue → bool) runs :
  Forall run_sorted runs →
  kway_merge_items dir (List.filter P <$> runs) =
  List.filter (λ it : HeapItem, P it.1) <$> kway_merge_items dir runs.
Proof.
  intros Hs.
  destruct (kway_merge_items_total dir runs Hs) as (all & -> & _ & Hall & Hruns).
  destruct (kway_merge_items_total dir (List.filter P <$> runs))
    as (some & -> & _ & Hsome & Hruns').
  { apply Forall_fmap. eapply Forall_impl; [done|]. intros run.
    apply run_sorted_filter. }
  simpl. f_equal.
  apply (merge_order_unique dir); [done | by apply strongly_sorted_filter |].
  intros i. rewrite of_run_filter, (of_run_tag i some), (of_run_tag i all).
  rewrite Hruns', Hruns, filter_tag, filter_RunIter, list_lookup_fmap.
  unfold SortedRun in *. by destruct (runs !! i).
Qed.

(** X13: the direction of the merge only reverses its output. Over
    sorted runs, [kway_merge] backward puts to the cursor the offsets it
    puts forward, in the opposite order; ties between runs included,
    since [MergePred] and [RunIter] are both mirrored. *)
Theorem kway_merge_backward_reverses runs :
  Forall run_sorted runs →
  ∃ events,
    kway_merge AKU_CURSOR_DIR_FORWARD runs = Some events ∧
    kway_merge AKU_CURSOR_DIR_BACKWARD runs = Some (reverse events).
Proof.
  intros Hs. unfold kway_merge. rewrite (kway_merge_items_backward runs Hs).
  destruct (kway_merge_items_total AKU_CURSOR_DIR_FORWARD runs Hs)
    as (fwd & -> & _).
  eexists. split; [done|]. simpl. by rewrite fmap_reverse.
Qed.

(** X14: a merge with one run to read copies it. If every run but one
    is empty, [kway_merge] puts the offsets of that run in the order its
    iterator gives them, sorted or not. *)
Theorem kway_merge_lone_run dir runs i run :
  runs !! i = Some run →
  (∀ j r, j ≠ i → runs !! j = Some r → r = []) →
  kway_merge dir runs = Some (Put ∘ value <$> RunIter dir run).
Proof.
  intros Hi Hothers.
  destruct (kway_merge_items_any dir runs) as (items & Hitems & Hperm & Hruns).
  unfold kway_merge. rewrite Hitems. simpl. f_equal.
  assert (of_run i items = items) as Hall.
  { apply of_run_all. apply Forall_forall. intros [w j] Hw.
    rewrite Hperm in Hw. apply tagged_from_elem in Hw as (k & rest & -> & Hk & Hin).
    simpl. destruct (decide (k = i)) as [->|Hne]; [done|].
    rewrite list_lookup_fmap in Hk.
    destruct (runs !! k) as [r|] eqn:Hr; simplify_eq/=.
    rewrite (Hothers k r Hne Hr) in Hin. destruct dir; by apply elem_of_nil in Hin. }
  specialize (Hruns i). rewrite Hall in Hruns. unfold SortedRun in *.
  rewrite Hi in Hruns. simpl in Hruns. rewrite <- Hruns, <- list_fmap_compose.
  done.
Qed.

Lemma merge_A_B_backward :
  ∃ events,
    kway_merge AKU_CURSOR_DIR_FORWARD [run_A; run_B] = Some events ∧
    kway_merge AKU_CURSOR_DIR_BACKWARD [run_A; run_B] = Some (reverse events).
Proof.
  apply (kway_merge_backward_reverses [run_A; run_B]).
  by apply (bool_decide_unpack _).
Defined.

Lemma lone_run_copied :
  kway_merge AKU_CURSOR_DIR_FORWARD lone_run = Some [Put 8; Put 5].
Proof.
  apply (kway_merge_lone_run AKU_CURSOR_DIR_FORWARD lone_run 1 [at_ts 8; at_ts 5]).
  - reflexivity.
  - intros [|[|[|j]]] r Hne Hj; vm_compute in Hj; congruence.
Defined.

(** ** Search, merge and close on any state *)

(** X15: filtering each run before the merge, as [search] does, emits
    what one merge of the whole active runs emits once the items that
    [SearchPredicate] refuses are dropped from it: the filter changes
    neither the order of what is left nor how ties between runs fall. *)
Theorem search_filters_the_merge q s :
  progress_flag_ s = false → ready_ s = [] → Forall run_sorted (runs_ s) →
  ∃ items : list HeapItem,
    kway_merge_items (direction q) (runs_ s) = Some items ∧
    search q s =
    Emitted (puts (List.filter (λ it : HeapItem, SearchPredicate q it.1) items)).
Proof.
  intros Hp Hr Hs. unfold search. rewrite Hp, Hr, foldl_filter_run. simpl.
  unfold kway_merge. rewrite (kway_merge_items_filter _ _ _ Hs).
  destruct (kway_merge_items_total (direction q) (runs_ s) Hs) as (items & -> & _).
  by exists items.
Qed.

Lemma one_run_search_filters :
  ∃ items : list HeapItem,
    kway_merge_items AKU_CURSOR_DIR_BACKWARD (runs_ one_run) = Some items ∧
    search between_5_18 one_run =
    Emitted (puts (List.filter
                     (λ it : HeapItem, SearchPredicate between_5_18 it.1) items)).
Proof.
  apply (search_filters_the_merge between_5_18 one_run);
    [reflexivity | reflexivity | by apply (bool_decide_unpack _)].
Defined.

(** With the lock, [merge] reports [AKU_ENO_DATA] on an empty Ready
    and otherwise puts every value of Ready and completes. *)
Lemma merge_with_lock s :
  ∃ events s',
    merge true s = Some (events, s') ∧
    ((ready_ s = [] ∧ events = [SetError AKU_ENO_DATA] ∧ s' = s) ∨
     (ready_ s ≠ [] ∧
      ∃ items : list HeapItem,
        events = puts items ++ [Complete] ∧
        items.*1 ≡ₚ concat (ready_ s) ∧
        ready_ s' = [] ∧ runs_ s' = runs_ s)).
Proof.
  unfold merge. simpl.
  destruct (ready_ s) as [|r rd] eqn:Hr; simpl.
  { exists [SetError AKU_ENO_DATA], s. split; [done|]. by left. }
  destruct (kway_merge_items_any AKU_CURSOR_DIR_FORWARD (r :: rd))
    as (items & Hitems & Hperm & _).
  unfold kway_merge. rewrite Hitems. simpl.
  do 2 eexists. split; [done|]. right. split; [done|].
  exists items. split_and!; [done | | done..].
  by rewrite Hperm, tagged_from_fst, concat_RunIter.
Qed.

(** X16: [merge] returns in every state, sorted or not, and ends in one
    of three ways. Without the lock it reports [AKU_EBUSY]; with it and
    nothing in Ready it reports [AKU_ENO_DATA]; in both cases nothing
    else reaches the cursor and the sequencer is left as it was.
    Otherwise it puts one offset per value in Ready, then completes, and
    only Ready changes: it is emptied, so a second [merge] with the same
    token reports [AKU_ENO_DATA]. The progress lock is not released by
    [merge] itself. *)
Theorem merge_ends_in_one_of_three owns s :
  ∃ events s',
    merge owns s = Some (events, s') ∧
    progress_flag_ s' = progress_flag_ s ∧ runs_ s' = runs_ s ∧
    top_timestamp_ s' = top_timestamp_ s ∧ checkpoint_ s' = checkpoint_ s ∧
    ((owns = false ∧ events = [SetError AKU_EBUSY] ∧ s' = s) ∨
     (owns = true ∧ ready_ s = [] ∧ events = [SetError AKU_ENO_DATA] ∧ s' = s) ∨
     (owns = true ∧ ready_ s ≠ [] ∧
      ∃ items : list HeapItem,
        events = puts items ++ [Complete] ∧
        items.*1 ≡ₚ concat (ready_ s) ∧
        ready_ s' = [] ∧
        merge owns s' = Some ([SetError AKU_ENO_DATA], s'))).
Proof.
  unfold merge. destruct owns; simpl.
  2:{ exists [SetError AKU_EBUSY], s. split_and!; [done..|]. by left. }
  destruct (ready_ s) as [|r rd] eqn:Hr; simpl.
  { exists [SetError AKU_ENO_DATA], s. split_and!; [done..|]. right; left.
    by split_and!. }
  destruct (kway_merge_items_any AKU_CURSOR_DIR_FORWARD (r :: rd))
    as (items & Hitems & Hperm & _).
  unfold kway_merge. rewrite Hitems. simpl.
  do 2 eexists. split_and!; [done..|]. right; right.
  split_and!; [done..|]. exists items. split_and!; [done | | done..].
  by rewrite Hperm, tagged_from_fst, concat_RunIter.
Qed.

(** X17: [close] that gets the progress lock moves every active run to
    Ready, keeps what the sequencer holds, and leaves the lock held; one
    that does not get it changes nothing. Either way the sequencer is
    then closed to others until the lock is released: [search] is
    blocked on the lock and a second [close] returns a token that does
    not own it. *)
Theorem close_holds_the_lock s owns s' :
  close s = Some (owns, s') →
  owns = negb (progress_flag_ s) ∧
  progress_flag_ s' = true ∧
  contents s' = contents s ∧
  top_timestamp_ s' = top_timestamp_ s ∧ checkpoint_ s' = checkpoint_ s ∧
  (owns = true → runs_ s' = [] ∧ ready_ s' = runs_ s) ∧
  (owns = false → s' = s) ∧
  close s' = Some (false, s') ∧
  ∀ q, search q s' = Blocked.
Proof.
  unfold close, search. destruct (progress_flag_ s) eqn:Hp.
  { intros; simplify_eq. rewrite Hp. by split_and!. }
  destruct (ready_ s) as [|r rd] eqn:Hr; [|done]. intros; simplify_eq. simpl.
  split_and!; try done. unfold contents. simpl. by rewrite Hr, app_nil_r.
Qed.

Lemma five_close_holds_the_lock :
  close five_closed = Some (false, five_closed) ∧
  ∀ q, search q five_closed = Blocked.
Proof.
  destruct (close_holds_the_lock five true five_closed) as (_ & _ & _ & _ & _ & _ & _ & H);
    [reflexivity | exact H].
Defined.

(** X18: what one call of [add] does to the values held, in a state a
    client reaches. The status is [AKU_SUCCESS], [AKU_ELATE_WRITE] or
    [AKU_EBUSY]. A call that succeeds adds the value once and keeps every
    other value (a checkpoint it triggers only moves values from the
    active runs to Ready); a call that is refused leaves the active runs
    and Ready as they were. *)
Theorem add_keeps_what_is_held max_id v s status owns s' :
  reachable max_id s →
  add max_id v s = Some (status, owns, s') →
  status ≠ AKU_ENO_DATA ∧
  (status = AKU_SUCCESS → contents s' ≡ₚ v :: contents s) ∧
  (status ≠ AKU_SUCCESS → runs_ s' = runs_ s ∧ ready_ s' = ready_ s).
Proof.
  intros Hinv%reachable_seq_inv Hadd.
  pose proof (add_contents max_id v s status owns s' Hinv Hadd) as Hheld.
  destruct (add_outcomes max_id v s)
    as [(_ & _ & H)|[(_ & _ & H)|[(_ & _ & H)|[(_ & _ & _ & H)|
        [(_ & _ & _ & _ & H)|(_ & _ & _ & _ & nr & rd & H)]]]]];
    rewrite H in Hadd; simplify_eq; split_and!; try done.
  all: intros _; by rewrite decide_True in Hheld.
Qed.

Lemma one_run_add_keeps_what_is_held :
  contents staged ≡ₚ at_ts 21 :: contents one_run.
Proof.
  destruct (add_keeps_what_is_held 1000 (at_ts 21) one_run AKU_SUCCESS true staged)
    as (_ & H & _); [exact one_run_reachable | reflexivity | by apply H].
Defined.

(** ** The stripe locks *)

Section RunLockProperties.

Variable RUN_LOCK_FLAGS_SIZE RUN_LOCK_FLAGS_MASK : Z.
Variable RUN_LOCK_BUSY_COUNT RUN_LOCK_MAX_BACKOFF : Z.

Local Abbreviation slot := (stripe RUN_LOCK_FLAGS_MASK).
Local Abbreviation spin := (lock_run_loop RUN_LOCK_FLAGS_MASK RUN_LOCK_MAX_BACKOFF).
Local Abbreviation lock :=
  (lock_run RUN_LOCK_FLAGS_MASK RUN_LOCK_BUSY_COUNT RUN_LOCK_MAX_BACKOFF).
Local Abbreviation unlock := (unlock_run RUN_LOCK_FLAGS_MASK).

(** The mask keeps every index, negative ones too, between 0 and the
    mask. *)
Lemma stripe_range ix :
  0 <= RUN_LOCK_FLAGS_MASK → 0 <= slot ix <= RUN_LOCK_FLAGS_MASK.
Proof.
  intros Hm. unfold stripe. split.
  - apply Z.land_nonneg. by left.
  - pose proof (Z.sub_land_same_l RUN_LOCK_FLAGS_MASK ix) as Hsub.
    assert (0 <= Z.land RUN_LOCK_FLAGS_MASK (Z.lnot ix)).
    { apply Z.land_nonneg. by left. }
    lia.
Qed.

Lemma test_and_set_spec i flags b :
  0 <= i → flags !! Z.to_nat i = Some b →
  test_and_set i flags = Some (b, <[Z.to_nat i := true]> flags).
Proof.
  intros Hs Hb. unfold test_and_set.
  rewrite (proj2 (Z.ltb_ge _ _) Hs). by rewrite Hb.
Qed.

(** A stripe that is set and that nobody clears keeps its caller in the
    loop, with the flags as they were. *)
Lemma lock_run_loop_waits fuel ix flags counter backoff slept :
  0 <= slot ix → flags !! Z.to_nat (slot ix) = Some true →
  ∃ counter' backoff' slept',
    spin fuel ix flags counter backoff slept = Waiting flags counter' backoff' slept'.
Proof.
  intros Hs Hb. revert counter backoff slept.
  induction fuel as [|fuel IH]; intros counter backoff slept; simpl; [by eauto|].
  rewrite (test_and_set_spec _ _ _ Hs Hb), (list_insert_id _ _ _ Hb). simpl.
  destruct (negb (counter =? 0)); apply IH.
Qed.

(** The locals of the loop after [fuel] more failed attempts. *)
Lemma lock_run_loop_schedule fuel ix flags counter backoff slept :
  0 <= slot ix → flags !! Z.to_nat (slot ix) = Some true →
  0 <= counter → 0 <= backoff <= RUN_LOCK_MAX_BACKOFF →
  spin fuel ix flags counter backoff slept =
  Waiting flags (Z.max 0 (counter - Z.of_nat fuel))
    (Z.min (backoff + Z.max 0 (Z.of_nat fuel - counter)) RUN_LOCK_MAX_BACKOFF)
    (slept ++ ((λ j, Z.min (backoff + j) RUN_LOCK_MAX_BACKOFF)
                 <$> seqZ 0 (Z.of_nat fuel - counter))).
Proof.
  intros Hs Hb. revert counter backoff slept.
  induction fuel as [|fuel IH]; intros counter backoff slept Hc Hbo.
  { cbn [lock_run_loop]. rewrite seqZ_nil by lia. rewrite app_nil_r.
    f_equal; lia. }
  cbn [lock_run_loop].
  rewrite (test_and_set_spec _ _ _ Hs Hb), (list_insert_id _ _ _ Hb).
  cbn [negb]. destruct (Z.eqb_spec counter 0) as [->|Hne]; cbn [negb].
  - rewrite IH by (try case_match; lia). f_equal; [lia | case_match; lia |].
    rewrite <- app_assoc. f_equal.
    replace (Z.of_nat (S fuel) - 0) with (1 + Z.of_nat fuel) by lia.
    rewrite seqZ_app by lia.
    rewrite (seqZ_cons 0 1), (seqZ_nil (Z.succ 0) (Z.pred 1)) by lia.
    simpl. f_equal; [lia|].
    replace (Z.of_nat fuel - 0) with (Z.of_nat fuel) by lia.
    rewrite <- (fmap_add_seqZ 1 0), <- list_fmap_compose.
    apply list_fmap_ext. intros i j [-> _]%lookup_seqZ. simpl.
    case_match; lia.
  - rewrite IH by lia. f_equal; [lia | f_equal; lia |].
    do 3 f_equal. lia.
Qed.

(** A call that returns has found its stripe clear at the first attempt
    and has set it. *)
Lemma lock_run_loop_locked fuel ix flags counter backoff slept flags' slept' :
  spin fuel ix flags counter backoff slept = Locked flags' slept' →
  0 <= slot ix ∧ flags !! Z.to_nat (slot ix) = Some false ∧
  flags' = <[Z.to_nat (slot ix) := true]> flags ∧ slept' = slept.
Proof.
  destruct fuel as [|fuel]; [done|]. cbn [lock_run_loop].
  destruct (test_and_set (slot ix) flags) as [[is_busy fl]|] eqn:Ht; [|done].
  unfold test_and_set in Ht. destruct (Z.ltb_spec (slot ix) 0) as [|Hs]; [done|].
  destruct (flags !! Z.to_nat (slot ix)) as [b|] eqn:Hb; [|done]. simplify_eq.
  destruct is_busy; simpl; [|intros; by simplify_eq].
  assert (<[Z.to_nat (slot ix) := true]> flags !! Z.to_nat (slot ix) = Some true)
    as Hset.
  { apply list_lookup_insert_eq. by eapply lookup_lt_Some. }
  intros Hl.
  destruct (negb (counter =? 0));
    match type of Hl with
    | lock_run_loop _ _ ?f ?i ?fl ?c ?b ?s = _ =>
      destruct (lock_run_loop_waits f i fl c b s Hs Hset) as (? & ? & ? & Hw)
    end; congruence.
Qed.

(** X19: the stripe index never leaves the table. If the mask is not
    negative and below the number of flags, then for every run index,
    negative ones included, [lock_run] and [unlock_run] stay inside
    [run_lock_flags_], and they keep its size. *)
Theorem stripe_stays_in_table flags ix fuel :
  0 <= RUN_LOCK_FLAGS_MASK < RUN_LOCK_FLAGS_SIZE →
  length flags = Z.to_nat RUN_LOCK_FLAGS_SIZE →
  lock_run RUN_LOCK_FLAGS_MASK RUN_LOCK_BUSY_COUNT RUN_LOCK_MAX_BACKOFF
    fuel ix flags ≠ OutOfRange ∧
  (∀ flags' slept,
     lock_run RUN_LOCK_FLAGS_MASK RUN_LOCK_BUSY_COUNT RUN_LOCK_MAX_BACKOFF
       fuel ix flags = Locked flags' slept →
     length flags' = length flags) ∧
  ∃ flags', unlock_run RUN_LOCK_FLAGS_MASK ix flags = Some flags' ∧
            length flags' = length flags.
Proof.
  intros Hm Hlen. pose proof (stripe_range ix (proj1 Hm)) as Hs.
  assert (Z.to_nat (slot ix) < length flags)%nat as Hlt by lia.
  destruct (lookup_lt_is_Some_2 _ _ Hlt) as [b Hb].
  split_and!.
  - unfold lock_run. destruct b.
    + destruct (lock_run_loop_waits fuel ix flags RUN_LOCK_BUSY_COUNT 0 []
                  (proj1 Hs) Hb) as (? & ? & ? & ->). done.
    + destruct fuel as [|fuel]; [done|]. cbn [lock_run_loop].
      by rewrite (test_and_set_spec _ _ _ (proj1 Hs) Hb).
  - intros flags' slept (_ & _ & -> & _)%lock_run_loop_locked.
    by rewrite length_insert.
  - unfold unlock_run. rewrite (proj2 (Z.ltb_ge _ _) (proj1 Hs)), Hb.
    eexists. split; [done|]. by rewrite length_insert.
Qed.

(** X20: mutual exclusion on a stripe, for one thread at a time. A call
    of [lock_run] that returns found its stripe clear, set it without
    sleeping and changed no other flag. Until [unlock_run], a call for
    any run index of the same stripe does not return, however many
    rounds it spins; [unlock_run] gives back the flags from before the
    lock. *)
Theorem lock_run_excludes fuel ix flags flags' slept :
  lock_run RUN_LOCK_FLAGS_MASK RUN_LOCK_BUSY_COUNT RUN_LOCK_MAX_BACKOFF
    fuel ix flags = Locked flags' slept →
  slept = [] ∧
  flags' = <[Z.to_nat (stripe RUN_LOCK_FLAGS_MASK ix) := true]> flags ∧
  unlock_run RUN_LOCK_FLAGS_MASK ix flags' = Some flags ∧
  ∀ iy rounds,
    stripe RUN_LOCK_FLAGS_MASK iy = stripe RUN_LOCK_FLAGS_MASK ix →
    ∃ counter backoff slept',
      lock_run RUN_LOCK_FLAGS_MASK RUN_LOCK_BUSY_COUNT RUN_LOCK_MAX_BACKOFF
        rounds iy flags' = Waiting flags' counter backoff slept'.
Proof.
  intros (Hs & Hb & -> & ->)%lock_run_loop_locked.
  assert (<[Z.to_nat (slot ix) := true]> flags !! Z.to_nat (slot ix) = Some true)
    as Hset.
  { apply list_lookup_insert_eq. by eapply lookup_lt_Some. }
  split_and!; [done | done | |].
  - unfold unlock_run. rewrite (proj2 (Z.ltb_ge _ _) Hs), Hset.
    by rewrite list_insert_insert_eq, list_insert_id.
  - intros iy rounds Hy. apply lock_run_loop_waits; by rewrite Hy.
Qed.

(** X21: the back-off of [lock_run]. With [RUN_LOCK_BUSY_COUNT] and
    [RUN_LOCK_MAX_BACKOFF] not negative, a caller that has found its
    stripe set [rounds] times has not slept during the first
    [RUN_LOCK_BUSY_COUNT] of them; after that it has slept once per
    round, [j] milliseconds at the [j]-th sleep counted from 0, and
    [RUN_LOCK_MAX_BACKOFF] once [j] has reached it. *)
Theorem lock_run_backs_off rounds ix flags :
  0 <= RUN_LOCK_BUSY_COUNT → 0 <= RUN_LOCK_MAX_BACKOFF →
  0 <= stripe RUN_LOCK_FLAGS_MASK ix →
  flags !! Z.to_nat (stripe RUN_LOCK_FLAGS_MASK ix) = Some true →
  lock_run RUN_LOCK_FLAGS_MASK RUN_LOCK_BUSY_COUNT RUN_LOCK_MAX_BACKOFF
    rounds ix flags =
  Waiting flags
    (counter_after RUN_LOCK_BUSY_COUNT (Z.of_nat rounds))
    (backoff_after RUN_LOCK_BUSY_COUNT RUN_LOCK_MAX_BACKOFF (Z.of_nat rounds))
    (sleeps_after RUN_LOCK_BUSY_COUNT RUN_LOCK_MAX_BACKOFF (Z.of_nat rounds)).
Proof.
  intros Hc Hm Hs Hb. unfold lock_run.
  rewrite lock_run_loop_schedule by (done || lia).
  unfold counter_after, backoff_after, sleeps_after. by f_equal.
Qed.

(** With a mask of [k] ones, the indices below [2 ^ k] are their own
    stripes. *)
Lemma stripe_ones k ix :
  0 <= k → RUN_LOCK_FLAGS_MASK = Z.ones k → 0 <= ix < 2 ^ k → slot ix = ix.
Proof.
  intros Hk -> Hix. unfold stripe.
  rewrite Z.land_comm, Z.land_ones by done. by apply Z.mod_small.
Qed.

Lemma lock_runs_from_clear k fuel count n slept :
  0 <= k → RUN_LOCK_FLAGS_MASK = Z.ones k → Z.of_nat (n + count) <= 2 ^ k →
  lock_runs_from RUN_LOCK_FLAGS_MASK RUN_LOCK_BUSY_COUNT RUN_LOCK_MAX_BACKOFF
    (S fuel) count (Z.of_nat n) (replicate n true ++ replicate count false) slept =
  Locked (replicate (n + count) true) slept.
Proof.
  intros Hk Hm. revert n slept.
  induction count as [|count IH]; intros n slept Hn; cbn [lock_runs_from].
  { by rewrite app_nil_r, Nat.add_0_r. }
  assert (slot (Z.of_nat n) = Z.of_nat n) as Hslot.
  { apply (stripe_ones k); [done..|lia]. }
  unfold lock_run. cbn [lock_run_loop].
  rewrite (test_and_set_spec _ _ false), Hslot, Nat2Z.id.
  2:{ rewrite Hslot. lia. }
  2:{ rewrite Hslot, Nat2Z.id, lookup_app_r by (by rewrite length_replicate).
      by rewrite length_replicate, Nat.sub_diag. }
  cbn [negb]. rewrite app_nil_r.
  replace (<[n:=true]> (replicate n true ++ replicate (S count) false))
    with (replicate (S n) true ++ replicate count false).
  2:{ rewrite insert_app_r_alt by (by rewrite length_replicate).
      rewrite length_replicate, Nat.sub_diag, replicate_S_end, <- app_assoc.
      done. }
  replace (Z.of_nat n + 1) with (Z.of_nat (S n)) by lia.
  rewrite IH by lia. do 2 f_equal. lia.
Qed.

Lemma unlock_runs_from_set k count n :
  0 <= k → RUN_LOCK_FLAGS_MASK = Z.ones k → Z.of_nat (n + count) <= 2 ^ k →
  unlock_runs_from RUN_LOCK_FLAGS_MASK count (Z.of_nat n)
    (replicate n false ++ replicate count true) =
  Some (replicate (n + count) false).
Proof.
  intros Hk Hm. revert n.
  induction count as [|count IH]; intros n Hn; cbn [unlock_runs_from].
  { by rewrite app_nil_r, Nat.add_0_r. }
  assert (slot (Z.of_nat n) = Z.of_nat n) as Hslot.
  { apply (stripe_ones k); [done..|lia]. }
  unfold unlock_run. rewrite Hslot, Nat2Z.id.
  rewrite (proj2 (Z.ltb_ge _ _)) by lia.
  rewrite lookup_app_r by (by rewrite length_replicate).
  rewrite length_replicate, Nat.sub_diag. cbn [lookup list_lookup replicate].
  replace (<[n:=false]> (replicate n false ++ true :: replicate count true))
    with (replicate (S n) false ++ replicate count true).
  2:{ rewrite insert_app_r_alt by (by rewrite length_replicate).
      rewrite length_replicate, Nat.sub_diag, replicate_S_end, <- app_assoc.
      done. }
  replace (Z.of_nat n + 1) with (Z.of_nat (S n)) by lia.
  rewrite IH by lia. do 2 f_equal. lia.
Qed.

(** [lock_all_runs] does not return once it meets a stripe that is set:
    one that was set on entry, or one it has set itself for an earlier
    index. *)
Lemma lock_runs_from_blocked fuel count i flags slept flags' slept' :
  (∃ b, i <= b < i + Z.of_nat count ∧ 0 <= slot b ∧
        flags !! Z.to_nat (slot b) = Some true) ∨
  (∃ a b, i <= a < b ∧ b < i + Z.of_nat count ∧ slot a = slot b) →
  lock_runs_from RUN_LOCK_FLAGS_MASK RUN_LOCK_BUSY_COUNT RUN_LOCK_MAX_BACKOFF
    fuel count i flags slept ≠ Locked flags' slept'.
Proof.
  revert i flags slept.
  induction count as [|count IH]; intros i flags slept Hblock; cbn [lock_runs_from].
  { destruct Hblock as [(b & ? & _)|(a & b & ? & ? & _)]; lia. }
  destruct (lock fuel i flags) as [flags1 slept1| |] eqn:Hlock; [|done..].
  apply lock_run_loop_locked in Hlock as (Hs & Hclear & -> & ->).
  assert (<[Z.to_nat (slot i) := true]> flags !! Z.to_nat (slot i) = Some true)
    as Hset.
  { apply list_lookup_insert_eq. by eapply lookup_lt_Some. }
  apply IH. destruct Hblock as [(b & Hb & Hsb & Hflag)|(a & b & Hab & Hb & Heq)].
  - left. exists b. destruct (decide (b = i)) as [->|Hne]; [congruence|].
    split; [lia|]. split; [done|].
    destruct (decide (Z.to_nat (slot i) = Z.to_nat (slot b))) as [Heq|Hne'].
    + by rewrite <- Heq.
    + by rewrite list_lookup_insert_ne.
  - destruct (decide (a = i)) as [->|Hne].
    + left. exists b. rewrite <- Heq. split; [lia|]. by split.
    + right. exists a, b. split; [lia|]. split; [lia|done].
Qed.

(** X22: with [RUN_LOCK_FLAGS_SIZE] a power of two and the mask one
    less, [lock_all_runs] on the flags the constructor leaves returns at
    once, without sleeping, with every flag set, and [unlock_all_runs]
    clears them all again: the pair that brackets [make_checkpoint_] and
    [close] leaves the flags as it found them. A second [lock_all_runs]
    before the flags are cleared does not return. *)
Theorem lock_all_runs_round_trip k fuel :
  0 <= k → RUN_LOCK_FLAGS_SIZE = 2 ^ k →
  RUN_LOCK_FLAGS_MASK = RUN_LOCK_FLAGS_SIZE - 1 →
  ∃ locked,
    lock_all_runs RUN_LOCK_FLAGS_SIZE RUN_LOCK_FLAGS_MASK RUN_LOCK_BUSY_COUNT
      RUN_LOCK_MAX_BACKOFF (S fuel) (new_run_lock_flags RUN_LOCK_FLAGS_SIZE) =
    Locked locked [] ∧
    locked = replicate (Z.to_nat RUN_LOCK_FLAGS_SIZE) true ∧
    unlock_all_runs RUN_LOCK_FLAGS_SIZE RUN_LOCK_FLAGS_MASK locked =
    Some (new_run_lock_flags RUN_LOCK_FLAGS_SIZE) ∧
    ∀ rounds flags' slept,
      lock_all_runs RUN_LOCK_FLAGS_SIZE RUN_LOCK_FLAGS_MASK RUN_LOCK_BUSY_COUNT
        RUN_LOCK_MAX_BACKOFF rounds locked ≠ Locked flags' slept.
Proof.
  intros Hk Hsize Hmask.
  assert (RUN_LOCK_FLAGS_MASK = Z.ones k) as Hones.
  { rewrite Z.ones_equiv. lia. }
  assert (0 < 2 ^ k) as Hpos by (by apply Z.pow_pos_nonneg).
  eexists. split_and!; [|done| |].
  - unfold lock_all_runs, new_run_lock_flags.
    pose proof (lock_runs_from_clear k fuel (Z.to_nat RUN_LOCK_FLAGS_SIZE) 0 []
                  Hk Hones) as Hall.
    cbn [replicate app Z.of_nat Nat.add] in Hall. apply Hall. lia.
  - unfold unlock_all_runs, new_run_lock_flags.
    pose proof (unlock_runs_from_set k (Z.to_nat RUN_LOCK_FLAGS_SIZE) 0 Hk Hones)
      as Hall.
    cbn [replicate app Z.of_nat Nat.add] in Hall. apply Hall. lia.
  - intros rounds flags' slept. unfold lock_all_runs.
    apply lock_runs_from_blocked. left. exists 0.
    rewrite (stripe_ones k 0 Hk Hones) by lia.
    split; [lia|]. split; [done|]. apply lookup_replicate_2. lia.
Qed.

(** X23: [lock_all_runs] relies on the mask. If two indices below
    [RUN_LOCK_FLAGS_SIZE] share a stripe, it never returns, whatever the
    flags were: it waits for a flag it has set itself. *)
Theorem lock_all_runs_needs_distinct_stripes a b rounds flags flags' slept :
  0 <= a < b → b < RUN_LOCK_FLAGS_SIZE →
  stripe RUN_LOCK_FLAGS_MASK a = stripe RUN_LOCK_FLAGS_MASK b →
  lock_all_runs RUN_LOCK_FLAGS_SIZE RUN_LOCK_FLAGS_MASK RUN_LOCK_BUSY_COUNT
    RUN_LOCK_MAX_BACKOFF rounds flags ≠ Locked flags' slept.
Proof.
  intros Hab Hb Heq. unfold lock_all_runs. apply lock_runs_from_blocked.
  right. exists a, b. split; [lia|]. split; [lia|done].
Qed.

End RunLockProperties.

Lemma negative_index_in_table :
  lock_run 3 2 3 1 (-3) [false; false; false; false] ≠ OutOfRange.
Proof.
  destruct (stripe_stays_in_table 4 3 2 3 [false; false; false; false] (-3) 1)
    as [H _]; [lia | reflexivity | exact H].
Defined.

Lemma run_5_excludes_run_1 :
  unlock_run 3 5 [false; true; false; false] = Some [false; false; false; false] ∧
  ∃ counter backoff slept,
    lock_run 3 2 3 100 1 [false; true; false; false] =
    Waiting [false; true; false; false] counter backoff slept.
Proof.
  destruct (lock_run_excludes 3 2 3 1 5 [false; false; false; false]
              [false; true; false; false] []) as (_ & _ & Hunlock & Hwait);
    [reflexivity|].
  split; [exact Hunlock | by apply Hwait].
Defined.

Lemma eight_rounds_back_off :
  lock_run 3 2 3 8 1 [false; true; false; false] =
  Waiting [false; true; false; false] 0 3 [0; 1; 2; 3; 3; 3].
Proof.
  apply (lock_run_backs_off 3 2 3 8 1 [false; true; false; false]);
    [lia | lia | by vm_compute | reflexivity].
Defined.

Lemma four_stripes_round_trip :
  ∃ locked,
    lock_all_runs 4 3 2 3 1 (new_run_lock_flags 4) = Locked locked [] ∧
    locked = replicate (Z.to_nat 4) true ∧
    unlock_all_runs 4 3 locked = Some (new_run_lock_flags 4) ∧
    ∀ rounds flags' slept, lock_all_runs 4 3 2 3 rounds locked ≠ Locked flags' slept.
Proof.
  apply (lock_all_runs_round_trip 4 3 2 3 2 0); [lia | reflexivity | reflexivity].
Defined.

Lemma mask_1_never_locks_four :
  lock_all_runs 4 1 2 3 10 (new_run_lock_flags 4) ≠ Locked [true; true; true; true] [].
Proof.
  apply (lock_all_runs_needs_distinct_stripes 4 1 2 3 0 2); [lia | lia | reflexivity].
Defined.

(** ** The mocks *)

Lemma foldl_consume calls m :
  param_ (foldl consume m calls) = param_ m ++ (doubles calls).*1.*1 ∧
  ts_ (foldl consume m calls) = ts_ m ++ (doubles calls).*1.*2 ∧
  data_ (foldl consume m calls) = data_ m ++ (doubles calls).*2 ∧
  bulk_ (foldl consume m calls) = bulk_ m ++ bulks calls.
Proof.
  revert m. induction calls as [|call calls IH]; intros m.
  { simpl. by rewrite !app_nil_r. }
  cbn [foldl]. destruct (IH (consume m call)) as (-> & -> & -> & ->).
  destruct call; simpl; by rewrite <- ?app_assoc.
Qed.

(** X24: [ConsumerMock] keeps its three vectors of records aligned.
    After any calls on a new mock, [param_], [ts_] and [data_] have one
    entry per [write_double] call, in call order, so the entries at one
    index come from one call; [bulk_] has the first [n] bytes of the
    buffer of each [add_bulk_string] call, in call order. *)
Theorem consumer_mock_aligned calls :
  let m := foldl consume new_consumer calls in
  param_ m = (doubles calls).*1.*1 ∧
  ts_ m = (doubles calls).*1.*2 ∧
  data_ m = (doubles calls).*2 ∧
  bulk_ m = bulks calls ∧
  length (param_ m) = length (ts_ m) ∧ length (ts_ m) = length (data_ m) ∧
  ∀ i param ts data,
    param_ m !! i = Some param → ts_ m !! i = Some ts → data_ m !! i = Some data →
    doubles calls !! i = Some (param, ts, data).
Proof.
  intros m. destruct (foldl_consume calls new_consumer) as (Hp & Ht & Hd & Hb).
  fold m in Hp, Ht, Hd, Hb. simpl in Hp, Ht, Hd, Hb.
  rewrite Hp, Ht, Hd, Hb, !length_fmap. split_and!; try done.
  intros i param ts data. rewrite !list_lookup_fmap.
  destruct (doubles calls !! i) as [[[p t] d]|]; simpl; [|done].
  intros; by simplify_eq.
Qed.

Lemma calls_logged n (m : DbMock.t) j :
  0 <= DbMock.nrec m → DbMock.nrec m + Z.of_nat n <= 2 ^ 64 → (j < n)%nat →
  DbMock.calls n m !! j =
  Some (AKU_SUCCESS, bool_decide ((DbMock.nrec m + Z.of_nat j) mod DbMock.N = 0)).
Proof.
  revert m j. induction n as [|n IH]; intros m j Hm Hn Hj; [lia|].
  cbn [DbMock.calls DbMock.write_double]. destruct j as [|j].
  { simpl. by rewrite Z.add_0_r. }
  assert ((DbMock.nrec m + 1) mod 2 ^ 64 = DbMock.nrec m + 1) as ->.
  { apply Z.mod_small. lia. }
  change (DbMock.calls n (DbMock.mk (DbMock.nrec m + 1)) !! j = Some
            (AKU_SUCCESS,
             bool_decide ((DbMock.nrec m + Z.of_nat (S j)) mod DbMock.N = 0))).
  rewrite IH; cbn [DbMock.nrec]; try lia.
  by replace (DbMock.nrec m + 1 + Z.of_nat j)
    with (DbMock.nrec m + Z.of_nat (S j)) by lia.
Qed.

(** X25: [DbMock] logs the throughput at every millionth record. Of the
    calls of [write_double] on a new mock, counted from 0 and as long as
    [nrec] has not wrapped, call [j] logs exactly when [j] is a multiple
    of 1000000, the first call included; every call returns
    [AKU_SUCCESS]. *)
Theorem db_mock_logs_every_million n j :
  Z.of_nat n <= 2 ^ 64 → (j < n)%nat →
  DbMock.calls n (DbMock.mk 0) !! j =
  Some (AKU_SUCCESS, bool_decide (Z.of_nat j mod 1000000 = 0)).
Proof.
  intros Hn Hj. rewrite calls_logged; simpl; by try lia.
Qed.

Lemma db_mock_third_call_silent :
  DbMock.calls 3 (DbMock.mk 0) !! 2%nat = Some (AKU_SUCCESS, false).
Proof.
  apply (db_mock_logs_every_million 3 2); [by vm_compute | lia].
Defined.

(** ** Closing a sequencer *)

(** X26: [close] and then [merge] on a sequencer with a free progress
    lock and nothing in Ready. Both return. If there is no active run,
    as in a new sequencer, the cursor gets [set_error] with
    [AKU_ENO_DATA] and never [complete]; otherwise it gets one offset per
    value held and then [complete], and nothing remains in the
    sequencer. *)
Theorem close_then_merge s :
  progress_flag_ s = false → ready_ s = [] →
  ∃ s1 events s2,
    close s = Some (true, s1) ∧
    merge true s1 = Some (events, s2) ∧
    (runs_ s = [] → events = [SetError AKU_ENO_DATA]) ∧
    (runs_ s ≠ [] →
     contents s2 = [] ∧
     ∃ items : list HeapItem,
       events = puts items ++ [Complete] ∧ items.*1 ≡ₚ concat (runs_ s)).
Proof.
  intros Hp Hr. unfold close. rewrite Hp, Hr.
  destruct (merge_with_lock
              (mkSequencer (window_size_ s) (top_timestamp_ s) (checkpoint_ s)
                 [] ([] ++ runs_ s) (seq_key_ s) true))
    as (events & s2 & Hmerge & Hcases).
  eexists _, events, s2. split; [done|]. split; [done|]. simpl in Hcases.
  destruct Hcases as [(Hempty & -> & ->)|(Hfull & items & -> & Hperm & Hready & Hruns)].
  - split; [done|]. intros Hne. by destruct Hne.
  - split; [intros He; by destruct Hfull|]. intros _.
    split; [|by exists items]. unfold contents. by rewrite Hready, Hruns.
Qed.

Lemma fresh_close_then_merge :
  ∃ s1 events s2,
    close fresh = Some (true, s1) ∧
    merge true s1 = Some (events, s2) ∧
    (runs_ fresh = [] → events = [SetError AKU_ENO_DATA]) ∧
    (runs_ fresh ≠ [] →
     contents s2 = [] ∧
     ∃ items : list HeapItem,
       events = puts items ++ [Complete] ∧ items.*1 ≡ₚ concat (runs_ fresh)).
Proof. apply (close_then_merge fresh); reflexivity. Defined.
